(** * chash: a chained hash table over untyped references (hash.h)

    A shallow embedding of [hash.h] and the proofs of its specification.

    The C code works on heap objects through pointers, so the embedding keeps
    an explicit store: one finite map per struct type, a bump allocator for
    [malloc]/[calloc], and a log of the [onRemove] callbacks that were made.
    Every function of the header is a computation over that store which can
    finish, fault (a null or dangling dereference, a call through a null
    function pointer) or run out of its loop budget. *)

From stdpp Require Import base option list gmap.
From Stdlib Require Import ZArith Lia.

Local Open Scope Z_scope.

(** ** Data model *)

(** Addresses; [NULL] is address zero and is never allocated. *)
Definition ptr := Z.
Definition NULL : ptr := 0.

(** [struct HashPair { void* key; void* element; }] *)
Record HashPair := mkHashPair {
  pair_key : Z;
  pair_element : Z
}.

(** [struct HashList { struct HashList* next; struct HashPair* pair; }] *)
Record HashList := mkHashList {
  list_next : ptr;
  list_pair : ptr
}.

(** [#define HASHSIZE 101] *)
Definition HASHSIZE : nat := 101.

(** [struct HashTable]: the three strategies are function pointers, [None]
    being the null function pointer. *)
Record HashTable := mkHashTable {
  tbl_hashListArr : ptr;
  tbl_cmp : option (Z → Z → Z);
  tbl_hash : option (Z → Z);
  tbl_onRemove : option (HashPair → Z)
}.

(** The all-zero table, [struct HashTable t = {0}]. *)
Definition zero_table : HashTable := mkHashTable NULL None None None.

(** The store.  [brk] is the next address the allocator hands out;
    [removed] logs every [onRemove] call with the pointer it received and
    the pair that pointer referred to at the time of the call. *)
Record Mem := mkMem {
  tables : gmap Z HashTable;
  arrays : gmap Z (list ptr);
  lists : gmap Z HashList;
  pairs : gmap Z HashPair;
  brk : Z;
  removed : list (ptr * HashPair)
}.

Definition upd_tables (f : gmap Z HashTable → gmap Z HashTable) (m : Mem) : Mem :=
  mkMem (f (tables m)) (arrays m) (lists m) (pairs m) (brk m) (removed m).
Definition upd_arrays (f : gmap Z (list ptr) → gmap Z (list ptr)) (m : Mem) : Mem :=
  mkMem (tables m) (f (arrays m)) (lists m) (pairs m) (brk m) (removed m).
Definition upd_lists (f : gmap Z HashList → gmap Z HashList) (m : Mem) : Mem :=
  mkMem (tables m) (arrays m) (f (lists m)) (pairs m) (brk m) (removed m).
Definition upd_pairs (f : gmap Z HashPair → gmap Z HashPair) (m : Mem) : Mem :=
  mkMem (tables m) (arrays m) (lists m) (f (pairs m)) (brk m) (removed m).
Definition bump (m : Mem) : Mem :=
  mkMem (tables m) (arrays m) (lists m) (pairs m) (brk m + 1) (removed m).
Definition log_removed (c : ptr * HashPair) (m : Mem) : Mem :=
  mkMem (tables m) (arrays m) (lists m) (pairs m) (brk m) (removed m ++ [c]).

(** A [struct HashList**] of the code points either into the bucket array or
    at the [next] field of a node. *)
Inductive loc :=
| Bucket (arr : ptr) (i : nat)
| NextOf (l : ptr).

(** The [void*] that [HashTable_Has] and [HashTable_At] return: null, or the
    address of the [element] field of the pair at [p]. *)
Inductive eref :=
| RNull
| RElement (p : ptr).

(** ** Computations *)

Inductive outcome (A : Type) : Type :=
| Done (a : A) (m : Mem)
| Fault
| Timeout.
Arguments Done {A} a m.
Arguments Fault {A}.
Arguments Timeout {A}.

Definition M (A : Type) : Type := Mem → outcome A.

Definition ret {A} (a : A) : M A := λ m, Done a m.
Definition bind {A B} (c : M A) (k : A → M B) : M B :=
  λ m, match c m with
       | Done a m' => k a m'
       | Fault => Fault
       | Timeout => Timeout
       end.
Definition fault {A} : M A := λ _, Fault.
Definition timeout {A} : M A := λ _, Timeout.

Notation "x <- c ;; k" := (bind c (λ x, k))
  (at level 100, c at next level, right associativity, only parsing).
Notation "c ;;; k" := (bind c (λ _, k))
  (at level 100, right associativity, only parsing).

(** Read-only and updating accesses; a missing object is a fault. *)
Definition reading {A} (f : Mem → option A) : M A :=
  λ m, match f m with Some a => Done a m | None => Fault end.
Definition writing (f : Mem → option Mem) : M unit :=
  λ m, match f m with Some m' => Done tt m' | None => Fault end.

Definition load_table (t : ptr) : M HashTable := reading (λ m, tables m !! t).
Definition load_list (l : ptr) : M HashList := reading (λ m, lists m !! l).
Definition load_pair (p : ptr) : M HashPair := reading (λ m, pairs m !! p).

Definition read_loc (x : loc) (m : Mem) : option ptr :=
  match x with
  | Bucket arr i => match arrays m !! arr with Some a => a !! i | None => None end
  | NextOf l => list_next <$> lists m !! l
  end.

Definition write_loc (x : loc) (v : ptr) (m : Mem) : option Mem :=
  match x with
  | Bucket arr i =>
      match arrays m !! arr with
      | Some a => if decide (i < length a)%nat
                  then Some (upd_arrays <[arr := <[i := v]> a]> m)
                  else None
      | None => None
      end
  | NextOf l =>
      match lists m !! l with
      | Some nd => Some (upd_lists <[l := mkHashList v (list_pair nd)]> m)
      | None => None
      end
  end.

Definition load_loc (x : loc) : M ptr := reading (read_loc x).
Definition store_loc (x : loc) (v : ptr) : M unit := writing (write_loc x v).

(** Field stores. *)
Definition write_table (t : ptr) (f : HashTable → HashTable) (m : Mem) : option Mem :=
  match tables m !! t with
  | Some tb => Some (upd_tables <[t := f tb]> m)
  | None => None
  end.
Definition write_list (l : ptr) (f : HashList → HashList) (m : Mem) : option Mem :=
  match lists m !! l with
  | Some nd => Some (upd_lists <[l := f nd]> m)
  | None => None
  end.
Definition write_pair (p : ptr) (f : HashPair → HashPair) (m : Mem) : option Mem :=
  match pairs m !! p with
  | Some pr => Some (upd_pairs <[p := f pr]> m)
  | None => None
  end.

Definition store_table (t : ptr) (f : HashTable → HashTable) : M unit :=
  writing (write_table t f).
Definition store_list (l : ptr) (f : HashList → HashList) : M unit :=
  writing (write_list l f).
Definition store_pair (p : ptr) (f : HashPair → HashPair) : M unit :=
  writing (write_pair p f).

Definition set_cmp (c : option (Z → Z → Z)) (t : HashTable) : HashTable :=
  mkHashTable (tbl_hashListArr t) c (tbl_hash t) (tbl_onRemove t).
Definition set_hash (h : option (Z → Z)) (t : HashTable) : HashTable :=
  mkHashTable (tbl_hashListArr t) (tbl_cmp t) h (tbl_onRemove t).
Definition set_onRemove (r : option (HashPair → Z)) (t : HashTable) : HashTable :=
  mkHashTable (tbl_hashListArr t) (tbl_cmp t) (tbl_hash t) r.
Definition set_hashListArr (a : ptr) (t : HashTable) : HashTable :=
  mkHashTable a (tbl_cmp t) (tbl_hash t) (tbl_onRemove t).
Definition set_key (k : Z) (p : HashPair) : HashPair := mkHashPair k (pair_element p).
Definition set_element (e : Z) (p : HashPair) : HashPair := mkHashPair (pair_key p) e.
Definition set_next (n : ptr) (l : HashList) : HashList := mkHashList n (list_pair l).
Definition set_pair (p : ptr) (l : HashList) : HashList := mkHashList (list_next l) p.

(** Allocation.  The contents of a [malloc]ed block are indeterminate: the
    block comes back filled with [poison], a pattern that is neither the
    null pointer nor zero, in every field.  Whatever a fresh node or pair
    holds afterwards is therefore what the code stored into it; a field the
    code left unwritten would still read [poison].  [calloc] zeroes the
    block. *)
Definition poison : Z := 3452816845.
Definition junk_list : HashList := mkHashList poison poison.
Definition junk_pair : HashPair := mkHashPair poison poison.

Definition malloc_HashList : M ptr :=
  λ m, Done (brk m) (bump (upd_lists <[brk m := junk_list]> m)).
Definition malloc_HashPair : M ptr :=
  λ m, Done (brk m) (bump (upd_pairs <[brk m := junk_pair]> m)).
Definition calloc_buckets (n : nat) : M ptr :=
  λ m, Done (brk m) (bump (upd_arrays <[brk m := replicate n NULL]> m)).

Definition free_list (l : ptr) : M unit :=
  writing (λ m, match lists m !! l with
                | Some _ => Some (upd_lists (delete l) m)
                | None => None
                end).
Definition free_pair (p : ptr) : M unit :=
  writing (λ m, match pairs m !! p with
                | Some _ => Some (upd_pairs (delete p) m)
                | None => None
                end).
Definition free_array (a : ptr) : M unit :=
  writing (λ m, match arrays m !! a with
                | Some _ => Some (upd_arrays (delete a) m)
                | None => None
                end).

(** Calls through the strategy pointers.  The strategies are pure functions
    of the key references; their results are read at their C types,
    [unsigned int] for [hash] and [int] for [cmp]. *)
Definition to_uint (z : Z) : Z := z mod 2 ^ 32.
Definition to_int (z : Z) : Z := (z + 2 ^ 31) mod 2 ^ 32 - 2 ^ 31.

Definition call_hash (h : option (Z → Z)) (key : Z) : M Z :=
  match h with
  | Some f => ret (to_uint (f key))
  | None => fault
  end.
Definition call_cmp (c : option (Z → Z → Z)) (a b : Z) : M Z :=
  match c with
  | Some f => ret (to_int (f a b))
  | None => fault
  end.

(** A call of [onRemove] on the pair at [p].  What the callback does with
    the caller's key and element memory lies outside the store; the call is
    recorded in [removed], and its [int] result is dropped as the code
    drops it. *)
Definition call_onRemove (r : HashPair → Z) (p : ptr) : M unit :=
  pr <- load_pair p ;;
  λ m, Done tt (log_removed (p, pr) m).

(** ** The functions of hash.h *)

(** [HashTable_Init] *)
Definition HashTable_Init (hashTable : ptr) (cmp : option (Z → Z → Z))
    (hash : option (Z → Z)) (onRemove : option (HashPair → Z)) : M ptr :=
  store_table hashTable (set_cmp cmp) ;;;
  store_table hashTable (set_hash hash) ;;;
  store_table hashTable (set_onRemove onRemove) ;;;
  a <- calloc_buckets HASHSIZE ;;
  store_table hashTable (set_hashListArr a) ;;;
  ret hashTable.

(** [HashTable_Ready]: [return hashTable && hashTable->hash;] *)
Definition HashTable_Ready (hashTable : ptr) : M Z :=
  if decide (hashTable = NULL) then ret 0
  else
    t <- load_table hashTable ;;
    ret (match tbl_hash t with Some _ => 1 | None => 0 end).

(** The [while(l)] loop of [HashTable_Destroy]. *)
Fixpoint Destroy_chain (fuel : nat) (hashTable : ptr) (l : ptr) : M unit :=
  match fuel with
  | O => timeout
  | S fuel' =>
      if decide (l = NULL) then ret tt
      else
        nd <- load_list l ;;
        let next := list_next nd in
        t <- load_table hashTable ;;
        match tbl_onRemove t with
        | Some r => call_onRemove r (list_pair nd)
        | None => ret tt
        end ;;;
        nd' <- load_list l ;;
        free_pair (list_pair nd') ;;;
        free_list l ;;;
        Destroy_chain fuel' hashTable next
  end.

(** The [for] loop of [HashTable_Destroy], [n] iterations from index [i]. *)
Fixpoint Destroy_buckets (fuel : nat) (hashTable : ptr) (i : nat) (n : nat) : M unit :=
  match n with
  | O => ret tt
  | S n' =>
      t <- load_table hashTable ;;
      l <- load_loc (Bucket (tbl_hashListArr t) i) ;;
      Destroy_chain fuel hashTable l ;;;
      Destroy_buckets fuel hashTable (S i) n'
  end.

(** [HashTable_Destroy]; [fuel] bounds each inner [while] loop. *)
Definition HashTable_Destroy (fuel : nat) (hashTable : ptr) : M unit :=
  if decide (hashTable = NULL) then ret tt
  else
    r <- HashTable_Ready hashTable ;;
    if decide (r = 0) then ret tt
    else
      Destroy_buckets fuel hashTable 0 HASHSIZE ;;;
      t <- load_table hashTable ;;
      free_array (tbl_hashListArr t) ;;;
      store_table hashTable (set_hash None).

(** The bucket index [idx % HASHSIZE]. *)
Definition bucket_index (idx : Z) : nat := Z.to_nat (idx mod Z.of_nat HASHSIZE).

(** The [while] loop of [HashTable_Has]; it returns the final [list]. *)
Fixpoint Has_loop (fuel : nat) (hashTable : ptr) (key : Z) (list : loc) : M loc :=
  match fuel with
  | O => timeout
  | S fuel' =>
      l <- load_loc list ;;
      if decide (l = NULL) then ret list
      else
        t <- load_table hashTable ;;
        nd <- load_list l ;;
        pr <- load_pair (list_pair nd) ;;
        c <- call_cmp (tbl_cmp t) key (pair_key pr) ;;
        if decide (c = 0) then ret list
        else Has_loop fuel' hashTable key (NextOf l)
  end.

(** [HashTable_Has] *)
Definition HashTable_Has (fuel : nat) (hashTable : ptr) (key : Z) : M eref :=
  t <- load_table hashTable ;;
  idx <- call_hash (tbl_hash t) key ;;
  list <- Has_loop fuel hashTable key (Bucket (tbl_hashListArr t) (bucket_index idx)) ;;
  l <- load_loc list ;;
  if decide (l = NULL) then ret RNull
  else
    nd <- load_list l ;;
    ret (RElement (list_pair nd)).

(** The body of [if(!( *list))] in [HashTable_At]: a fresh node and pair,
    linked in at [list]. *)
Definition At_alloc (list : loc) (key : Z) : M unit :=
  l <- malloc_HashList ;;
  p <- malloc_HashPair ;;
  store_pair p (set_key key) ;;;
  store_pair p (set_element 0) ;;;
  store_list l (set_next NULL) ;;;
  store_list l (set_pair p) ;;;
  store_loc list l.

(** The [do ... while] loop of [HashTable_At]; it returns the final [list]. *)
Fixpoint At_loop (fuel : nat) (hashTable : ptr) (key : Z) (next : loc) : M loc :=
  match fuel with
  | O => timeout
  | S fuel' =>
      let list := next in
      l0 <- load_loc list ;;
      (if decide (l0 = NULL) then At_alloc list key else ret tt) ;;;
      l1 <- load_loc list ;;
      let next := NextOf l1 in
      t <- load_table hashTable ;;
      nd <- load_list l1 ;;
      pr <- load_pair (list_pair nd) ;;
      c <- call_cmp (tbl_cmp t) key (pair_key pr) ;;
      if decide (c = 0) then ret list
      else At_loop fuel' hashTable key next
  end.

(** [HashTable_At] *)
Definition HashTable_At (fuel : nat) (hashTable : ptr) (key : Z) : M eref :=
  t <- load_table hashTable ;;
  idx <- call_hash (tbl_hash t) key ;;
  list <- At_loop fuel hashTable key (Bucket (tbl_hashListArr t) (bucket_index idx)) ;;
  l <- load_loc list ;;
  nd <- load_list l ;;
  ret (RElement (list_pair nd)).

(** What a client does with the returned reference: [*(T* )r = v] and
    [*(T* )r]. *)
Definition write_ref (r : eref) (v : Z) : M unit :=
  match r with
  | RNull => fault
  | RElement p => store_pair p (set_element v)
  end.
Definition read_ref (r : eref) : M Z :=
  match r with
  | RNull => fault
  | RElement p => pr <- load_pair p ;; ret (pair_element pr)
  end.

(** A sequence of [HashTable_At] calls, the returned references collected. *)
Fixpoint At_seq (fuel : nat) (hashTable : ptr) (keys : list Z) : M (list eref) :=
  match keys with
  | [] => ret []
  | key :: keys' =>
      r <- HashTable_At fuel hashTable key ;;
      rs <- At_seq fuel hashTable keys' ;;
      ret (r :: rs)
  end.

(** ** The abstract view of a table *)

(** One entry of a chain: the addresses of its node and of its pair, and the
    key and element the pair holds. *)
Record entry := mkEntry {
  e_node : ptr;
  e_pair : ptr;
  e_key : Z;
  e_elem : Z
}.

Definition head_of (es : list entry) : ptr :=
  match es with
  | [] => NULL
  | e :: _ => e_node e
  end.

(** [chain m es]: the store holds the linked list [es], each node pointing at
    the next one and the last at [NULL]. *)
Fixpoint chain (m : Mem) (es : list entry) : Prop :=
  match es with
  | [] => True
  | e :: es' =>
      e_node e ≠ NULL ∧
      lists m !! e_node e = Some (mkHashList (head_of es') (e_pair e)) ∧
      pairs m !! e_pair e = Some (mkHashPair (e_key e) (e_elem e)) ∧
      chain m es'
  end.

(** [table_rep m tp t bs]: the table struct [t] at [tp] owns a bucket array
    whose [i]th slot heads the chain [bs !! i]; nodes and pairs are pairwise
    distinct and below the allocation mark. *)
Record table_rep (m : Mem) (tp : ptr) (t : HashTable) (bs : list (list entry)) : Prop :=
  mkTableRep {
    rep_nonnull : tp ≠ NULL;
    rep_table : tables m !! tp = Some t;
    rep_array : arrays m !! tbl_hashListArr t = Some (head_of <$> bs);
    rep_size : length bs = HASHSIZE;
    rep_chains : Forall (chain m) bs;
    rep_nodes : NoDup (e_node <$> concat bs);
    rep_pairs : NoDup (e_pair <$> concat bs);
    rep_below : Forall (λ e, e_node e < brk m ∧ e_pair e < brk m) (concat bs);
    rep_brk : 0 < brk m
  }.

(** A table is ready with strategies [c] and [h]. *)
Definition ready_with (c : Z → Z → Z) (h : Z → Z) (t : HashTable) : Prop :=
  tbl_cmp t = Some c ∧ tbl_hash t = Some h.

(** The chain of bucket [i]. *)
Definition bucket (bs : list (list entry)) (i : nat) : list entry :=
  default [] (bs !! i).

(** The bucket a key selects under hash strategy [h]. *)
Definition bucket_of (h : Z → Z) (key : Z) : nat := bucket_index (to_uint (h key)).

(** Keys [a] and [b] are equal by the equality strategy [c]. *)
Definition eqk (c : Z → Z → Z) (a b : Z) : Prop := to_int (c a b) = 0.

(** The first entry of a chain whose key equals [key]. *)
Fixpoint find_entry (c : Z → Z → Z) (key : Z) (es : list entry) : option entry :=
  match es with
  | [] => None
  | e :: es' =>
      if decide (to_int (c key (e_key e)) = 0) then Some e
      else find_entry c key es'
  end.

(** Where the walk along [es] from [x] stops when nothing matches. *)
Fixpoint last_loc (x : loc) (es : list entry) : loc :=
  match es with
  | [] => x
  | e :: es' => last_loc (NextOf (e_node e)) es'
  end.

Definition entry_count (bs : list (list entry)) : nat := length (concat bs).
Definition table_keys (bs : list (list entry)) : list Z := e_key <$> concat bs.

(** ** What the operations do to the abstract view *)

(** The entry [HashTable_At] creates for [key] in store [m]. *)
Definition new_entry (m : Mem) (key : Z) : entry :=
  mkEntry (brk m) (brk m + 1) key 0.

(** The store after [At_alloc]: a node at [brk m] and a pair at [brk m + 1]
    holding [key] and a zero element, the node linked in at [x]. *)
Definition with_entry (key : Z) (m : Mem) : Mem :=
  mkMem (tables m) (arrays m)
    (<[brk m := mkHashList NULL (brk m + 1)]> (lists m))
    (<[brk m + 1 := mkHashPair key 0]> (pairs m))
    (brk m + 2) (removed m).

Definition link_entry (x : loc) (key : Z) (m : Mem) : option Mem :=
  write_loc x (brk m) (with_entry key m).

(** The reference [HashTable_Has] returns for a chain. *)
Definition found_ref (o : option entry) : eref :=
  match o with
  | Some e => RElement (e_pair e)
  | None => RNull
  end.

(** A [struct HashList**] that does not point into the block [malloc] hands
    out next. *)
Definition loc_below (x : loc) (m : Mem) : Prop :=
  match x with
  | Bucket _ _ => True
  | NextOf l => l < brk m
  end.

(** The buckets after [HashTable_At] on [key], and the entry it returns a
    reference into. *)
Definition at_buckets (c : Z → Z → Z) (h : Z → Z) (key : Z) (m : Mem)
    (bs : list (list entry)) : list (list entry) :=
  match find_entry c key (bucket bs (bucket_of h key)) with
  | Some _ => bs
  | None => <[bucket_of h key := bucket bs (bucket_of h key) ++ [new_entry m key]]> bs
  end.

Definition at_entry (c : Z → Z → Z) (h : Z → Z) (key : Z) (m : Mem)
    (bs : list (list entry)) : entry :=
  match find_entry c key (bucket bs (bucket_of h key)) with
  | Some e => e
  | None => new_entry m key
  end.

(** The [onRemove] call an entry gives rise to. *)
Definition release_call (e : entry) : ptr * HashPair :=
  (e_pair e, mkHashPair (e_key e) (e_elem e)).

(** One iteration of the [while(l)] loop on entry [e]: the callback, when
    there is one, then the two [free]s. *)
Definition release_entry (logged : bool) (m : Mem) (e : entry) : Mem :=
  upd_lists (delete (e_node e))
    (upd_pairs (delete (e_pair e))
       (if logged then log_removed (release_call e) m else m)).

Definition release_all (logged : bool) (es : list entry) (m : Mem) : Mem :=
  foldl (release_entry logged) m es.

Definition has_callback (t : HashTable) : bool :=
  match tbl_onRemove t with
  | Some _ => true
  | None => false
  end.

(** The store [HashTable_Destroy] leaves behind. *)
Definition destroyed (tp : ptr) (t : HashTable) (bs : list (list entry)) (m : Mem) : Mem :=
  upd_tables <[tp := set_hash None t]>
    (upd_arrays (delete (tbl_hashListArr t))
       (release_all (has_callback t) (concat bs) m)).

Global Instance eqk_dec c a b : Decision (eqk c a b).
Proof. unfold eqk. apply _. Defined.

(** The entries after a store of [v] through [&pair->element] for the pair
    at [p]. *)
Definition set_elem (p : ptr) (v : Z) (e : entry) : entry :=
  if decide (e_pair e = p) then mkEntry (e_node e) (e_pair e) (e_key e) v else e.

Definition write_elem (p : ptr) (v : Z) (bs : list (list entry)) : list (list entry) :=
  fmap (M := list) (set_elem p v) <$> bs.

(** The equality strategy is consistent: an equivalence on keys. *)
Record consistent (c : Z → Z → Z) : Prop := mkConsistent {
  eqk_refl : ∀ a, eqk c a a;
  eqk_sym : ∀ a b, eqk c a b → eqk c b a;
  eqk_trans : ∀ a b d, eqk c a b → eqk c b d → eqk c a d
}.

(** The hash strategy is deterministic on keys: keys the equality strategy
    finds equal select the same bucket. *)
Definition hash_respects (c : Z → Z → Z) (h : Z → Z) : Prop :=
  ∀ a b, eqk c a b → bucket_of h a = bucket_of h b.

(** At most one live entry per key: entries with equal keys are the same
    entry. *)
Definition one_per_key (c : Z → Z → Z) (bs : list (list entry)) : Prop :=
  ∀ e1 e2, e1 ∈ concat bs → e2 ∈ concat bs →
           eqk c (e_key e1) (e_key e2) → e1 = e2.

(** Every entry sits in the bucket its key selects. *)
Definition buckets_ok (h : Z → Z) (bs : list (list entry)) : Prop :=
  ∀ i es e, bs !! i = Some es → e ∈ es → bucket_of h (e_key e) = i.

(** Following the spec's words: the keys of [ks] that are distinct, by the
    equality strategy, from the keys [seen] and from the keys before them
    in [ks]; their number is the number of distinct keys of the sequence. *)
Fixpoint distinct (c : Z → Z → Z) (seen ks : list Z) : list Z :=
  match ks with
  | [] => []
  | k :: ks' =>
      if decide (Exists (eqk c k) seen) then distinct c seen ks'
      else k :: distinct c (k :: seen) ks'
  end.

Definition distinct_count (c : Z → Z → Z) (ks : list Z) : nat :=
  length (distinct c [] ks).

(** ** Concrete tables *)

(** Integer keys compared by subtraction and hashed by identity, as in the
    second example of the README; keys 42 and 143 share bucket 42. *)
Definition demo_cmp : Z → Z → Z := λ a b, a - b.
Definition demo_hash : Z → Z := λ k, k.
Definition demo_table : HashTable :=
  mkHashTable 1000 (Some demo_cmp) (Some demo_hash) (Some (λ _, 0)).
Definition demo_bs : list (list entry) :=
  <[42%nat := [mkEntry 1001 1002 42 7; mkEntry 1003 1004 143 8]]>
    (replicate HASHSIZE []).
Definition demo_mem : Mem :=
  mkMem {[ 100 := demo_table ]}
        {[ 1000 := head_of <$> demo_bs ]}
        (<[1001 := mkHashList 1003 1002]> {[ 1003 := mkHashList NULL 1004 ]})
        (<[1002 := mkHashPair 42 7]> {[ 1004 := mkHashPair 143 8 ]})
        1005 [].

(** A strategy that finds every key equal to 5 and to nothing else; it is
    not reflexive at 106.  The table holds key 5, inserted by
    [HashTable_At]; 106 selects the same bucket. *)
Definition cx_cmp : Z → Z → Z := λ a b, if decide (b = 5) then 0 else 1.
Definition cx_table : HashTable :=
  mkHashTable 1000 (Some cx_cmp) (Some demo_hash) None.
Definition cx_bs : list (list entry) :=
  <[5%nat := [mkEntry 1001 1002 5 0]]> (replicate HASHSIZE []).
Definition cx_mem : Mem :=
  mkMem {[ 100 := cx_table ]}
        {[ 1000 := head_of <$> cx_bs ]}
        {[ 1001 := mkHashList NULL 1002 ]}
        {[ 1002 := mkHashPair 5 0 ]}
        1003 [].

(** A freshly initialised table with exact key equality. *)
Definition eq_cmp : Z → Z → Z := λ a b, if decide (a = b) then 0 else 1.
Definition fresh_table : HashTable :=
  mkHashTable 1000 (Some eq_cmp) (Some demo_hash) None.
Definition fresh_bs : list (list entry) := replicate HASHSIZE [].
Definition fresh_mem : Mem :=
  mkMem {[ 100 := fresh_table ]} {[ 1000 := replicate HASHSIZE NULL ]} ∅ ∅ 1001 [].

(** ** Stores and invariants of whole runs *)

(** The store [HashTable_Init] leaves behind: the four fields written, the
    bucket array taken at the allocation mark. *)
Definition initialised (tp : ptr) (cmp : option (Z → Z → Z))
    (hash : option (Z → Z)) (onRemove : option (HashPair → Z)) (m : Mem) : Mem :=
  mkMem (<[tp := mkHashTable (brk m) cmp hash onRemove]> (tables m))
        (<[brk m := replicate HASHSIZE NULL]> (arrays m))
        (lists m) (pairs m) (brk m + 1) (removed m).

(** Nothing is allocated at or above the allocation mark. *)
Definition heap_below (m : Mem) : Prop :=
  ∀ a, brk m ≤ a →
       lists m !! a = None ∧ pairs m !! a = None ∧ arrays m !! a = None.

(** [owns m0 m t bs]: outside the bucket array, the nodes and the pairs of
    the table, the store [m] holds what [m0] held, and what the table owns
    was free in [m0]. *)
Definition owns (m0 m : Mem) (t : HashTable) (bs : list (list entry)) : Prop :=
  (∀ a, a ∉ e_node <$> concat bs → lists m !! a = lists m0 !! a) ∧
  (∀ a, a ∉ e_pair <$> concat bs → pairs m !! a = pairs m0 !! a) ∧
  (∀ a, a ≠ tbl_hashListArr t → arrays m !! a = arrays m0 !! a) ∧
  (∀ e, e ∈ concat bs →
        lists m0 !! e_node e = None ∧ pairs m0 !! e_pair e = None) ∧
  arrays m0 !! tbl_hashListArr t = None ∧
  brk m0 ≤ brk m ∧
  heap_below m0.

(** [grows m m']: the store [m'] still holds every block of [m] (maybe
    rewritten), the same table structs and the same callback log. *)
Definition grows (m m' : Mem) : Prop :=
  tables m' = tables m ∧ removed m' = removed m ∧ brk m ≤ brk m' ∧
  (∀ a, is_Some (lists m !! a) → is_Some (lists m' !! a)) ∧
  (∀ a, is_Some (pairs m !! a) → is_Some (pairs m' !! a)) ∧
  (∀ a, is_Some (arrays m !! a) → is_Some (arrays m' !! a)).

(** The table of [demo_mem] under exact key equality. *)
Definition eq_demo_table : HashTable :=
  mkHashTable 1000 (Some eq_cmp) (Some demo_hash) (Some (λ _, 0)).
Definition eq_demo_mem : Mem := upd_tables <[100 := eq_demo_table]> demo_mem.

(** ** Proof tactics *)

(** Projections of freshly built structs. *)
Ltac fields :=
  cbn beta iota delta [pair_key pair_element list_next list_pair
    tbl_hashListArr tbl_cmp tbl_hash tbl_onRemove
    tables arrays lists pairs brk removed
    e_node e_pair e_key e_elem].

Ltac stores :=
  unfold upd_tables, upd_arrays, upd_lists, upd_pairs, bump, log_removed,
    with_entry, new_entry; fields.

(** ** Running computations *)

Lemma bind_Done {A B} (c : M A) (k : A → M B) m a m' :
  c m = Done a m' → bind c k m = k a m'.
Proof. unfold bind. by intros ->. Qed.

Lemma bind_reading {A B} (f : Mem → option A) (k : A → M B) m a :
  f m = Some a → bind (reading f) k m = k a m.
Proof. unfold bind, reading. by intros ->. Qed.

Lemma bind_writing {B} (f : Mem → option Mem) (k : unit → M B) m m' :
  f m = Some m' → bind (writing f) k m = k tt m'.
Proof. unfold bind, writing. by intros ->. Qed.

Lemma bind_ret_l {A B} (a : A) (k : A → M B) m : bind (ret a) k m = k a m.
Proof. reflexivity. Qed.

Lemma bind_load_table {B} tp t (k : HashTable → M B) m :
  tables m !! tp = Some t → bind (load_table tp) k m = k t m.
Proof. intros H. unfold load_table. by apply bind_reading. Qed.

Lemma bind_load_list {B} l nd (k : HashList → M B) m :
  lists m !! l = Some nd → bind (load_list l) k m = k nd m.
Proof. intros H. unfold load_list. by apply bind_reading. Qed.

Lemma bind_load_pair {B} p pr (k : HashPair → M B) m :
  pairs m !! p = Some pr → bind (load_pair p) k m = k pr m.
Proof. intros H. unfold load_pair. by apply bind_reading. Qed.

Lemma bind_load_loc {B} x v (k : ptr → M B) m :
  read_loc x m = Some v → bind (load_loc x) k m = k v m.
Proof. intros H. unfold load_loc. by apply bind_reading. Qed.

Lemma bind_call_cmp {B} c a b (k : Z → M B) m :
  bind (call_cmp (Some c) a b) k m = k (to_int (c a b)) m.
Proof. reflexivity. Qed.

Lemma bind_call_hash {B} h a (k : Z → M B) m :
  bind (call_hash (Some h) a) k m = k (to_uint (h a)) m.
Proof. reflexivity. Qed.

(** ** Chains *)

Lemma chain_frame m m' es :
  chain m es →
  (∀ e, e ∈ es → lists m' !! e_node e = lists m !! e_node e ∧
                 pairs m' !! e_pair e = pairs m !! e_pair e) →
  chain m' es.
Proof.
  induction es as [|e es IH]; simpl; [done|].
  intros (Hn & Hl & Hp & Hc) Hfr.
  destruct (Hfr e) as [-> ->]; [left|].
  repeat split; try done.
  apply IH; [done|]. intros e' He'. apply Hfr. by right.
Qed.

Lemma chain_elem m es e :
  chain m es → e ∈ es →
  e_node e ≠ NULL ∧
  (∃ nx, lists m !! e_node e = Some (mkHashList nx (e_pair e))) ∧
  pairs m !! e_pair e = Some (mkHashPair (e_key e) (e_elem e)).
Proof.
  induction es as [|e0 es IH]; simpl; [by intros _ ?%elem_of_nil|].
  intros (Hn & Hl & Hp & Hc) [->|He]%elem_of_cons; [|by apply IH].
  split; [done|]. split; [by eexists|done].
Qed.

Lemma find_entry_Some c key es e :
  find_entry c key es = Some e → e ∈ es ∧ eqk c key (e_key e).
Proof.
  induction es as [|e0 es IH]; simpl; [done|].
  case_decide as Hd.
  - intros [= <-]. split; [left|done].
  - intros [He Hk]%IH. split; [by right|done].
Qed.

Lemma find_entry_None c key es :
  find_entry c key es = None ↔ ∀ e, e ∈ es → ¬ eqk c key (e_key e).
Proof.
  induction es as [|e0 es IH]; simpl.
  - split; [by intros _ ? ?%elem_of_nil|done].
  - case_decide as Hd.
    + split; [done|]. intros H. destruct (H e0); [left|done].
    + rewrite IH. split.
      * intros H e [->|He]%elem_of_cons; [done|by apply H].
      * intros H e He. apply H. by right.
Qed.

(** ** [HashTable_Has] *)

Section walk.
Variables (tp : ptr) (t : HashTable) (c : Z → Z → Z) (key : Z).
Hypothesis Hcmp : tbl_cmp t = Some c.

(** The lookup loop stops at the first matching entry, or at the end of
    the chain, and leaves the store alone. *)
Lemma Has_loop_spec es : ∀ x m (fuel : nat),
  tables m !! tp = Some t →
  chain m es →
  read_loc x m = Some (head_of es) →
  (length es < fuel)%nat →
  ∃ y, Has_loop fuel tp key x m = Done y m ∧
       read_loc y m = Some (from_option e_node NULL (find_entry c key es)).
Proof.
  induction es as [|e es IH]; intros x m fuel Ht Hch Hx Hf;
    (destruct fuel as [|fuel]; [simpl in Hf; lia|]); simpl Has_loop.
  - rewrite (bind_load_loc _ _ _ _ Hx). cbv beta.
    rewrite decide_True by done. by exists x.
  - simpl in Hch, Hx. destruct Hch as (Hn & Hl & Hp & Hc).
    rewrite (bind_load_loc _ _ _ _ Hx). cbv beta.
    rewrite decide_False by done.
    rewrite (bind_load_table _ _ _ _ Ht). cbv beta.
    rewrite (bind_load_list _ _ _ _ Hl). fields.
    rewrite (bind_load_pair _ _ _ _ Hp). fields.
    rewrite Hcmp, bind_call_cmp.
    simpl find_entry. case_decide as Hd.
    + by exists x.
    + apply IH; [done|done| |simpl in Hf; lia].
      simpl. by rewrite Hl.
Qed.
End walk.

Lemma bucket_index_lt idx : (bucket_index idx < HASHSIZE)%nat.
Proof.
  unfold bucket_index.
  pose proof (Z.mod_pos_bound idx (Z.of_nat HASHSIZE)) as H.
  unfold HASHSIZE in *. lia.
Qed.

Lemma bucket_lookup bs i :
  (i < length bs)%nat → bs !! i = Some (bucket bs i).
Proof.
  intros [es Hes]%lookup_lt_is_Some_2. unfold bucket. by rewrite Hes.
Qed.

Lemma rep_bucket m tp t bs i :
  table_rep m tp t bs → (i < HASHSIZE)%nat →
  bs !! i = Some (bucket bs i) ∧
  chain m (bucket bs i) ∧
  read_loc (Bucket (tbl_hashListArr t) i) m = Some (head_of (bucket bs i)).
Proof.
  intros Hrep Hi.
  assert (bs !! i = Some (bucket bs i)) as Hb.
  { apply bucket_lookup. by rewrite (rep_size _ _ _ _ Hrep). }
  split; [done|]. split.
  - eapply Forall_lookup_1; [apply (rep_chains _ _ _ _ Hrep)|done].
  - simpl. rewrite (rep_array _ _ _ _ Hrep).
    by rewrite list_lookup_fmap, Hb.
Qed.

Lemma Has_spec m tp t bs c h key (fuel : nat) :
  table_rep m tp t bs → ready_with c h t →
  (length (bucket bs (bucket_of h key)) < fuel)%nat →
  HashTable_Has fuel tp key m =
    Done (found_ref (find_entry c key (bucket bs (bucket_of h key)))) m.
Proof.
  intros Hrep [Hc Hh] Hf. unfold HashTable_Has.
  rewrite (bind_load_table _ _ _ _ (rep_table _ _ _ _ Hrep)). cbv beta.
  rewrite Hh, bind_call_hash. fold (bucket_of h key).
  destruct (rep_bucket m tp t bs (bucket_of h key) Hrep (bucket_index_lt _))
    as (Hb & Hch & Hx).
  destruct (Has_loop_spec tp t c key Hc _ _ m fuel
              (rep_table _ _ _ _ Hrep) Hch Hx Hf) as (y & Hy & Hry).
  rewrite (bind_Done _ _ _ _ _ Hy). cbv beta.
  rewrite (bind_load_loc _ _ _ _ Hry). cbv beta.
  destruct (find_entry c key (bucket bs (bucket_of h key))) as [e|] eqn:Hfind;
    simpl from_option.
  - apply find_entry_Some in Hfind as [He _].
    destruct (chain_elem _ _ _ Hch He) as (Hn & [nx Hl] & Hp).
    rewrite decide_False by done.
    by rewrite (bind_load_list _ _ _ _ Hl).
  - by rewrite decide_True.
Qed.

(** ** [HashTable_At] *)

(** One iteration of the loop of [HashTable_At] on a node that is there:
    nothing is allocated, the node and its pair are read and the key
    compared. *)
Ltac At_step Hx Ht Hl Hp Hcmp :=
  rewrite (bind_load_loc _ _ _ _ Hx); cbv beta;
  rewrite decide_False by done; rewrite bind_ret_l;
  rewrite (bind_load_loc _ _ _ _ Hx); cbv beta;
  rewrite (bind_load_table _ _ _ _ Ht); cbv beta;
  rewrite (bind_load_list _ _ _ _ Hl); fields;
  rewrite (bind_load_pair _ _ _ _ Hp); fields;
  rewrite Hcmp, bind_call_cmp.

Lemma At_alloc_spec x key m :
  At_alloc x key m =
    match link_entry x key m with
    | Some m' => Done tt m'
    | None => Fault
    end.
Proof.
  unfold At_alloc, link_entry.
  rewrite (bind_Done malloc_HashList _ m _ _ eq_refl). cbv beta.
  erewrite (bind_Done malloc_HashPair) by reflexivity. cbv beta.
  unfold store_pair, store_list, store_loc.
  erewrite bind_writing; cycle 1.
  { unfold write_pair. fields. cbn. by rewrite lookup_insert_eq. }
  cbv beta.
  erewrite bind_writing; cycle 1.
  { unfold write_pair. cbn. by rewrite lookup_insert_eq. }
  cbv beta.
  erewrite bind_writing; cycle 1.
  { unfold write_list. cbn. by rewrite lookup_insert_eq. }
  cbv beta.
  erewrite bind_writing; cycle 1.
  { unfold write_list. cbn. by rewrite lookup_insert_eq. }
  cbv beta. unfold writing.
  match goal with |- match write_loc x _ ?a with _ => _ end = match write_loc x _ ?b with _ => _ end =>
    replace a with b; [done|] end.
  unfold with_entry, upd_pairs, upd_lists, bump. cbn.
  rewrite !insert_insert_eq. f_equal. lia.
Qed.

Lemma link_entry_spec x key m :
  read_loc x m = Some NULL → loc_below x m →
  ∃ m', link_entry x key m = Some m' ∧
        read_loc x m' = Some (brk m) ∧
        tables m' = tables m ∧
        lists m' !! brk m = Some (mkHashList NULL (brk m + 1)) ∧
        pairs m' = <[brk m + 1 := mkHashPair key 0]> (pairs m) ∧
        brk m' = brk m + 2 ∧
        removed m' = removed m.
Proof.
  intros Hx Hb. unfold link_entry.
  destruct x as [arr i|l]; simpl in *.
  - destruct (arrays m !! arr) as [a|] eqn:Ha; [|done].
    rewrite decide_True by (by eapply lookup_lt_Some).
    eexists; split; [done|]. cbn.
    rewrite !lookup_insert_eq.
    rewrite list_lookup_insert_eq by (by eapply lookup_lt_Some). done.
  - destruct (lists m !! l) as [nd|] eqn:Hl; [|done].
    simpl in Hx. injection Hx as Hnx.
    rewrite lookup_insert_ne by lia. rewrite Hl.
    eexists; split; [done|]. cbn.
    rewrite lookup_insert_eq. rewrite lookup_insert_ne by lia.
    by rewrite lookup_insert_eq.
Qed.

Section insert_walk.
Variables (tp : ptr) (t : HashTable) (c : Z → Z → Z) (key : Z).
Hypothesis Hcmp : tbl_cmp t = Some c.

(** A matching entry stops the loop of [HashTable_At] before anything is
    allocated. *)
Lemma At_loop_found es e : ∀ x m (fuel : nat),
  tables m !! tp = Some t →
  chain m es →
  read_loc x m = Some (head_of es) →
  find_entry c key es = Some e →
  (length es ≤ fuel)%nat →
  ∃ y, At_loop fuel tp key x m = Done y m ∧ read_loc y m = Some (e_node e).
Proof.
  induction es as [|e0 es IH]; intros x m fuel Ht Hch Hx Hfind Hf; [done|].
  destruct fuel as [|fuel]; [simpl in Hf; lia|]. simpl At_loop.
  simpl in Hch, Hx, Hfind. destruct Hch as (Hn & Hl & Hp & Hc).
  At_step Hx Ht Hl Hp Hcmp.
  case_decide as Hd.
  - injection Hfind as <-. by exists x.
  - apply IH; [done|done| |done|simpl in Hf; lia].
    simpl. by rewrite Hl.
Qed.

(** With no matching entry the loop reaches the end of the chain, links a
    new entry there and, the strategy finding the key equal to itself,
    stops on it. *)
Lemma At_loop_miss es : ∀ x m (fuel : nat),
  tables m !! tp = Some t →
  chain m es →
  read_loc x m = Some (head_of es) →
  loc_below x m →
  Forall (λ e, e_node e < brk m) es →
  find_entry c key es = None →
  eqk c key key →
  (length es < fuel)%nat →
  ∃ m', link_entry (last_loc x es) key m = Some m' ∧
        At_loop fuel tp key x m = Done (last_loc x es) m' ∧
        read_loc (last_loc x es) m' = Some (brk m) ∧
        lists m' !! brk m = Some (mkHashList NULL (brk m + 1)).
Proof.
  induction es as [|e0 es IH]; intros x m fuel Ht Hch Hx Hb Hlt Hfind Hrefl Hf;
    (destruct fuel as [|fuel]; [simpl in Hf; lia|]); simpl At_loop.
  - simpl in Hx.
    destruct (link_entry_spec x key m Hx Hb)
      as (m' & Hlink & Hx' & Ht' & Hl' & Hp' & _).
    exists m'. split; [done|]. split; [|done].
    rewrite (bind_load_loc _ _ _ _ Hx). cbv beta.
    rewrite decide_True by done.
    erewrite bind_Done by (rewrite At_alloc_spec, Hlink; reflexivity).
    rewrite (bind_load_loc _ _ _ _ Hx'). cbv beta.
    rewrite bind_load_table with (t := t) by (by rewrite Ht').
    rewrite (bind_load_list _ _ _ _ Hl'). fields.
    rewrite bind_load_pair with (pr := mkHashPair key 0)
      by (by rewrite Hp', lookup_insert_eq).
    fields. rewrite Hcmp, bind_call_cmp. by rewrite decide_True.
  - simpl in Hch, Hx, Hfind. destruct Hch as (Hn & Hl & Hp & Hc).
    apply Forall_cons in Hlt as [Hlt0 Hlt].
    At_step Hx Ht Hl Hp Hcmp.
    case_decide as Hd; [done|].
    simpl last_loc.
    apply IH; [done|done| |done|done|done|done|simpl in Hf; lia].
    simpl. by rewrite Hl.
Qed.
End insert_walk.

(** ** Buckets as a list of chains *)

Lemma elem_of_concat_lookup {A} (bs : list (list A)) i es x :
  bs !! i = Some es → x ∈ es → x ∈ concat bs.
Proof.
  revert i. induction bs as [|b bs IH]; intros [|i]; simpl; try done.
  - intros [= ->] Hx. apply elem_of_app. by left.
  - intros Hi Hx. apply elem_of_app. right. by eapply IH.
Qed.

Lemma elem_of_concat {A} (bs : list (list A)) x :
  x ∈ concat bs → ∃ i es, bs !! i = Some es ∧ x ∈ es.
Proof.
  induction bs as [|b bs IH]; simpl; [by intros ?%elem_of_nil|].
  intros [Hx|Hx]%elem_of_app.
  - by exists 0%nat, b.
  - destruct (IH Hx) as (i & es & Hi & He). by exists (S i), es.
Qed.

Lemma NoDup_concat_bucket {A B} (f : A → B) (bs : list (list A)) i es :
  NoDup (f <$> concat bs) → bs !! i = Some es → NoDup (f <$> es).
Proof.
  revert i. induction bs as [|b bs IH]; intros [|i]; simpl; try done;
    rewrite fmap_app, NoDup_app; intros (Hb & _ & Hbs).
  - by intros [= ->].
  - by apply IH.
Qed.

Lemma NoDup_concat_across {A B} (f : A → B) (bs : list (list A)) i j es es' x y :
  NoDup (f <$> concat bs) → bs !! i = Some es → bs !! j = Some es' → i ≠ j →
  x ∈ es → y ∈ es' → f x ≠ f y.
Proof.
  revert i j. induction bs as [|b bs IH]; intros [|i] [|j]; simpl; try done;
    rewrite fmap_app, NoDup_app; intros (Hb & Hd & Hbs).
  - intros [= ->] Hj _ Hx Hy Heq. apply (Hd (f x)).
    + by apply list_elem_of_fmap_2.
    + rewrite Heq. apply list_elem_of_fmap_2. by eapply elem_of_concat_lookup.
  - intros Hi [= ->] _ Hx Hy Heq. apply (Hd (f y)).
    + by apply list_elem_of_fmap_2.
    + rewrite <- Heq. apply list_elem_of_fmap_2. by eapply elem_of_concat_lookup.
  - intros Hi Hj Hne. apply (IH i j); [done|done|done|lia].
Qed.

Lemma NoDup_fmap_inj_on {A B} (f : A → B) (l : list A) x y :
  NoDup (f <$> l) → x ∈ l → y ∈ l → f x = f y → x = y.
Proof.
  induction l as [|a l IH]; [by intros _ ?%elem_of_nil|].
  rewrite fmap_cons. intros [Hna Hnd]%NoDup_cons.
  intros [->|Hx]%elem_of_cons [->|Hy]%elem_of_cons Heq.
  - done.
  - destruct Hna. rewrite Heq. by apply list_elem_of_fmap_2.
  - destruct Hna. rewrite <- Heq. by apply list_elem_of_fmap_2.
  - by apply IH.
Qed.

Lemma concat_insert_snoc {A} (bs : list (list A)) i es x :
  bs !! i = Some es → concat (<[i := es ++ [x]]> bs) ≡ₚ x :: concat bs.
Proof.
  revert i. induction bs as [|b bs IH]; intros [|i]; simpl; try done.
  - intros [= ->]. rewrite <- app_assoc. simpl.
    by rewrite <- Permutation_middle.
  - intros Hi. rewrite (IH _ Hi). by rewrite <- Permutation_middle.
Qed.

Lemma head_of_snoc es x : es ≠ [] → head_of (es ++ [x]) = head_of es.
Proof. by destruct es. Qed.

Lemma last_loc_snoc x es e : last_loc x (es ++ [e]) = NextOf (e_node e).
Proof. revert x. induction es as [|e0 es IH]; intros x; simpl; [done|apply IH]. Qed.

(** Appending an entry to a chain: only the [next] field of the former last
    node changes. *)
Lemma chain_snoc m m' es new :
  chain m es → NoDup (e_node <$> es) →
  (∀ e, e ∈ es → pairs m' !! e_pair e = pairs m !! e_pair e) →
  (∀ e, e ∈ es → last es ≠ Some e → lists m' !! e_node e = lists m !! e_node e) →
  (∀ e, last es = Some e →
        lists m' !! e_node e = Some (mkHashList (e_node new) (e_pair e))) →
  chain m' [new] →
  chain m' (es ++ [new]).
Proof.
  intros Hch Hnd Hp Hl Hlast Hnew.
  induction es as [|e es IH]; [done|].
  simpl in Hch. destruct Hch as (Hn & Hle & Hpe & Hc).
  rewrite fmap_cons in Hnd. apply NoDup_cons in Hnd as [Hnotin Hnd].
  simpl app. simpl chain. split; [done|].
  destruct es as [|e1 es].
  - simpl. rewrite (Hlast e) by done. rewrite (Hp e) by left. done.
  - split; [|split].
    + rewrite Hl; [done|left|].
      intros Hlst. rewrite last_cons_cons in Hlst.
      apply Hnotin. apply list_elem_of_fmap_2' with (x := e); [|done].
      by apply last_Some_elem_of.
    + rewrite (Hp e) by left. done.
    + apply IH; try done.
      * intros e' He'. apply Hp. by right.
      * intros e' He' Hne. apply Hl; [by right|]. by rewrite last_cons_cons.
Qed.

Lemma rep_extend m m' tp t bs i es new :
  table_rep m tp t bs → bs !! i = Some es →
  e_node new = brk m → e_pair new = brk m + 1 →
  tables m' = tables m →
  arrays m' !! tbl_hashListArr t = Some (head_of <$> <[i := es ++ [new]]> bs) →
  brk m' = brk m + 2 →
  (∀ e, e ∈ concat bs → pairs m' !! e_pair e = pairs m !! e_pair e) →
  (∀ e, e ∈ concat bs → last es ≠ Some e →
        lists m' !! e_node e = lists m !! e_node e) →
  (∀ e, last es = Some e →
        lists m' !! e_node e = Some (mkHashList (e_node new) (e_pair e))) →
  chain m' [new] →
  table_rep m' tp t (<[i := es ++ [new]]> bs).
Proof.
  intros Hrep Hi Hnode Hpair Ht Ha Hbrk Hp Hl Hlast Hnew.
  destruct Hrep as [Hnn Htab Harr Hsz Hch Hnd Hpd Hbel Hpos].
  assert (i < length bs)%nat as Hlt by (by eapply lookup_lt_Some).
  split.
  - done.
  - by rewrite Ht.
  - done.
  - by rewrite length_insert.
  - apply Forall_lookup. intros j es' Hj.
    destruct (decide (i = j)) as [<-|Hne].
    + rewrite list_lookup_insert_eq in Hj by done. injection Hj as <-.
      apply chain_snoc with (m := m); try done.
      * by eapply Forall_lookup_1.
      * by eapply NoDup_concat_bucket.
      * intros e He. apply Hp. by eapply elem_of_concat_lookup.
      * intros e He. apply Hl. by eapply elem_of_concat_lookup.
    + rewrite list_lookup_insert_ne in Hj by done.
      apply chain_frame with (m := m); [by eapply Forall_lookup_1|].
      intros e He.
      assert (e ∈ concat bs) as Hin by (by eapply elem_of_concat_lookup).
      split; [|by apply Hp].
      apply Hl; [done|]. intros Hlst%last_Some_elem_of.
      by apply (NoDup_concat_across e_node bs i j es es' e e Hnd).
  - rewrite concat_insert_snoc by done. rewrite fmap_cons.
    apply NoDup_cons. split; [|done].
    intros (e & Heq & He)%list_elem_of_fmap.
    rewrite Forall_forall in Hbel. destruct (Hbel e He). lia.
  - rewrite concat_insert_snoc by done. rewrite fmap_cons.
    apply NoDup_cons. split; [|done].
    intros (e & Heq & He)%list_elem_of_fmap.
    rewrite Forall_forall in Hbel. destruct (Hbel e He). lia.
  - rewrite concat_insert_snoc by done.
    apply Forall_cons. split; [lia|].
    eapply Forall_impl; [done|]. simpl. intros e. lia.
  - lia.
Qed.

Lemma chain_last m es e :
  chain m (es ++ [e]) →
  lists m !! e_node e = Some (mkHashList NULL (e_pair e)).
Proof.
  induction es as [|e0 es IH]; simpl.
  - by intros (_ & Hl & _).
  - intros (_ & _ & _ & Hc). by apply IH.
Qed.

Lemma rep_link m tp t bs i es key m' :
  table_rep m tp t bs → bs !! i = Some es →
  link_entry (last_loc (Bucket (tbl_hashListArr t) i) es) key m = Some m' →
  table_rep m' tp t (<[i := es ++ [new_entry m key]]> bs) ∧
  removed m' = removed m ∧ tables m' = tables m.
Proof.
  intros Hrep Hi Hlink.
  pose proof Hrep as [Hnn Htab Harr Hsz Hch Hnd Hpd Hbel Hpos].
  assert (i < length bs)%nat as Hlt by (by eapply lookup_lt_Some).
  assert (∀ e, e ∈ concat bs → e_node e < brk m ∧ e_pair e < brk m) as Hbel'
    by (by apply Forall_forall).
  assert (chain m es) as Hces by (by eapply Forall_lookup_1).
  unfold link_entry in Hlink.
  destruct es as [|l es0 _] using rev_ind.
  - simpl in Hlink. rewrite Harr in Hlink.
    rewrite decide_True in Hlink by (by rewrite length_fmap).
    injection Hlink as <-. split; [|done].
    apply rep_extend with (m := m); try done; stores.
    + rewrite lookup_insert_eq. by rewrite list_fmap_insert.
    + intros e He. destruct (Hbel' e He). by rewrite lookup_insert_ne by lia.
    + intros e He _. destruct (Hbel' e He). by rewrite lookup_insert_ne by lia.
    + simpl. split; [unfold NULL; lia|].
      split; [apply lookup_insert_eq|]. split; [apply lookup_insert_eq|done].
  - rewrite last_loc_snoc in Hlink. simpl in Hlink.
    assert (l ∈ concat bs) as Hlin.
    { eapply elem_of_concat_lookup; [done|]. apply elem_of_app. right. left. }
    destruct (Hbel' l Hlin) as [Hln Hlp].
    rewrite lookup_insert_ne in Hlink by lia.
    rewrite (chain_last _ _ _ Hces) in Hlink.
    injection Hlink as <-. split; [|done].
    apply rep_extend with (m := m); try done; stores.
    + rewrite Harr. f_equal. rewrite list_fmap_insert.
      symmetry. apply list_insert_id.
      rewrite list_lookup_fmap, Hi. simpl. f_equal.
      symmetry. apply head_of_snoc. by destruct es0.
    + intros e He. destruct (Hbel' e He). by rewrite lookup_insert_ne by lia.
    + intros e He Hne. destruct (Hbel' e He).
      rewrite last_snoc in Hne.
      rewrite lookup_insert_ne.
      * by rewrite lookup_insert_ne by lia.
      * intros Heq. apply Hne. f_equal. symmetry.
        by apply (NoDup_fmap_inj_on e_node (concat bs)).
    + intros e. rewrite last_snoc. intros [= <-].
      by rewrite lookup_insert_eq.
    + simpl. split; [unfold NULL; lia|].
      split; [|split; [apply lookup_insert_eq|done]].
      rewrite lookup_insert_ne by lia. apply lookup_insert_eq.
Qed.

Lemma At_spec m tp t bs c h key (fuel : nat) :
  table_rep m tp t bs → ready_with c h t →
  (find_entry c key (bucket bs (bucket_of h key)) = None → eqk c key key) →
  (length (bucket bs (bucket_of h key)) < fuel)%nat →
  ∃ m', HashTable_At fuel tp key m = Done (RElement (e_pair (at_entry c h key m bs))) m' ∧
        table_rep m' tp t (at_buckets c h key m bs) ∧
        removed m' = removed m ∧
        tables m' = tables m ∧
        (is_Some (find_entry c key (bucket bs (bucket_of h key))) → m' = m).
Proof.
  intros Hrep [Hc Hh] Hrefl Hf. unfold HashTable_At, at_entry, at_buckets.
  pose proof (rep_table _ _ _ _ Hrep) as Ht.
  rewrite (bind_load_table _ _ _ _ Ht). cbv beta.
  rewrite Hh, bind_call_hash. fold (bucket_of h key).
  destruct (rep_bucket m tp t bs (bucket_of h key) Hrep (bucket_index_lt _))
    as (Hb & Hch & Hx).
  destruct (find_entry c key (bucket bs (bucket_of h key))) as [e|] eqn:Hfind.
  - destruct (At_loop_found tp t c key Hc _ e _ m fuel Ht Hch Hx Hfind)
      as (y & Hy & Hry); [lia|].
    exists m. rewrite (bind_Done _ _ _ _ _ Hy). cbv beta.
    rewrite (bind_load_loc _ _ _ _ Hry). cbv beta.
    apply find_entry_Some in Hfind as [He _].
    destruct (chain_elem _ _ _ Hch He) as (Hn & [nx Hl] & Hp).
    rewrite (bind_load_list _ _ _ _ Hl). done.
  - destruct (At_loop_miss tp t c key Hc (bucket bs (bucket_of h key))
                (Bucket (tbl_hashListArr t) (bucket_of h key)) m fuel)
      as (m' & Hlink & Hrun & Hry & Hl); try done.
    { eapply Forall_impl.
      - apply Forall_forall. intros e He.
        apply (proj1 (Forall_forall _ _) (rep_below _ _ _ _ Hrep) e).
        by eapply elem_of_concat_lookup.
      - simpl. intros e. lia. }
    { by apply Hrefl. }
    destruct (rep_link _ _ _ _ _ _ _ _ Hrep Hb Hlink) as (Hrep' & Hrm & Htab).
    exists m'. rewrite (bind_Done _ _ _ _ _ Hrun). cbv beta.
    rewrite (bind_load_loc _ _ _ _ Hry). cbv beta.
    rewrite (bind_load_list _ _ _ _ Hl).
    split; [done|]. split; [done|]. split; [done|]. split; [done|].
    by intros ?%is_Some_None.
Qed.

(** ** [HashTable_Destroy] *)

Lemma release_all_cons b e es m :
  release_all b (e :: es) m = release_all b es (release_entry b m e).
Proof. reflexivity. Qed.

Lemma release_all_app b es1 es2 m :
  release_all b (es1 ++ es2) m = release_all b es2 (release_all b es1 m).
Proof. apply foldl_app. Qed.

Lemma release_all_tables b es m : tables (release_all b es m) = tables m.
Proof.
  revert m. induction es as [|e es IH]; intros m; [done|].
  rewrite release_all_cons, IH. by destruct b.
Qed.

Lemma release_all_arrays b es m : arrays (release_all b es m) = arrays m.
Proof.
  revert m. induction es as [|e es IH]; intros m; [done|].
  rewrite release_all_cons, IH. by destruct b.
Qed.

Lemma release_all_removed b es m :
  removed (release_all b es m) =
    removed m ++ (if b then release_call <$> es else []).
Proof.
  revert m. induction es as [|e es IH]; intros m.
  - destruct b; simpl; by rewrite app_nil_r.
  - rewrite release_all_cons, IH. destruct b; unfold release_entry; stores; [|done].
    rewrite fmap_cons. by rewrite <- app_assoc.
Qed.

Lemma release_all_lists b es m a :
  lists (release_all b es m) !! a =
    if decide (a ∈ e_node <$> es) then None else lists m !! a.
Proof.
  revert m. induction es as [|e es IH]; intros m.
  - rewrite decide_False; [done|]. apply not_elem_of_nil.
  - rewrite release_all_cons, IH. rewrite fmap_cons.
    assert (lists (release_entry b m e) = delete (e_node e) (lists m)) as ->
      by (by destruct b).
    destruct (decide (a = e_node e)) as [->|Hne].
    + rewrite (decide_True (P := _ ∈ _ :: _)) by left.
      rewrite lookup_delete_eq. by case_decide.
    + rewrite lookup_delete_ne by done.
      case_decide as H1; case_decide as H2; try done.
      * destruct H2. by right.
      * by apply elem_of_cons in H2 as [?|?].
Qed.

Lemma release_all_pairs b es m a :
  pairs (release_all b es m) !! a =
    if decide (a ∈ e_pair <$> es) then None else pairs m !! a.
Proof.
  revert m. induction es as [|e es IH]; intros m.
  - rewrite decide_False; [done|]. apply not_elem_of_nil.
  - rewrite release_all_cons, IH. rewrite fmap_cons.
    assert (pairs (release_entry b m e) = delete (e_pair e) (pairs m)) as ->
      by (by destruct b).
    destruct (decide (a = e_pair e)) as [->|Hne].
    + rewrite (decide_True (P := _ ∈ _ :: _)) by left.
      rewrite lookup_delete_eq. by case_decide.
    + rewrite lookup_delete_ne by done.
      case_decide as H1; case_decide as H2; try done.
      * destruct H2. by right.
      * by apply elem_of_cons in H2 as [?|?].
Qed.

Section teardown.
Variables (tp : ptr) (t : HashTable).

Lemma Destroy_chain_spec es : ∀ m (fuel : nat),
  tables m !! tp = Some t →
  chain m es →
  NoDup (e_node <$> es) → NoDup (e_pair <$> es) →
  (length es < fuel)%nat →
  Destroy_chain fuel tp (head_of es) m =
    Done tt (release_all (has_callback t) es m).
Proof.
  induction es as [|e es IH]; intros m fuel Ht Hch Hnd Hpd Hf;
    (destruct fuel as [|fuel]; [simpl in Hf; lia|]); simpl Destroy_chain.
  - done.
  - simpl in Hch. destruct Hch as (Hn & Hl & Hp & Hc).
    rewrite fmap_cons in Hnd, Hpd.
    apply NoDup_cons in Hnd as [Hn1 Hnd]. apply NoDup_cons in Hpd as [Hp1 Hpd].
    simpl head_of. rewrite decide_False by done.
    rewrite (bind_load_list _ _ _ _ Hl). fields.
    rewrite (bind_load_table _ _ _ _ Ht). cbv beta.
    set (m0 := if has_callback t then log_removed (release_call e) m else m).
    assert (match tbl_onRemove t with
            | Some r => call_onRemove r (e_pair e)
            | None => ret tt
            end m = Done tt m0) as Hcb.
    { unfold m0, has_callback. destruct (tbl_onRemove t); [|done].
      unfold call_onRemove. by rewrite (bind_load_pair _ _ _ _ Hp). }
    rewrite (bind_Done _ _ _ _ _ Hcb). cbv beta.
    assert (lists m0 = lists m) as Hl0 by (unfold m0; by destruct (has_callback t)).
    assert (pairs m0 = pairs m) as Hp0 by (unfold m0; by destruct (has_callback t)).
    rewrite bind_load_list with (nd := mkHashList (head_of es) (e_pair e))
      by (by rewrite Hl0).
    fields. unfold free_pair, free_list.
    rewrite bind_writing with (m' := upd_pairs (delete (e_pair e)) m0)
      by (by rewrite Hp0, Hp).
    cbv beta.
    rewrite bind_writing with (m' := release_entry (has_callback t) m e)
      by (change (lists (upd_pairs (delete (e_pair e)) m0)) with (lists m0);
          by rewrite Hl0, Hl).
    cbv beta. rewrite release_all_cons.
    assert (tables (release_entry (has_callback t) m e) = tables m) as Ht1
      by (by destruct (has_callback t)).
    apply IH; [by rewrite Ht1| |done|done|simpl in Hf; lia].
    apply chain_frame with (m := m); [done|].
    intros e' He'.
    assert (lists (release_entry (has_callback t) m e) = delete (e_node e) (lists m))
      as -> by (by destruct (has_callback t)).
    assert (pairs (release_entry (has_callback t) m e) = delete (e_pair e) (pairs m))
      as -> by (by destruct (has_callback t)).
    split.
    * apply lookup_delete_ne. intros Heq. apply Hn1. rewrite Heq.
      by apply list_elem_of_fmap_2.
    * apply lookup_delete_ne. intros Heq. apply Hp1. rewrite Heq.
      by apply list_elem_of_fmap_2.
Qed.

(** The [for] loop over the buckets [rest], starting at index [i]. *)
Lemma Destroy_buckets_spec (fuel : nat) heads rest : ∀ i m,
  tables m !! tp = Some t →
  arrays m !! tbl_hashListArr t = Some heads →
  (∀ j es, rest !! j = Some es → heads !! (i + j)%nat = Some (head_of es)) →
  Forall (chain m) rest →
  NoDup (e_node <$> concat rest) → NoDup (e_pair <$> concat rest) →
  Forall (λ es, (length es < fuel)%nat) rest →
  Destroy_buckets fuel tp i (length rest) m =
    Done tt (release_all (has_callback t) (concat rest) m).
Proof.
  induction rest as [|es rest IH]; intros i m Ht Ha Hh Hch Hnd Hpd Hf; [done|].
  simpl length. simpl Destroy_buckets.
  apply Forall_cons in Hch as [Hces Hch]. apply Forall_cons in Hf as [Hfes Hf].
  simpl concat in *. rewrite fmap_app in Hnd, Hpd.
  apply NoDup_app in Hnd as (Hnd1 & Hndx & Hnd2).
  apply NoDup_app in Hpd as (Hpd1 & Hpdx & Hpd2).
  rewrite (bind_load_table _ _ _ _ Ht). cbv beta.
  rewrite bind_load_loc with (v := head_of es); cycle 1.
  { simpl. rewrite Ha. rewrite <- (Hh 0%nat es eq_refl). f_equal. lia. }
  cbv beta.
  rewrite (bind_Done _ _ _ _ _
             (Destroy_chain_spec es m fuel Ht Hces Hnd1 Hpd1 Hfes)).
  cbv beta. rewrite release_all_app.
  apply IH.
  - by rewrite release_all_tables.
  - by rewrite release_all_arrays.
  - intros j es' Hj. rewrite <- (Hh (S j) es' Hj). f_equal. lia.
  - apply Forall_forall. intros es' Hes'.
    apply chain_frame with (m := m);
      [by apply (proj1 (Forall_forall _ _) Hch)|].
    intros e He. rewrite release_all_lists, release_all_pairs.
    assert (e ∈ concat rest) as Hin.
    { apply list_elem_of_lookup in Hes' as [j Hj].
      by eapply elem_of_concat_lookup. }
    split.
    + rewrite decide_False; [done|]. intros Hn. apply (Hndx _ Hn).
      by apply list_elem_of_fmap_2.
    + rewrite decide_False; [done|]. intros Hn. apply (Hpdx _ Hn).
      by apply list_elem_of_fmap_2.
  - done.
  - done.
  - done.
Qed.
End teardown.

Lemma Ready_spec m tp t :
  tp ≠ NULL → tables m !! tp = Some t →
  HashTable_Ready tp m =
    Done (match tbl_hash t with Some _ => 1 | None => 0 end) m.
Proof.
  intros Hn Ht. unfold HashTable_Ready. rewrite decide_False by done.
  by rewrite (bind_load_table _ _ _ _ Ht).
Qed.

Lemma Destroy_spec m tp t bs (fuel : nat) :
  table_rep m tp t bs → is_Some (tbl_hash t) →
  Forall (λ es, (length es < fuel)%nat) bs →
  HashTable_Destroy fuel tp m = Done tt (destroyed tp t bs m).
Proof.
  intros Hrep [h Hh] Hf.
  pose proof Hrep as [Hnn Htab Harr Hsz Hch Hnd Hpd Hbel Hpos].
  unfold HashTable_Destroy. rewrite decide_False by done.
  rewrite (bind_Done _ _ _ _ _ (Ready_spec m tp t Hnn Htab)). cbv beta.
  rewrite Hh. rewrite decide_False by done.
  rewrite <- Hsz.
  erewrite bind_Done; cycle 1.
  { apply (Destroy_buckets_spec tp t fuel (head_of <$> bs) bs 0 m); try done.
    intros j es Hj. rewrite list_lookup_fmap. simpl. by rewrite Hj. }
  cbv beta.
  rewrite bind_load_table with (t := t) by (by rewrite release_all_tables).
  cbv beta. unfold free_array, store_table.
  erewrite bind_writing; cycle 1.
  { rewrite release_all_arrays, Harr. reflexivity. }
  cbv beta. unfold writing, write_table.
  change (tables (upd_arrays ?f ?m)) with (tables m).
  by rewrite release_all_tables, Htab.
Qed.

(** ** [HashTable_Init] *)

Lemma concat_replicate_nil {A} (n : nat) : concat (replicate n (@nil A)) = [].
Proof. induction n as [|n IH]; simpl; [done|apply IH]. Qed.

Lemma Init_spec m tp t0 cmp hash onRemove :
  tp ≠ NULL → tables m !! tp = Some t0 → 0 < brk m →
  ∃ m', HashTable_Init tp cmp hash onRemove m = Done tp m' ∧
        table_rep m' tp (mkHashTable (brk m) cmp hash onRemove)
          (replicate HASHSIZE []) ∧
        removed m' = removed m.
Proof.
  intros Hn Ht Hpos. unfold HashTable_Init, store_table.
  erewrite bind_writing by (unfold write_table; by rewrite Ht).
  cbv beta.
  erewrite bind_writing
    by (unfold write_table; stores; by rewrite lookup_insert_eq).
  cbv beta.
  erewrite bind_writing
    by (unfold write_table; stores; by rewrite lookup_insert_eq).
  cbv beta.
  erewrite (bind_Done (calloc_buckets HASHSIZE)) by reflexivity.
  cbv beta.
  erewrite bind_writing
    by (unfold write_table; stores; by rewrite lookup_insert_eq).
  eexists. split; [reflexivity|]. split; [|done].
  split; stores.
  - done.
  - rewrite !insert_insert_eq. rewrite lookup_insert_eq.
    by destruct t0.
  - rewrite lookup_insert_eq. by rewrite fmap_replicate.
  - by rewrite length_replicate.
  - apply Forall_replicate. done.
  - rewrite concat_replicate_nil. constructor.
  - rewrite concat_replicate_nil. constructor.
  - rewrite concat_replicate_nil. constructor.
  - lia.
Qed.

Lemma length_bucket_le {A} (bs : list (list A)) :
  Forall (λ es, (length es < S (length (concat bs)))%nat) bs.
Proof.
  induction bs as [|b bs IH]; [constructor|].
  simpl concat. rewrite length_app. constructor; [lia|].
  eapply Forall_impl; [done|]. simpl. intros es. lia.
Qed.

Lemma Destroy_clears_sentinel (fuel : nat) tp m m' :
  HashTable_Destroy fuel tp m = Done tt m' →
  HashTable_Ready tp m' = Done 0 m'.
Proof.
  unfold HashTable_Destroy. case_decide as Hn.
  - intros [= <-]. unfold HashTable_Ready. by rewrite decide_True.
  - unfold bind at 1. unfold HashTable_Ready at 1.
    rewrite decide_False by done. unfold bind at 1, load_table at 1, reading at 1.
    destruct (tables m !! tp) as [t|] eqn:Ht; [|done]. unfold ret at 1.
    case_decide as Hr.
    + intros [= <-]. rewrite (Ready_spec m tp t Hn Ht).
      by destruct (tbl_hash t).
    + unfold bind at 1.
      destruct (Destroy_buckets fuel tp 0 HASHSIZE m) as [[] m1| |]; [|done|done].
      unfold bind at 1, load_table, reading.
      destruct (tables m1 !! tp) as [t1|] eqn:Ht1; [|done].
      unfold bind at 1, free_array, writing.
      destruct (arrays m1 !! tbl_hashListArr t1) as [a|]; [|done].
      unfold store_table, writing, write_table.
      change (tables (upd_arrays ?f ?m)) with (tables m). rewrite Ht1.
      intros [= <-].
      erewrite Ready_spec; [|done|stores; apply lookup_insert_eq]. done.
Qed.

Lemma length_bucket_lt {A} (bs : list (list A)) (fuel : nat) :
  (length (concat bs) < fuel)%nat →
  Forall (λ es, (length es < fuel)%nat) bs.
Proof.
  intros Hf. eapply Forall_impl; [apply length_bucket_le|].
  simpl. intros es. lia.
Qed.

Lemma bucket_length_le {A} (bs : list (list A)) i es :
  bs !! i = Some es → (length es ≤ length (concat bs))%nat.
Proof.
  intros Hi. pose proof (length_bucket_le bs) as H.
  rewrite Forall_lookup in H. specialize (H i es Hi). simpl in H. lia.
Qed.

(** ** Writing through a returned reference *)

Lemma set_elem_node p v e : e_node (set_elem p v e) = e_node e.
Proof. unfold set_elem. by case_decide. Qed.
Lemma set_elem_pair p v e : e_pair (set_elem p v e) = e_pair e.
Proof. unfold set_elem. by case_decide. Qed.
Lemma set_elem_key p v e : e_key (set_elem p v e) = e_key e.
Proof. unfold set_elem. by case_decide. Qed.

Lemma concat_fmap {A B} (f : A → B) (bs : list (list A)) :
  concat (fmap (M := list) f <$> bs) = f <$> concat bs.
Proof.
  induction bs as [|b bs IH]; [done|].
  rewrite fmap_cons. simpl concat. by rewrite fmap_app, IH.
Qed.

Lemma head_of_set_elem p v es : head_of (set_elem p v <$> es) = head_of es.
Proof. destruct es as [|e es]; [done|]. simpl. apply set_elem_node. Qed.

Lemma find_entry_set_elem c key p v es :
  find_entry c key (set_elem p v <$> es) = set_elem p v <$> find_entry c key es.
Proof.
  induction es as [|e es IH]; [done|].
  rewrite fmap_cons. simpl find_entry. rewrite set_elem_key.
  by case_decide.
Qed.

Lemma bucket_write_elem p v bs i :
  bucket (write_elem p v bs) i = set_elem p v <$> bucket bs i.
Proof.
  unfold bucket, write_elem. rewrite list_lookup_fmap.
  by destruct (bs !! i).
Qed.

Lemma find_entry_snoc c key es e :
  find_entry c key es = None → eqk c key (e_key e) →
  find_entry c key (es ++ [e]) = Some e.
Proof.
  intros Hnone Heq. induction es as [|e0 es IH]; simpl in *.
  - by rewrite decide_True.
  - case_decide; [done|]. by apply IH.
Qed.

Lemma bucket_insert bs i es :
  (i < length bs)%nat → bucket (<[i := es]> bs) i = es.
Proof. intros Hi. unfold bucket. by rewrite list_lookup_insert_eq. Qed.

(** After [HashTable_At] the key's chain has a first match, the entry whose
    reference was returned. *)
Lemma find_after_At c h key m bs :
  (bucket_of h key < length bs)%nat →
  (find_entry c key (bucket bs (bucket_of h key)) = None → eqk c key key) →
  find_entry c key (bucket (at_buckets c h key m bs) (bucket_of h key)) =
    Some (at_entry c h key m bs).
Proof.
  intros Hlt Hrefl. unfold at_buckets, at_entry.
  destruct (find_entry c key (bucket bs (bucket_of h key))) as [e|] eqn:Hfind;
    [done|].
  rewrite bucket_insert by done.
  apply find_entry_snoc; [done|]. by apply Hrefl.
Qed.

Lemma rep_write_elem m tp t bs e0 v :
  table_rep m tp t bs → e0 ∈ concat bs →
  ∃ m2, write_ref (RElement (e_pair e0)) v m = Done tt m2 ∧
        table_rep m2 tp t (write_elem (e_pair e0) v bs) ∧
        read_ref (RElement (e_pair e0)) m2 = Done v m2 ∧
        removed m2 = removed m.
Proof.
  intros Hrep He0.
  pose proof Hrep as [Hnn Htab Harr Hsz Hch Hnd Hpd Hbel Hpos].
  assert (∀ e, e ∈ concat bs →
               pairs m !! e_pair e = Some (mkHashPair (e_key e) (e_elem e)))
    as Hpairs.
  { intros e He. destruct (elem_of_concat _ _ He) as (i & es & Hi & Hes).
    pose proof (proj1 (Forall_lookup _ _) Hch i es Hi) as Hc.
    by destruct (chain_elem _ _ _ Hc Hes) as (_ & _ & Hp). }
  set (m2 := upd_pairs <[e_pair e0 := mkHashPair (e_key e0) v]> m).
  exists m2. split; [|split; [|split; [|done]]].
  - unfold write_ref, store_pair, writing, write_pair.
    by rewrite (Hpairs e0 He0).
  - split; unfold m2; stores; try done.
    + unfold write_elem. rewrite Harr. f_equal.
      rewrite <- list_fmap_compose. apply list_fmap_ext.
      intros i es _. simpl. by rewrite head_of_set_elem.
    + unfold write_elem. by rewrite length_fmap.
    + unfold write_elem. apply Forall_fmap. apply Forall_forall.
      intros es Hes. simpl.
      apply list_elem_of_lookup in Hes as [i Hi].
      pose proof (proj1 (Forall_lookup _ _) Hch i es Hi) as Hc.
      assert (∀ e, e ∈ es → e ∈ concat bs) as Hsub
        by (intros e He; by eapply elem_of_concat_lookup).
      clear Hi. induction es as [|e es IH]; [done|].
      simpl in Hc. destruct Hc as (Hn & Hl & Hp & Hc).
      rewrite fmap_cons. simpl chain.
      rewrite set_elem_node, set_elem_pair, head_of_set_elem.
      split; [done|]. split; [done|]. split.
      * unfold set_elem. case_decide as Hd.
        -- rewrite Hd. rewrite lookup_insert_eq. fields.
           pose proof (Hpairs e0 He0) as H0. rewrite <- Hd, Hp in H0.
           by injection H0 as -> _.
        -- by rewrite lookup_insert_ne.
      * apply IH; [done|]. intros e' He'. apply Hsub. by right.
    + unfold write_elem. rewrite concat_fmap, <- list_fmap_compose.
      erewrite list_fmap_ext; [exact Hnd|].
      intros i e _. simpl. apply set_elem_node.
    + unfold write_elem. rewrite concat_fmap, <- list_fmap_compose.
      erewrite list_fmap_ext; [exact Hpd|].
      intros i e _. simpl. apply set_elem_pair.
    + unfold write_elem. rewrite concat_fmap. apply Forall_fmap.
      eapply Forall_impl; [exact Hbel|]. intros e. simpl.
      by rewrite set_elem_node, set_elem_pair.
  - unfold read_ref, m2.
    erewrite bind_load_pair by (stores; apply lookup_insert_eq). done.
Qed.

(** ** Termination of [HashTable_At] *)

Section never_equal.
Variables (tp : ptr) (t : HashTable) (c : Z → Z → Z) (key : Z).
Hypothesis Hcmp : tbl_cmp t = Some c.
Hypothesis Hirrefl : ¬ eqk c key key.

(** When the strategy does not find [key] equal to itself and nothing in
    the chain matches, every entry the loop appends fails the test too:
    the loop appends again and no budget is enough. *)
Lemma At_loop_diverges (fuel : nat) : ∀ es x m,
  tables m !! tp = Some t →
  chain m es →
  read_loc x m = Some (head_of es) →
  loc_below x m →
  Forall (λ e, e_node e < brk m) es →
  find_entry c key es = None →
  At_loop fuel tp key x m = Timeout.
Proof.
  induction fuel as [|fuel IH]; intros es x m Ht Hch Hx Hb Hlt Hfind; [done|].
  simpl At_loop. destruct es as [|e es].
  - simpl in Hx.
    destruct (link_entry_spec x key m Hx Hb)
      as (m' & Hlink & Hx' & Ht' & Hl' & Hp' & Hbrk' & _).
    rewrite (bind_load_loc _ _ _ _ Hx). cbv beta.
    rewrite decide_True by done.
    erewrite bind_Done by (rewrite At_alloc_spec, Hlink; reflexivity).
    rewrite (bind_load_loc _ _ _ _ Hx'). cbv beta.
    rewrite bind_load_table with (t := t) by (by rewrite Ht').
    rewrite (bind_load_list _ _ _ _ Hl'). fields.
    rewrite bind_load_pair with (pr := mkHashPair key 0)
      by (by rewrite Hp', lookup_insert_eq).
    fields. rewrite Hcmp, bind_call_cmp. rewrite decide_False by done.
    apply (IH []); try done.
    + by rewrite Ht'.
    + unfold read_loc.
      transitivity (list_next <$> Some (mkHashList NULL (brk m + 1))); [|done].
      f_equal. exact Hl'.
    + unfold loc_below. lia.
  - simpl in Hch, Hx, Hfind. destruct Hch as (Hn & Hl & Hp & Hc).
    apply Forall_cons in Hlt as [Hlt0 Hlt].
    At_step Hx Ht Hl Hp Hcmp.
    case_decide as Hd; [done|].
    apply (IH es); try done.
    simpl. by rewrite Hl.
Qed.
End never_equal.

Lemma At_diverges m tp t bs c h key (fuel : nat) :
  table_rep m tp t bs → ready_with c h t →
  ¬ eqk c key key →
  find_entry c key (bucket bs (bucket_of h key)) = None →
  HashTable_At fuel tp key m = Timeout.
Proof.
  intros Hrep [Hc Hh] Hirr Hfind. unfold HashTable_At.
  pose proof (rep_table _ _ _ _ Hrep) as Ht.
  rewrite (bind_load_table _ _ _ _ Ht). cbv beta.
  rewrite Hh, bind_call_hash. fold (bucket_of h key).
  destruct (rep_bucket m tp t bs (bucket_of h key) Hrep (bucket_index_lt _))
    as (Hb & Hch & Hx).
  unfold bind.
  rewrite (At_loop_diverges tp t c key Hc Hirr fuel
             (bucket bs (bucket_of h key))); try done.
  apply Forall_forall. intros e He.
  apply (proj1 (Forall_forall _ _) (rep_below _ _ _ _ Hrep) e).
  by eapply elem_of_concat_lookup.
Qed.

(** A larger budget does not change a finished run. *)
Lemma At_loop_fuel_mono (fuel : nat) : ∀ (fuel' : nat) tp key x m y m',
  At_loop fuel tp key x m = Done y m' → (fuel ≤ fuel')%nat →
  At_loop fuel' tp key x m = Done y m'.
Proof.
  induction fuel as [|fuel IH]; intros fuel' tp key x m y m' Hrun Hle; [done|].
  destruct fuel' as [|fuel']; [lia|].
  simpl At_loop in *. unfold bind in *.
  destruct (load_loc x m) as [l0 m0| |]; [|done|done].
  destruct ((if decide (l0 = NULL) then At_alloc x key else ret ()) m0)
    as [[] m1| |]; [|done|done].
  destruct (load_loc x m1) as [l1 m2| |]; [|done|done].
  destruct (load_table tp m2) as [tb m3| |]; [|done|done].
  destruct (load_list l1 m3) as [nd m4| |]; [|done|done].
  destruct (load_pair (list_pair nd) m4) as [pr m5| |]; [|done|done].
  destruct (call_cmp (tbl_cmp tb) key (pair_key pr) m5) as [r m6| |];
    [|done|done].
  case_decide; [done|].
  apply IH; [done|lia].
Qed.

Lemma At_fuel_mono (fuel fuel' : nat) tp key m r m' :
  HashTable_At fuel tp key m = Done r m' → (fuel ≤ fuel')%nat →
  HashTable_At fuel' tp key m = Done r m'.
Proof.
  intros Hrun Hle. unfold HashTable_At, bind in *.
  destruct (load_table tp m) as [tb m0| |]; [|done|done].
  destruct (call_hash (tbl_hash tb) key m0) as [idx m1| |]; [|done|done].
  destruct (At_loop fuel tp key _ m1) as [y m2| |] eqn:Hloop; [|done|done].
  by rewrite (At_loop_fuel_mono fuel fuel' _ _ _ _ _ _ Hloop Hle).
Qed.

(** ** Sequences of [HashTable_At] calls *)

Section sequences.
Variables (tp : ptr) (t : HashTable) (c : Z → Z → Z) (h : Z → Z).
Hypothesis Hready : ready_with c h t.
Hypothesis Hsym : ∀ a b, eqk c a b → eqk c b a.
Hypothesis Hhash : hash_respects c h.

(** A key matches an entry of the table only in its own bucket. *)
Lemma find_entry_table bs key :
  buckets_ok h bs → (bucket_of h key < length bs)%nat →
  find_entry c key (bucket bs (bucket_of h key)) = None ↔
  ∀ e, e ∈ concat bs → ¬ eqk c key (e_key e).
Proof.
  intros Hok Hlt. rewrite find_entry_None. split.
  - intros Hmiss e He Heq.
    destruct (elem_of_concat _ _ He) as (i & es & Hi & Hes).
    pose proof (Hok i es e Hi Hes) as Hbi.
    rewrite <- (Hhash _ _ Heq) in Hbi. subst i.
    apply (Hmiss e); [|done].
    unfold bucket. by rewrite Hi.
  - intros Hmiss e He. apply Hmiss.
    eapply elem_of_concat_lookup; [|done]. by apply bucket_lookup.
Qed.

Lemma At_keeps_invariant m bs key :
  table_rep m tp t bs → eqk c key key →
  one_per_key c bs → buckets_ok h bs →
  one_per_key c (at_buckets c h key m bs) ∧
  buckets_ok h (at_buckets c h key m bs).
Proof.
  intros Hrep Hrefl Hone Hok.
  assert (bucket_of h key < length bs)%nat as Hlt.
  { rewrite (rep_size _ _ _ _ Hrep). apply bucket_index_lt. }
  pose proof (bucket_lookup bs _ Hlt) as Hb.
  unfold at_buckets.
  destruct (find_entry c key (bucket bs (bucket_of h key))) as [e|] eqn:Hfind;
    [done|].
  pose proof (proj1 (find_entry_table bs key Hok Hlt) Hfind) as Hmiss.
  split.
  - intros e1 e2. rewrite !concat_insert_snoc by done.
    intros [->|H1]%elem_of_cons [->|H2]%elem_of_cons Heq; try done.
    + by destruct (Hmiss e2 H2).
    + destruct (Hmiss e1 H1). by apply Hsym.
    + by apply Hone.
  - intros i es e Hi He.
    destruct (decide (i = bucket_of h key)) as [->|Hne].
    + rewrite list_lookup_insert_eq in Hi by done. injection Hi as <-.
      apply elem_of_app in He as [He|He]; [by apply (Hok _ _ _ Hb)|].
      by apply list_elem_of_singleton in He as ->.
    + rewrite list_lookup_insert_ne in Hi by done. by apply (Hok _ _ _ Hi).
Qed.

(** One call moves the table as [distinct] moves its list of seen keys. *)
Lemma At_counts m bs key seen :
  table_rep m tp t bs → buckets_ok h bs →
  (∀ k, k ∈ seen ↔ k ∈ table_keys bs) →
  if decide (Exists (eqk c key) seen)
  then at_buckets c h key m bs = bs
  else table_keys (at_buckets c h key m bs) ≡ₚ key :: table_keys bs.
Proof.
  intros Hrep Hok Hseen.
  assert (bucket_of h key < length bs)%nat as Hlt.
  { rewrite (rep_size _ _ _ _ Hrep). apply bucket_index_lt. }
  pose proof (bucket_lookup bs _ Hlt) as Hb.
  pose proof (find_entry_table bs key Hok Hlt) as Hfe.
  unfold at_buckets.
  case_decide as Hex.
  - destruct (find_entry c key (bucket bs (bucket_of h key))); [done|].
    apply Exists_exists in Hex as (k & Hk & Heq).
    apply Hseen in Hk. unfold table_keys in Hk.
    apply list_elem_of_fmap in Hk as (e & -> & He).
    by destruct (proj1 Hfe eq_refl e He).
  - destruct (find_entry c key (bucket bs (bucket_of h key))) as [e|] eqn:Hfind.
    + destruct Hex. apply find_entry_Some in Hfind as [He Heq].
      apply Exists_exists. exists (e_key e). split; [|done].
      apply Hseen. unfold table_keys. apply list_elem_of_fmap_2.
      by eapply elem_of_concat_lookup.
    + unfold table_keys. by rewrite concat_insert_snoc.
Qed.

Lemma At_seq_spec ks : ∀ m bs seen,
  table_rep m tp t bs →
  Forall (λ k, eqk c k k) ks →
  one_per_key c bs → buckets_ok h bs →
  (∀ k, k ∈ seen ↔ k ∈ table_keys bs) →
  ∃ rs m' bs',
    (∀ fuel : nat, (entry_count bs + length ks < fuel)%nat →
                   At_seq fuel tp ks m = Done rs m') ∧
    table_rep m' tp t bs' ∧ one_per_key c bs' ∧ buckets_ok h bs' ∧
    removed m' = removed m ∧
    entry_count bs' = (entry_count bs + length (distinct c seen ks))%nat.
Proof.
  induction ks as [|key ks IH]; intros m bs seen Hrep Hrefl Hone Hok Hseen.
  - exists [], m, bs.
    split; [done|]. split; [done|]. split; [done|]. split; [done|].
    split; [done|]. simpl. lia.
  - apply Forall_cons in Hrefl as [Hrk Hrefl].
    assert (bucket_of h key < length bs)%nat as Hlt.
    { rewrite (rep_size _ _ _ _ Hrep). apply bucket_index_lt. }
    pose proof (bucket_lookup bs _ Hlt) as Hb.
    pose proof (bucket_length_le bs _ _ Hb) as Hlen.
    destruct (At_keeps_invariant m bs key Hrep Hrk Hone Hok) as [Hone1 Hok1].
    pose proof (At_counts m bs key seen Hrep Hok Hseen) as Hcount.
    set (bs1 := at_buckets c h key m bs) in *.
    destruct (At_spec m tp t bs c h key (S (length (bucket bs (bucket_of h key))))
                Hrep Hready (λ _, Hrk)) as (m1 & Hat & Hrep1 & Hrm1 & _); [lia|].
    fold bs1 in Hrep1.
    set (seen1 := if decide (Exists (eqk c key) seen) then seen else key :: seen).
    assert (∀ k, k ∈ seen1 ↔ k ∈ table_keys bs1) as Hseen1.
    { unfold seen1. intros k. case_decide.
      - rewrite Hcount. apply Hseen.
      - rewrite Hcount. rewrite !elem_of_cons. by rewrite Hseen. }
    assert (entry_count bs1 =
            if decide (Exists (eqk c key) seen) then entry_count bs
            else S (entry_count bs)) as Hec.
    { case_decide.
      - by rewrite Hcount.
      - unfold entry_count.
        rewrite <- (length_fmap e_key (concat bs1)).
        fold (table_keys bs1). rewrite Hcount. simpl.
        unfold table_keys. by rewrite length_fmap. }
    destruct (IH m1 bs1 seen1 Hrep1 Hrefl Hone1 Hok1 Hseen1)
      as (rs & m' & bs' & Hrun & Hrep' & Hone' & Hok' & Hrm' & Hcnt').
    exists (RElement (e_pair (at_entry c h key m bs)) :: rs), m', bs'.
    split; [|split; [done|split; [done|split; [done|split]]]].
    + intros fuel Hf. simpl in Hf. simpl At_seq. unfold entry_count in Hf.
      assert (S (length (bucket bs (bucket_of h key))) ≤ fuel)%nat as Hf1 by lia.
      assert (entry_count bs1 + length ks < fuel)%nat as Hf2.
      { rewrite Hec. unfold entry_count. case_decide; lia. }
      rewrite (bind_Done _ _ _ _ _ (At_fuel_mono _ fuel _ _ _ _ _ Hat Hf1)).
      cbv beta.
      by rewrite (bind_Done _ _ _ _ _ (Hrun fuel Hf2)).
    + congruence.
    + rewrite Hcnt', Hec. simpl distinct. unfold seen1.
      case_decide; simpl; lia.
Qed.
End sequences.

Lemma distinct_length_le c seen ks :
  (length (distinct c seen ks) ≤ length ks)%nat.
Proof.
  revert seen. induction ks as [|k ks IH]; intros seen; simpl; [lia|].
  case_decide; simpl.
  - specialize (IH seen). lia.
  - specialize (IH (k :: seen)). lia.
Qed.

(** Only the classes of the keys seen so far matter to [distinct]. *)
Lemma distinct_seen_equiv c ks : ∀ seen1 seen2,
  (∀ k, Exists (eqk c k) seen1 ↔ Exists (eqk c k) seen2) →
  length (distinct c seen1 ks) = length (distinct c seen2 ks).
Proof.
  induction ks as [|k ks IH]; intros seen1 seen2 Heq; simpl; [done|].
  pose proof (Heq k) as Hk.
  repeat case_decide; try tauto.
  - by apply IH.
  - simpl. f_equal. apply IH. intros k'. rewrite !Exists_cons.
    by rewrite (Heq k').
Qed.

(** The number of distinct keys does not depend on the order of the
    sequence. *)
Lemma distinct_Permutation c ks ks' :
  consistent c → ks ≡ₚ ks' →
  ∀ seen, length (distinct c seen ks) = length (distinct c seen ks').
Proof.
  intros [Hrefl Hsym Htrans] Hperm.
  induction Hperm as [|x l l' _ IH|x y l|l l' l'' _ IH1 _ IH2]; intros seen.
  - done.
  - simpl. case_decide; simpl; by rewrite IH.
  - simpl. repeat case_decide; simpl;
      repeat match goal with
             | H : Exists _ (_ :: _) |- _ => apply Exists_cons in H
             | H : ¬ Exists _ (_ :: _) |- _ => rewrite Exists_cons in H
             end;
      try tauto; try done;
      try (exfalso;
           match goal with
           | H1 : eqk c ?a ?b ∨ _, H2 : ¬ (eqk c ?b ?a ∨ _) |- _ =>
               destruct H1 as [H1|H1]; [apply H2; left; by apply Hsym|tauto]
           end).
    + assert (eqk c x y) as Hxy by tauto. f_equal.
      apply distinct_seen_equiv. intros k. rewrite !Exists_cons.
      split; (intros [Hk|Hk]; [left|by right]); eauto.
    + f_equal. f_equal. apply distinct_seen_equiv. intros k.
      rewrite !Exists_cons. tauto.
  - by rewrite IH1, IH2.
Qed.

Lemma At_seq_app (fuel : nat) tp ks1 ks2 m :
  At_seq fuel tp (ks1 ++ ks2) m =
    (rs1 <- At_seq fuel tp ks1 ;;
     rs2 <- At_seq fuel tp ks2 ;;
     ret (rs1 ++ rs2)) m.
Proof.
  revert m. induction ks1 as [|k ks1 IH]; intros m.
  - simpl. unfold bind, ret. by destruct (At_seq fuel tp ks2 m).
  - simpl. unfold bind.
    destruct (HashTable_At fuel tp k m) as [r m1| |]; [|done|done].
    rewrite IH. unfold bind.
    destruct (At_seq fuel tp ks1 m1) as [rs1 m2| |]; [|done|done].
    unfold ret. by destruct (At_seq fuel tp ks2 m2).
Qed.

(** ** Later calls leave earlier matches in place *)

Lemma find_entry_app_Some c key es es' e :
  find_entry c key es = Some e → find_entry c key (es ++ es') = Some e.
Proof.
  induction es as [|e0 es IH]; simpl; [done|].
  case_decide; [done|]. apply IH.
Qed.

(** [HashTable_At] on any key keeps the first match of every other key:
    the only change to a chain is an entry appended at its tail. *)
Lemma find_entry_at_buckets c h key k m bs e :
  find_entry c key (bucket bs (bucket_of h key)) = Some e →
  find_entry c key (bucket (at_buckets c h k m bs) (bucket_of h key)) = Some e.
Proof.
  intros Hfind. unfold at_buckets.
  destruct (find_entry c k (bucket bs (bucket_of h k))); [done|].
  destruct (decide (bucket_of h k = bucket_of h key)) as [Heq|Hne].
  - rewrite Heq. unfold bucket at 1.
    destruct (decide (bucket_of h key < length bs)%nat) as [Hlt|Hge].
    + rewrite list_lookup_insert_eq by done. simpl.
      by apply find_entry_app_Some.
    + rewrite list_insert_ge by lia. done.
  - unfold bucket at 1. by rewrite list_lookup_insert_ne.
Qed.

Lemma entry_count_at_buckets c h k m bs :
  (bucket_of h k < length bs)%nat →
  (entry_count (at_buckets c h k m bs) ≤ S (entry_count bs))%nat.
Proof.
  intros Hlt. unfold at_buckets, entry_count.
  destruct (find_entry c k (bucket bs (bucket_of h k))); [lia|].
  rewrite concat_insert_snoc by (by apply bucket_lookup). simpl. lia.
Qed.

Lemma At_seq_stable tp t c h ks : ∀ m bs,
  table_rep m tp t bs → ready_with c h t →
  Forall (λ k, eqk c k k) ks →
  ∃ rs m' bs',
    (∀ fuel : nat, (entry_count bs + length ks < fuel)%nat →
                   At_seq fuel tp ks m = Done rs m') ∧
    table_rep m' tp t bs' ∧
    (entry_count bs' ≤ entry_count bs + length ks)%nat ∧
    (∀ key e, find_entry c key (bucket bs (bucket_of h key)) = Some e →
              find_entry c key (bucket bs' (bucket_of h key)) = Some e).
Proof.
  induction ks as [|k ks IH]; intros m bs Hrep Hr Hrefl.
  - exists [], m, bs. split; [done|]. split; [done|]. split; [simpl; lia|done].
  - apply Forall_cons in Hrefl as [Hrk Hrefl].
    assert (bucket_of h k < length bs)%nat as Hlt.
    { rewrite (rep_size _ _ _ _ Hrep). apply bucket_index_lt. }
    pose proof (bucket_length_le bs _ _ (bucket_lookup bs _ Hlt)) as Hlen.
    pose proof (entry_count_at_buckets c h k m bs Hlt) as Hec.
    destruct (At_spec m tp t bs c h k (S (length (bucket bs (bucket_of h k))))
                Hrep Hr (λ _, Hrk)) as (m1 & Hat & Hrep1 & _); [lia|].
    destruct (IH m1 _ Hrep1 Hr Hrefl) as (rs & m' & bs' & Hrun & Hrep' & Hcnt & Hkeep).
    exists (RElement (e_pair (at_entry c h k m bs)) :: rs), m', bs'.
    split; [|split; [done|split]].
    + intros fuel Hf. simpl in Hf. simpl At_seq. unfold entry_count in *.
      rewrite (bind_Done _ _ _ _ _ (At_fuel_mono _ fuel _ _ _ _ _ Hat ltac:(lia))).
      cbv beta.
      by rewrite (bind_Done _ _ _ _ _ (Hrun fuel ltac:(lia))).
    + simpl. lia.
    + intros key e Hfind. apply Hkeep. by apply find_entry_at_buckets.
Qed.

(** ** The concrete tables are well formed *)

Lemma demo_rep : table_rep demo_mem 100 demo_table demo_bs.
Proof.
  split.
  - done.
  - done.
  - done.
  - done.
  - apply Forall_forall. intros es Hes.
    apply list_elem_of_lookup in Hes as [i Hi].
    destruct (decide (i = 42%nat)) as [->|Hne].
    + injection Hi as <-. simpl. repeat split; done.
    + unfold demo_bs in Hi. rewrite list_lookup_insert_ne in Hi by done.
      apply lookup_replicate in Hi as [-> _]. done.
  - apply (bool_decide_unpack _). by vm_compute.
  - apply (bool_decide_unpack _). by vm_compute.
  - apply (bool_decide_unpack _). by vm_compute.
  - done.
Qed.

(** Each of them is a store the code itself produces. *)
Lemma demo_reached :
  (HashTable_Init 100 (Some demo_cmp) (Some demo_hash) (Some (λ _, 0)) ;;;
   r1 <- HashTable_At 1 100 42 ;;
   write_ref r1 7 ;;;
   r2 <- HashTable_At 2 100 143 ;;
   write_ref r2 8) (mkMem {[ 100 := zero_table ]} ∅ ∅ ∅ 1000 []) =
  Done tt demo_mem.
Proof. by vm_compute. Qed.

Lemma cx_reached :
  (HashTable_Init 100 (Some cx_cmp) (Some demo_hash) None ;;;
   HashTable_At 1 100 5) (mkMem {[ 100 := zero_table ]} ∅ ∅ ∅ 1000 []) =
  Done (RElement 1002) cx_mem.
Proof. by vm_compute. Qed.

Lemma cx_rep : table_rep cx_mem 100 cx_table cx_bs.
Proof.
  split; try done.
  - apply Forall_forall. intros es Hes.
    apply list_elem_of_lookup in Hes as [i Hi].
    destruct (decide (i = 5%nat)) as [->|Hne].
    + injection Hi as <-. simpl. repeat split; done.
    + unfold cx_bs in Hi. rewrite list_lookup_insert_ne in Hi by done.
      apply lookup_replicate in Hi as [-> _]. done.
  - apply (bool_decide_unpack _). by vm_compute.
  - apply (bool_decide_unpack _). by vm_compute.
  - apply (bool_decide_unpack _). by vm_compute.
Qed.

Lemma cx_one_per_key : one_per_key cx_cmp cx_bs.
Proof.
  assert (concat cx_bs = [mkEntry 1001 1002 5 0]) as Hall by (by vm_compute).
  intros e1 e2. rewrite Hall.
  intros ->%list_elem_of_singleton ->%list_elem_of_singleton _. done.
Qed.

Lemma fresh_reached :
  HashTable_Init 100 (Some eq_cmp) (Some demo_hash) None
    (mkMem {[ 100 := zero_table ]} ∅ ∅ ∅ 1000 []) = Done 100 fresh_mem.
Proof. by vm_compute. Qed.

Lemma fresh_rep : table_rep fresh_mem 100 fresh_table fresh_bs.
Proof.
  split; try done.
  - by apply Forall_replicate.
  - unfold fresh_bs. rewrite concat_replicate_nil. constructor.
  - unfold fresh_bs. rewrite concat_replicate_nil. constructor.
Qed.

Lemma eqk_eq_cmp a b : eqk eq_cmp a b ↔ a = b.
Proof. unfold eqk, eq_cmp. by case_decide. Qed.

Lemma eq_cmp_consistent : consistent eq_cmp.
Proof.
  split; intros *; rewrite !eqk_eq_cmp; congruence.
Qed.

Lemma eq_cmp_hash_respects h : hash_respects eq_cmp h.
Proof. intros a b. rewrite eqk_eq_cmp. by intros ->. Qed.

Lemma fresh_one_per_key c : one_per_key c fresh_bs.
Proof.
  intros e1 e2 H1. unfold fresh_bs in H1. rewrite concat_replicate_nil in H1.
  by apply elem_of_nil in H1.
Qed.

Lemma fresh_buckets_ok h : buckets_ok h fresh_bs.
Proof.
  intros i es e Hi He. apply lookup_replicate in Hi as [-> _].
  by apply elem_of_nil in He.
Qed.

(** * The specification *)

(** C1: on a ready table whose equality strategy is consistent and whose
    hash strategy sends equal keys to one bucket, any sequence [ks] of
    [HashTable_At] calls returns, keeps at most one entry per key, and adds
    one entry per key of [ks] that is distinct from the keys already present
    and from the earlier keys of [ks]; from an empty table the final entry
    count is the number of distinct keys of [ks], which no reordering of
    [ks] changes.  The same holds after every prefix of the sequence. *)
Theorem uniqueness m tp t bs c h ks :
  table_rep m tp t bs → ready_with c h t →
  consistent c → hash_respects c h →
  one_per_key c bs → buckets_ok h bs →
  ∃ rs m' bs',
    (∀ fuel : nat, (entry_count bs + length ks < fuel)%nat →
                   At_seq fuel tp ks m = Done rs m') ∧
    table_rep m' tp t bs' ∧ one_per_key c bs' ∧ buckets_ok h bs' ∧
    entry_count bs' =
      (entry_count bs + length (distinct c (table_keys bs) ks))%nat ∧
    (entry_count bs = 0%nat → entry_count bs' = distinct_count c ks) ∧
    (∀ ks', ks ≡ₚ ks' → distinct_count c ks' = distinct_count c ks) ∧
    (∀ ks1 ks2, ks = ks1 ++ ks2 →
       ∃ rs1 rs2 m1 bs1,
         rs = rs1 ++ rs2 ∧
         (∀ fuel : nat, (entry_count bs + length ks < fuel)%nat →
                        At_seq fuel tp ks1 m = Done rs1 m1 ∧
                        At_seq fuel tp ks2 m1 = Done rs2 m') ∧
         table_rep m1 tp t bs1 ∧ one_per_key c bs1 ∧
         entry_count bs1 =
           (entry_count bs + length (distinct c (table_keys bs) ks1))%nat).
Proof.
  intros Hrep Hr Hcons Hhash Hone Hok.
  pose proof (eqk_sym _ Hcons) as Hsym.
  assert (∀ l : list Z, Forall (λ k, eqk c k k) l) as Hrefl.
  { intros l. apply Forall_forall. intros k _. apply (eqk_refl _ Hcons). }
  destruct (At_seq_spec tp t c h Hr Hsym Hhash ks m bs (table_keys bs)
              Hrep (Hrefl ks) Hone Hok (λ _, reflexivity _))
    as (rs & m' & bs' & Hrun & Hrep' & Hone' & Hok' & _ & Hcnt).
  exists rs, m', bs'.
  split; [done|]. split; [done|]. split; [done|]. split; [done|].
  split; [done|]. split; [|split].
  - intros Hzero. rewrite Hcnt, Hzero. unfold distinct_count, table_keys.
    unfold entry_count in Hzero. apply nil_length_inv in Hzero.
    by rewrite Hzero.
  - intros ks' Hperm. unfold distinct_count. symmetry.
    by apply distinct_Permutation.
  - intros ks1 ks2 ->.
    destruct (At_seq_spec tp t c h Hr Hsym Hhash ks1 m bs (table_keys bs)
                Hrep (Hrefl ks1) Hone Hok (λ _, reflexivity _))
      as (rs1 & m1 & bs1 & Hrun1 & Hrep1 & Hone1 & Hok1 & _ & Hcnt1).
    destruct (At_seq_spec tp t c h Hr Hsym Hhash ks2 m1 bs1 (table_keys bs1)
                Hrep1 (Hrefl ks2) Hone1 Hok1 (λ _, reflexivity _))
      as (rs2 & m2 & bs2 & Hrun2 & _).
    pose proof (distinct_length_le c (table_keys bs) ks1) as Hle.
    rewrite length_app in Hrun.
    assert (∀ fuel : nat,
              (entry_count bs + (length ks1 + length ks2) < fuel)%nat →
              At_seq fuel tp ks1 m = Done rs1 m1 ∧
              At_seq fuel tp ks2 m1 = Done rs2 m2) as Hboth.
    { intros fuel Hf. split; [apply Hrun1|apply Hrun2]; lia. }
    set (fuel0 := S (entry_count bs + (length ks1 + length ks2))).
    pose proof (Hrun fuel0 ltac:(unfold fuel0; lia)) as Hall.
    destruct (Hboth fuel0 ltac:(unfold fuel0; lia)) as [H1 H2].
    rewrite At_seq_app in Hall.
    rewrite (bind_Done _ _ _ _ _ H1) in Hall. cbv beta in Hall.
    rewrite (bind_Done _ _ _ _ _ H2) in Hall.
    injection Hall as <- <-.
    exists rs1, rs2, m1, bs1. split; [done|].
    split; [|done]. intros fuel Hf. rewrite length_app in Hf. by apply Hboth.
Qed.

Lemma uniqueness_witness :
  table_rep fresh_mem 100 fresh_table fresh_bs ∧
  ready_with eq_cmp demo_hash fresh_table ∧
  consistent eq_cmp ∧ hash_respects eq_cmp demo_hash ∧
  one_per_key eq_cmp fresh_bs ∧ buckets_ok demo_hash fresh_bs ∧
  ∃ rs m' bs',
    At_seq 6 100 [42; 35; 42; 143; 35] fresh_mem = Done rs m' ∧
    table_rep m' 100 fresh_table bs' ∧
    one_per_key eq_cmp bs' ∧
    entry_count bs' = 3%nat.
Proof.
  split; [apply fresh_rep|]. split; [done|].
  split; [apply eq_cmp_consistent|]. split; [apply eq_cmp_hash_respects|].
  split; [apply fresh_one_per_key|]. split; [apply fresh_buckets_ok|].
  destruct (uniqueness fresh_mem 100 fresh_table fresh_bs eq_cmp demo_hash
              [42; 35; 42; 143; 35] fresh_rep (conj eq_refl eq_refl)
              eq_cmp_consistent (eq_cmp_hash_respects demo_hash)
              (fresh_one_per_key eq_cmp) (fresh_buckets_ok demo_hash))
    as (rs & m' & bs' & Hrun & Hrep & Hone & _ & _ & Hzero & _).
  exists rs, m', bs'. split; [|split; [done|split; [done|]]].
  - apply Hrun. vm_compute. lia.
  - rewrite Hzero; [|by vm_compute]. by vm_compute.
Defined.


(** C2: on a ready table, [HashTable_At] on [key] returns a reference; after
    a store of [v] through it, and after any further [HashTable_At] calls
    [ks] (none, or later ones on any keys), [HashTable_At] and
    [HashTable_Has] on [key] both return that same reference, change
    nothing, and the reference reads [v]. *)
Theorem value_stability m tp t bs c h key v ks :
  table_rep m tp t bs → ready_with c h t →
  eqk c key key → Forall (λ k, eqk c k k) ks →
  ∃ p m1 m2 rs m3,
    write_ref (RElement p) v m1 = Done tt m2 ∧
    read_ref (RElement p) m3 = Done v m3 ∧
    ∀ fuel : nat, (S (entry_count bs) + length ks < fuel)%nat →
      HashTable_At fuel tp key m = Done (RElement p) m1 ∧
      At_seq fuel tp ks m2 = Done rs m3 ∧
      HashTable_At fuel tp key m3 = Done (RElement p) m3 ∧
      HashTable_Has fuel tp key m3 = Done (RElement p) m3.
Proof.
  intros Hrep Hr Hrefl Hrefls.
  pose proof (bucket_index_lt (to_uint (h key))) as Hlt.
  fold (bucket_of h key) in Hlt.
  assert (bucket_of h key < length bs)%nat as Hlt0
    by (by rewrite (rep_size _ _ _ _ Hrep)).
  pose proof (bucket_length_le bs _ _ (bucket_lookup bs _ Hlt0)) as Hlen0.
  destruct (At_spec m tp t bs c h key (S (length (bucket bs (bucket_of h key))))
              Hrep Hr (λ _, Hrefl)) as (m1 & Hat & Hrep1 & _); [lia|].
  pose proof (entry_count_at_buckets c h key m bs Hlt0) as Hec1.
  set (bs1 := at_buckets c h key m bs) in *.
  set (e1 := at_entry c h key m bs) in *.
  assert (find_entry c key (bucket bs1 (bucket_of h key)) = Some e1) as Hfind1
    by (by apply find_after_At).
  destruct (rep_bucket m1 tp t bs1 (bucket_of h key) Hrep1 Hlt) as (Hb1 & _ & _).
  assert (e1 ∈ concat bs1) as Hin1.
  { apply find_entry_Some in Hfind1 as [He1 _].
    by eapply elem_of_concat_lookup. }
  destruct (rep_write_elem m1 tp t bs1 e1 v Hrep1 Hin1)
    as (m2 & Hw & Hrep2 & _).
  set (bs2 := write_elem (e_pair e1) v bs1) in *.
  set (e2 := set_elem (e_pair e1) v e1).
  assert (find_entry c key (bucket bs2 (bucket_of h key)) = Some e2) as Hfind2.
  { unfold bs2. by rewrite bucket_write_elem, find_entry_set_elem, Hfind1. }
  assert (entry_count bs2 = entry_count bs1) as Hec2.
  { unfold bs2, write_elem, entry_count. by rewrite concat_fmap, length_fmap. }
  destruct (At_seq_stable tp t c h ks m2 bs2 Hrep2 Hr Hrefls)
    as (rs & m3 & bs3 & Hrun & Hrep3 & Hec3 & Hkeep).
  pose proof (Hkeep key e2 Hfind2) as Hfind3.
  destruct (rep_bucket m3 tp t bs3 (bucket_of h key) Hrep3 Hlt)
    as (Hb3 & Hch3 & _).
  pose proof (bucket_length_le bs3 _ _ Hb3) as Hlen3.
  assert (e_pair e2 = e_pair e1) as Hp2 by apply set_elem_pair.
  assert (e_elem e2 = v) as Hv2.
  { unfold e2, set_elem. by rewrite decide_True. }
  exists (e_pair e1), m1, m2, rs, m3.
  split; [done|]. split.
  - apply find_entry_Some in Hfind3 as [He3 _].
    destruct (chain_elem _ _ _ Hch3 He3) as (_ & _ & Hpr).
    rewrite Hp2, Hv2 in Hpr.
    unfold read_ref. by rewrite (bind_load_pair _ _ _ _ Hpr).
  - intros fuel Hf. unfold entry_count in *.
    split; [by apply (At_fuel_mono _ fuel _ _ _ _ _ Hat); lia|].
    split; [apply Hrun; lia|]. split.
    + destruct (At_spec m3 tp t bs3 c h key fuel Hrep3 Hr (λ _, Hrefl))
        as (m4 & Hat3 & _ & _ & _ & Hsame); [lia|].
      rewrite Hat3. unfold at_entry. rewrite Hfind3, Hp2.
      f_equal. apply Hsame. by rewrite Hfind3.
    + rewrite (Has_spec m3 tp t bs3 c h key fuel Hrep3 Hr) by lia.
      rewrite Hfind3. simpl. by rewrite Hp2.
Qed.

Lemma value_stability_witness :
  table_rep demo_mem 100 demo_table demo_bs ∧
  ready_with demo_cmp demo_hash demo_table ∧
  eqk demo_cmp 35 35 ∧ Forall (λ k, eqk demo_cmp k k) [136; 42] ∧
  ∃ p m1 m2 rs m3,
    HashTable_At 6 100 35 demo_mem = Done (RElement p) m1 ∧
    write_ref (RElement p) 9 m1 = Done tt m2 ∧
    At_seq 6 100 [136; 42] m2 = Done rs m3 ∧
    HashTable_At 6 100 35 m3 = Done (RElement p) m3 ∧
    HashTable_Has 6 100 35 m3 = Done (RElement p) m3 ∧
    read_ref (RElement p) m3 = Done 9 m3.
Proof.
  assert (Forall (λ k, eqk demo_cmp k k) [136; 42]) as Hks
    by (by repeat constructor).
  split; [apply demo_rep|]. split; [done|]. split; [done|]. split; [done|].
  destruct (value_stability demo_mem 100 demo_table demo_bs demo_cmp demo_hash
              35 9 [136; 42] demo_rep (conj eq_refl eq_refl) eq_refl Hks)
    as (p & m1 & m2 & rs & m3 & Hw & Hread & Hruns).
  destruct (Hruns 6%nat ltac:(vm_compute; lia)) as (H1 & H2 & H3 & H4).
  by exists p, m1, m2, rs, m3.
Defined.

(** C3: [HashTable_Destroy] on a ready table returns, and by then
    [onRemove], when one was supplied, has been called once per entry, in
    bucket order and chain order, each call on the address of that entry's
    own pair, which held the entry's key and element; with no [onRemove] no
    call is made.  Every node, every pair and the bucket array are freed,
    and [HashTable_Ready] returns false afterwards. *)
Theorem HashTable_Destroy_complete m tp t bs (fuel : nat) :
  table_rep m tp t bs → is_Some (tbl_hash t) →
  (entry_count bs < fuel)%nat →
  ∃ m', HashTable_Destroy fuel tp m = Done tt m' ∧
        removed m' =
          removed m ++ (match tbl_onRemove t with
                        | Some _ => release_call <$> concat bs
                        | None => []
                        end) ∧
        NoDup (fst <$> (release_call <$> concat bs)) ∧
        Forall (λ c, pairs m !! c.1 = Some c.2) (release_call <$> concat bs) ∧
        (∀ e, e ∈ concat bs →
              lists m' !! e_node e = None ∧ pairs m' !! e_pair e = None) ∧
        arrays m' !! tbl_hashListArr t = None ∧
        HashTable_Ready tp m' = Done 0 m'.
Proof.
  intros Hrep Hh Hf.
  assert (HashTable_Destroy fuel tp m = Done tt (destroyed tp t bs m)) as Hd.
  { apply Destroy_spec; [done|done|]. by apply length_bucket_lt. }
  exists (destroyed tp t bs m). split; [done|].
  split; [|split; [|split; [|split; [|split]]]].
  - unfold destroyed. stores. rewrite release_all_removed.
    unfold has_callback. by destruct (tbl_onRemove t).
  - rewrite <- list_fmap_compose.
    apply (rep_pairs _ _ _ _ Hrep).
  - apply Forall_fmap. apply Forall_forall. intros e He. simpl.
    destruct (elem_of_concat _ _ He) as (i & es & Hi & Hes).
    pose proof (proj1 (Forall_lookup _ _) (rep_chains _ _ _ _ Hrep) i es Hi) as Hc.
    by destruct (chain_elem _ _ _ Hc Hes) as (_ & _ & Hp).
  - intros e He. unfold destroyed. stores.
    rewrite release_all_lists, release_all_pairs.
    rewrite !decide_True; [done| |]; by apply list_elem_of_fmap_2.
  - unfold destroyed. stores. apply lookup_delete_eq.
  - by eapply Destroy_clears_sentinel.
Qed.

Lemma HashTable_Destroy_complete_witness :
  table_rep demo_mem 100 demo_table demo_bs ∧
  is_Some (tbl_hash demo_table) ∧
  (entry_count demo_bs < 3)%nat ∧
  ∃ m', HashTable_Destroy 3 100 demo_mem = Done tt m' ∧
        removed m' = [(1002, mkHashPair 42 7); (1004, mkHashPair 143 8)].
Proof.
  assert (entry_count demo_bs < 3)%nat as Hf by (vm_compute; lia).
  split; [apply demo_rep|]. split; [by eexists|]. split; [done|].
  destruct (HashTable_Destroy_complete demo_mem 100 demo_table demo_bs 3
              demo_rep (ex_intro _ demo_hash eq_refl) Hf)
    as (m' & Hd & Hlog & _).
  exists m'. split; [done|]. rewrite Hlog. reflexivity.
Defined.

(** C4: on a ready table in which no entry has a key equal to [key],
    [HashTable_At] returns; the entry [new_entry m key] (key [key], element
    zero) has been appended at the tail of the chain of [key]'s bucket, the
    other chains are as before, the table has one entry more, and the
    reference returned is that of the new entry's element, which reads
    zero. *)
Theorem HashTable_At_insert m tp t bs c h key (fuel : nat) :
  table_rep m tp t bs → ready_with c h t →
  eqk c key key →
  (∀ e, e ∈ concat bs → ¬ eqk c key (e_key e)) →
  (length (bucket bs (bucket_of h key)) < fuel)%nat →
  ∃ m' bs',
    HashTable_At fuel tp key m = Done (RElement (e_pair (new_entry m key))) m' ∧
    table_rep m' tp t bs' ∧
    bs' = <[bucket_of h key := bucket bs (bucket_of h key) ++ [new_entry m key]]> bs ∧
    entry_count bs' = S (entry_count bs) ∧
    e_key (new_entry m key) = key ∧
    read_ref (RElement (e_pair (new_entry m key))) m' = Done 0 m'.
Proof.
  intros Hrep Hr Hrefl Hmiss Hf.
  destruct (rep_bucket m tp t bs (bucket_of h key) Hrep (bucket_index_lt _))
    as (Hb & _ & _).
  assert (find_entry c key (bucket bs (bucket_of h key)) = None) as Hfind.
  { apply find_entry_None. intros e He. apply Hmiss.
    by eapply elem_of_concat_lookup. }
  destruct (At_spec m tp t bs c h key fuel Hrep Hr (λ _, Hrefl) Hf)
    as (m' & Hat & Hrep' & _).
  unfold at_entry, at_buckets in Hat, Hrep'. rewrite Hfind in Hat, Hrep'.
  eexists m', _. split; [done|]. split; [done|]. split; [done|].
  split; [|split; [done|]].
  - unfold entry_count. by rewrite concat_insert_snoc.
  - assert (new_entry m key ∈ concat
      (<[bucket_of h key := bucket bs (bucket_of h key) ++ [new_entry m key]]> bs))
      as Hin.
    { rewrite concat_insert_snoc by done. left. }
    destruct (elem_of_concat _ _ Hin) as (i & es & Hi & Hes).
    pose proof (proj1 (Forall_lookup _ _) (rep_chains _ _ _ _ Hrep') i es Hi) as Hc.
    destruct (chain_elem _ _ _ Hc Hes) as (_ & _ & Hp).
    unfold read_ref. by rewrite (bind_load_pair _ _ _ _ Hp).
Qed.

Lemma HashTable_At_insert_witness :
  table_rep demo_mem 100 demo_table demo_bs ∧
  ready_with demo_cmp demo_hash demo_table ∧
  eqk demo_cmp 244 244 ∧
  (∀ e, e ∈ concat demo_bs → ¬ eqk demo_cmp 244 (e_key e)) ∧
  (length (bucket demo_bs (bucket_of demo_hash 244)) < 3)%nat ∧
  ∃ m' bs',
    HashTable_At 3 100 244 demo_mem = Done (RElement 1006) m' ∧
    table_rep m' 100 demo_table bs' ∧
    entry_count bs' = 3%nat.
Proof.
  assert (∀ e, e ∈ concat demo_bs → ¬ eqk demo_cmp 244 (e_key e)) as Hmiss.
  { apply Forall_forall. apply (bool_decide_unpack _). by vm_compute. }
  assert (length (bucket demo_bs (bucket_of demo_hash 244)) < 3)%nat as Hf.
  { vm_compute. lia. }
  split; [apply demo_rep|]. split; [done|]. split; [done|].
  split; [done|]. split; [done|].
  destruct (HashTable_At_insert demo_mem 100 demo_table demo_bs demo_cmp
              demo_hash 244 3 demo_rep (conj eq_refl eq_refl) eq_refl Hmiss Hf)
    as (m' & bs' & Hat & Hrep & _ & Hn & _).
  exists m', bs'. split; [done|]. split; [done|]. rewrite Hn. reflexivity.
Defined.

(** C5: [HashTable_Has] and [HashTable_At] both work on the chain of the
    bucket at index [hash(key) mod 101], the hash read as an unsigned int:
    the lookup returns the first match of that chain, the insertion changes
    no other bucket and returns an entry of that bucket.  The bucket array
    has the 101 slots [HashTable_Init] gives it, before and after. *)
Theorem bucket_selection m tp t bs c h key (fuel : nat) :
  table_rep m tp t bs → ready_with c h t →
  eqk c key key →
  (length (bucket bs (bucket_of h key)) < fuel)%nat →
  bucket_of h key = Z.to_nat ((h key mod 2 ^ 32) mod 101) ∧
  (0 ≤ h key < 2 ^ 32 → bucket_of h key = Z.to_nat (h key mod 101)) ∧
  (bucket_of h key < 101)%nat ∧
  HashTable_Has fuel tp key m =
    Done (found_ref (find_entry c key (bucket bs (bucket_of h key)))) m ∧
  (∃ m' bs' e,
    HashTable_At fuel tp key m = Done (RElement (e_pair e)) m' ∧
    table_rep m' tp t bs' ∧
    e ∈ bucket bs' (bucket_of h key) ∧
    (∀ j, j ≠ bucket_of h key → bs' !! j = bs !! j) ∧
    length bs = 101%nat ∧ length bs' = 101%nat ∧
    (∃ a, arrays m !! tbl_hashListArr t = Some a ∧ length a = 101%nat) ∧
    (∃ a, arrays m' !! tbl_hashListArr t = Some a ∧ length a = 101%nat)) ∧
  (∀ m0 t0 cmp0 hash0 onRemove0,
     tables m0 !! tp = Some t0 → 0 < brk m0 →
     ∃ m1 t1,
       HashTable_Init tp cmp0 hash0 onRemove0 m0 = Done tp m1 ∧
       tables m1 !! tp = Some t1 ∧
       arrays m1 !! tbl_hashListArr t1 = Some (replicate 101 NULL)).
Proof.
  intros Hrep Hr Hrefl Hf.
  split; [done|].
  split.
  { intros Hrange. unfold bucket_of, bucket_index, to_uint.
    by rewrite (Z.mod_small (h key)). }
  split; [apply (bucket_index_lt _)|].
  split; [by apply (Has_spec m tp t bs)|].
  destruct (rep_bucket m tp t bs (bucket_of h key) Hrep (bucket_index_lt _))
    as (Hb & _ & _).
  split.
  - destruct (At_spec m tp t bs c h key fuel Hrep Hr (λ _, Hrefl) Hf)
      as (m' & Hat & Hrep' & _).
    exists m', (at_buckets c h key m bs), (at_entry c h key m bs).
    split; [done|]. split; [done|].
    pose proof (rep_size _ _ _ _ Hrep) as Hsz.
    pose proof (rep_size _ _ _ _ Hrep') as Hsz'.
    split; [|split; [|split; [done|split; [done|split]]]].
    + unfold at_entry, at_buckets, bucket.
      destruct (find_entry c key (default [] (bs !! bucket_of h key)))
        as [e|] eqn:Hfind.
      * by apply find_entry_Some in Hfind as [He _].
      * rewrite list_lookup_insert_eq by (by eapply lookup_lt_Some).
        simpl. apply elem_of_app. right. left.
    + intros j Hj. unfold at_buckets.
      destruct (find_entry c key (bucket bs (bucket_of h key))); [done|].
      by rewrite list_lookup_insert_ne.
    + rewrite (rep_array _ _ _ _ Hrep). eexists. split; [done|].
      by rewrite length_fmap.
    + rewrite (rep_array _ _ _ _ Hrep'). eexists. split; [done|].
      by rewrite length_fmap.
  - intros m0 t0 cmp0 hash0 onRemove0 Ht0 Hpos.
    destruct (Init_spec m0 tp t0 cmp0 hash0 onRemove0
                (rep_nonnull _ _ _ _ Hrep) Ht0 Hpos) as (m1 & Hinit & Hrep1 & _).
    exists m1, (mkHashTable (brk m0) cmp0 hash0 onRemove0).
    split; [done|]. split; [apply (rep_table _ _ _ _ Hrep1)|].
    rewrite (rep_array _ _ _ _ Hrep1). by rewrite fmap_replicate.
Qed.

Lemma bucket_selection_witness :
  table_rep demo_mem 100 demo_table demo_bs ∧
  ready_with demo_cmp demo_hash demo_table ∧
  eqk demo_cmp 143 143 ∧
  (length (bucket demo_bs (bucket_of demo_hash 143)) < 3)%nat ∧
  bucket_of demo_hash 143 = 42%nat ∧
  HashTable_Has 3 100 143 demo_mem = Done (RElement 1004) demo_mem.
Proof.
  assert (length (bucket demo_bs (bucket_of demo_hash 143)) < 3)%nat as Hf.
  { vm_compute. lia. }
  split; [apply demo_rep|]. split; [done|]. split; [done|]. split; [done|].
  destruct (bucket_selection demo_mem 100 demo_table demo_bs demo_cmp
              demo_hash 143 3 demo_rep (conj eq_refl eq_refl) eq_refl Hf)
    as (Hb & _ & _ & Hhas & _).
  split; [reflexivity|]. rewrite Hhas. reflexivity.
Defined.

(** C6: when no entry of a ready table has a key equal to [key] by the
    equality strategy, [HashTable_Has] returns null and the store it leaves
    is the store it was given. *)
Theorem HashTable_Has_miss m tp t bs c h key (fuel : nat) :
  table_rep m tp t bs → ready_with c h t →
  (∀ e, e ∈ concat bs → ¬ eqk c key (e_key e)) →
  (length (bucket bs (bucket_of h key)) < fuel)%nat →
  HashTable_Has fuel tp key m = Done RNull m.
Proof.
  intros Hrep Hr Hmiss Hf.
  rewrite (Has_spec m tp t bs c h key fuel Hrep Hr Hf).
  destruct (rep_bucket m tp t bs (bucket_of h key) Hrep (bucket_index_lt _))
    as (Hb & _ & _).
  assert (find_entry c key (bucket bs (bucket_of h key)) = None) as ->; [|done].
  apply find_entry_None. intros e He. apply Hmiss.
  by eapply elem_of_concat_lookup.
Qed.

Lemma HashTable_Has_miss_witness :
  table_rep demo_mem 100 demo_table demo_bs ∧
  ready_with demo_cmp demo_hash demo_table ∧
  (∀ e, e ∈ concat demo_bs → ¬ eqk demo_cmp 244 (e_key e)) ∧
  (length (bucket demo_bs (bucket_of demo_hash 244)) < 3)%nat ∧
  HashTable_Has 3 100 244 demo_mem = Done RNull demo_mem.
Proof.
  assert (∀ e, e ∈ concat demo_bs → ¬ eqk demo_cmp 244 (e_key e)) as Hmiss.
  { apply Forall_forall. apply (bool_decide_unpack _). by vm_compute. }
  assert (length (bucket demo_bs (bucket_of demo_hash 244)) < 3)%nat as Hf.
  { vm_compute. lia. }
  split; [apply demo_rep|]. split; [done|]. split; [done|]. split; [done|].
  apply (HashTable_Has_miss demo_mem 100 demo_table demo_bs demo_cmp demo_hash 244 3);
    [apply demo_rep|done|done|done].
Defined.

(** C7: [HashTable_Ready] returns true exactly when the table at [tp] holds a
    non-null hash strategy; it returns false for the all-zero table and for
    a table [HashTable_Destroy] has returned from (which it does on every
    well-formed table); it never changes the store. *)
Theorem HashTable_Ready_sentinel m tp t :
  tp ≠ NULL → tables m !! tp = Some t →
  (∃ r, HashTable_Ready tp m = Done r m ∧ (r ≠ 0 ↔ tbl_hash t ≠ None)) ∧
  (t = zero_table → HashTable_Ready tp m = Done 0 m) ∧
  (∀ (fuel : nat) m', HashTable_Destroy fuel tp m = Done tt m' →
                      HashTable_Ready tp m' = Done 0 m') ∧
  (∀ bs, table_rep m tp t bs → is_Some (tbl_hash t) →
         ∃ (fuel : nat) m', HashTable_Destroy fuel tp m = Done tt m' ∧
                            HashTable_Ready tp m' = Done 0 m').
Proof.
  intros Hn Ht. repeat split.
  - eexists. split; [by apply Ready_spec|].
    destruct (tbl_hash t); split; done.
  - intros ->. by rewrite (Ready_spec m tp zero_table).
  - intros fuel m'. apply Destroy_clears_sentinel.
  - intros bs Hrep Hh.
    exists (S (length (concat bs))), (destroyed tp t bs m).
    assert (HashTable_Destroy (S (length (concat bs))) tp m =
            Done tt (destroyed tp t bs m)) as Hd.
    { apply Destroy_spec; [done|done|apply length_bucket_le]. }
    split; [done|]. by eapply Destroy_clears_sentinel.
Qed.

Lemma HashTable_Ready_sentinel_witness :
  100 ≠ NULL ∧ tables demo_mem !! 100 = Some demo_table ∧
  (∃ r, HashTable_Ready 100 demo_mem = Done r demo_mem ∧
        (r ≠ 0 ↔ tbl_hash demo_table ≠ None)).
Proof.
  split; [done|]. split; [reflexivity|].
  apply (HashTable_Ready_sentinel demo_mem 100 demo_table); [done|reflexivity].
Defined.

(** C8: on a table that is not ready, [HashTable_Destroy] returns at once
    and leaves the whole store as it was: no callback is logged, nothing is
    freed, no field is written.  The all-zero table is such a table. *)
Theorem HashTable_Destroy_not_ready (fuel : nat) m tp t :
  tables m !! tp = Some t → tbl_hash t = None →
  HashTable_Ready tp m = Done 0 m ∧
  HashTable_Destroy fuel tp m = Done tt m ∧
  (t = zero_table → HashTable_Destroy fuel tp m = Done tt m).
Proof.
  intros Ht Hh.
  assert (HashTable_Ready tp m = Done 0 m) as Hr.
  { unfold HashTable_Ready. case_decide; [done|].
    rewrite (bind_load_table _ _ _ _ Ht). by rewrite Hh. }
  assert (HashTable_Destroy fuel tp m = Done tt m) as Hd.
  { unfold HashTable_Destroy. case_decide; [done|].
    rewrite (bind_Done _ _ _ _ _ Hr). cbv beta. by rewrite decide_True. }
  done.
Qed.

Lemma HashTable_Destroy_not_ready_witness :
  tables (mkMem {[ 100 := zero_table ]} ∅ ∅ ∅ 1000 []) !! 100 = Some zero_table ∧
  tbl_hash zero_table = None ∧
  HashTable_Destroy 5 100 (mkMem {[ 100 := zero_table ]} ∅ ∅ ∅ 1000 []) =
    Done tt (mkMem {[ 100 := zero_table ]} ∅ ∅ ∅ 1000 []).
Proof.
  split; [reflexivity|]. split; [reflexivity|].
  apply (HashTable_Destroy_not_ready 5 _ 100 zero_table); reflexivity.
Defined.

(** C9: given the null table reference, [HashTable_Ready] returns false and
    [HashTable_Destroy] does nothing, in every store; reading the table
    through that reference would fault wherever nothing is mapped at
    [NULL]. *)
Theorem null_table_reference (fuel : nat) m :
  HashTable_Ready NULL m = Done 0 m ∧
  HashTable_Destroy fuel NULL m = Done tt m ∧
  (tables m !! NULL = None → load_table NULL m = Fault).
Proof.
  split; [done|]. split; [done|].
  intros H. unfold load_table, reading. by rewrite H.
Qed.

Lemma null_table_reference_witness :
  tables demo_mem !! NULL = None ∧
  HashTable_Ready NULL demo_mem = Done 0 demo_mem ∧
  HashTable_Destroy 3 NULL demo_mem = Done tt demo_mem ∧
  load_table NULL demo_mem = Fault.
Proof.
  destruct (null_table_reference 3 demo_mem) as (Hr & Hd & Hf).
  split; [reflexivity|]. split; [done|]. split; [done|].
  apply Hf. reflexivity.
Defined.

(** C10, as the code has it: on a ready table [HashTable_At] returns exactly
    when the strategy finds [key] equal to itself or to the key of an entry
    already in its chain; otherwise every appended node fails the test in
    turn and no budget suffices.  A run that returns has made at most one
    pass over the chain (the chain's length plus one iterations are enough)
    and has added at most one entry. *)
Theorem HashTable_At_termination m tp t bs c h key :
  table_rep m tp t bs → ready_with c h t →
  ((∃ (fuel : nat) r m', HashTable_At fuel tp key m = Done r m') ↔
   (eqk c key key ∨
    ∃ e, e ∈ bucket bs (bucket_of h key) ∧ eqk c key (e_key e))) ∧
  (¬ eqk c key key →
   (∀ e, e ∈ bucket bs (bucket_of h key) → ¬ eqk c key (e_key e)) →
   ∀ fuel : nat, HashTable_At fuel tp key m = Timeout) ∧
  (∀ (fuel : nat) r m', HashTable_At fuel tp key m = Done r m' →
     HashTable_At (S (length (bucket bs (bucket_of h key)))) tp key m = Done r m' ∧
     ∃ bs', table_rep m' tp t bs' ∧ (entry_count bs' ≤ S (entry_count bs))%nat).
Proof.
  intros Hrep Hr.
  destruct (rep_bucket m tp t bs (bucket_of h key) Hrep (bucket_index_lt _))
    as (Hb & _ & _).
  assert (∀ (fuel : nat) r m', HashTable_At fuel tp key m = Done r m' →
            find_entry c key (bucket bs (bucket_of h key)) = None →
            eqk c key key) as Hnec.
  { intros fuel r m' Hrun Hfind.
    destruct (decide (eqk c key key)) as [|Hirr]; [done|].
    by rewrite (At_diverges m tp t bs c h key fuel Hrep Hr Hirr Hfind) in Hrun. }
  split; [split|split].
  - intros (fuel & r & m' & Hrun).
    destruct (find_entry c key (bucket bs (bucket_of h key))) as [e|] eqn:Hfind.
    + right. exists e. by apply find_entry_Some.
    + left. by eapply Hnec.
  - intros Hcond.
    destruct (At_spec m tp t bs c h key
                (S (length (bucket bs (bucket_of h key)))) Hrep Hr)
      as (m' & Hat & _); [|lia|by eauto].
    intros Hfind. destruct Hcond as [|(e & He & Heq)]; [done|].
    by destruct (proj1 (find_entry_None c key _) Hfind e He).
  - intros Hirr Hmiss fuel.
    apply (At_diverges m tp t bs c h key fuel Hrep Hr Hirr).
    by apply find_entry_None.
  - intros fuel r m' Hrun.
    destruct (At_spec m tp t bs c h key
                (S (length (bucket bs (bucket_of h key)))) Hrep Hr)
      as (m0 & Hat & Hrep0 & _); [by eapply Hnec|lia|].
    pose proof (At_fuel_mono _ (fuel + S (length (bucket bs (bucket_of h key))))
                  _ _ _ _ _ Hrun ltac:(lia)) as H1.
    pose proof (At_fuel_mono _ (fuel + S (length (bucket bs (bucket_of h key))))
                  _ _ _ _ _ Hat ltac:(lia)) as H2.
    rewrite H1 in H2. injection H2 as -> ->.
    split; [done|]. eexists. split; [done|].
    unfold at_buckets, entry_count.
    destruct (find_entry c key (bucket bs (bucket_of h key))); [lia|].
    rewrite concat_insert_snoc by done. simpl. lia.
Qed.

Lemma HashTable_At_termination_witness :
  table_rep demo_mem 100 demo_table demo_bs ∧
  ready_with demo_cmp demo_hash demo_table ∧
  ((∃ (fuel : nat) r m', HashTable_At fuel 100 244 demo_mem = Done r m') ↔
   (eqk demo_cmp 244 244 ∨
    ∃ e, e ∈ bucket demo_bs (bucket_of demo_hash 244) ∧
         eqk demo_cmp 244 (e_key e))).
Proof.
  split; [apply demo_rep|]. split; [done|].
  apply (HashTable_At_termination demo_mem 100 demo_table demo_bs
           demo_cmp demo_hash 244 demo_rep (conj eq_refl eq_refl)).
Defined.

(** C10 as stated fails: with [cx_cmp], on a table whose one chain holds the
    single key 5, [HashTable_At] on 106 returns the entry of key 5 after one
    iteration and adds nothing, although [cx_cmp 106 106] is not zero. *)
Lemma reflexivity_not_necessary :
  table_rep cx_mem 100 cx_table cx_bs ∧
  ready_with cx_cmp demo_hash cx_table ∧
  one_per_key cx_cmp cx_bs ∧
  HashTable_At 1 100 106 cx_mem = Done (RElement 1002) cx_mem ∧
  ¬ ((∃ (fuel : nat) r m' bs',
        HashTable_At fuel 100 106 cx_mem = Done r m' ∧
        table_rep m' 100 cx_table bs' ∧
        (entry_count bs' ≤ S (entry_count cx_bs))%nat) ↔
     eqk cx_cmp 106 106).
Proof.
  assert (HashTable_At 1 100 106 cx_mem = Done (RElement 1002) cx_mem) as Hrun
    by (by vm_compute).
  split; [apply cx_rep|]. split; [done|]. split; [apply cx_one_per_key|].
  split; [done|].
  intros [Hto _].
  assert (¬ eqk cx_cmp 106 106) as Hirr by (by vm_compute).
  apply Hirr, Hto.
  exists 1%nat, (RElement 1002), cx_mem, cx_bs.
  split; [done|]. split; [apply cx_rep|]. lia.
Qed.

(** * Further properties of the code *)

(** ** Initialisation and the readiness sentinel *)

Lemma Init_store m tp t0 cmp hash onRemove :
  tables m !! tp = Some t0 →
  HashTable_Init tp cmp hash onRemove m =
    Done tp (initialised tp cmp hash onRemove m).
Proof.
  intros Ht. unfold HashTable_Init, store_table.
  erewrite bind_writing by (unfold write_table; by rewrite Ht).
  cbv beta.
  erewrite bind_writing
    by (unfold write_table; stores; by rewrite lookup_insert_eq).
  cbv beta.
  erewrite bind_writing
    by (unfold write_table; stores; by rewrite lookup_insert_eq).
  cbv beta.
  erewrite (bind_Done (calloc_buckets HASHSIZE)) by reflexivity.
  cbv beta.
  erewrite bind_writing
    by (unfold write_table; stores; by rewrite lookup_insert_eq).
  unfold ret, initialised. stores. f_equal. f_equal.
  rewrite !insert_insert_eq. by destruct t0.
Qed.

Lemma initialised_rep m tp cmp hash onRemove :
  tp ≠ NULL → 0 < brk m →
  table_rep (initialised tp cmp hash onRemove m) tp
    (mkHashTable (brk m) cmp hash onRemove) (replicate HASHSIZE []).
Proof.
  intros Hn Hpos. split; unfold initialised; fields.
  - done.
  - apply lookup_insert_eq.
  - rewrite lookup_insert_eq. by rewrite fmap_replicate.
  - by rewrite length_replicate.
  - by apply Forall_replicate.
  - rewrite concat_replicate_nil. constructor.
  - rewrite concat_replicate_nil. constructor.
  - rewrite concat_replicate_nil. constructor.
  - lia.
Qed.

Lemma bucket_replicate_nil (n i : nat) : bucket (replicate n []) i = [].
Proof.
  unfold bucket. destruct (replicate n [] !! i) as [es|] eqn:Hi; [|done].
  by apply lookup_replicate in Hi as [-> _].
Qed.

(** Neither lookup function tests the sentinel: on a table whose hash
    field is null the call through it is undefined. *)
Lemma not_ready_faults (fuel : nat) m tp t key :
  tables m !! tp = Some t → tbl_hash t = None →
  HashTable_Has fuel tp key m = Fault ∧ HashTable_At fuel tp key m = Fault.
Proof.
  intros Ht Hh. unfold HashTable_Has, HashTable_At.
  rewrite !(bind_load_table _ _ _ _ Ht). by rewrite Hh.
Qed.

Lemma Destroy_noop (fuel : nat) m tp t :
  tables m !! tp = Some t → tbl_hash t = None →
  HashTable_Destroy fuel tp m = Done tt m.
Proof.
  intros Ht Hh. unfold HashTable_Destroy. case_decide; [done|].
  erewrite bind_Done by (by apply Ready_spec).
  cbv beta. rewrite Hh. by rewrite decide_True.
Qed.

(** X1: [HashTable_Init] with non-null strategies returns the pointer it was
    given and leaves, whatever the struct held before, a ready table in
    which every lookup misses; it allocates the bucket array and nothing
    else, touching no node, no pair and not the callback log. *)
Theorem Init_fresh_table m tp t0 c h r :
  tp ≠ NULL → tables m !! tp = Some t0 → 0 < brk m →
  ∃ m', HashTable_Init tp (Some c) (Some h) r m = Done tp m' ∧
        HashTable_Ready tp m' = Done 1 m' ∧
        (∀ (fuel : nat) key, (0 < fuel)%nat →
                             HashTable_Has fuel tp key m' = Done RNull m') ∧
        table_rep m' tp (mkHashTable (brk m) (Some c) (Some h) r)
          (replicate HASHSIZE []) ∧
        lists m' = lists m ∧ pairs m' = pairs m ∧
        removed m' = removed m ∧ brk m' = brk m + 1.
Proof.
  intros Hn Ht Hpos.
  exists (initialised tp (Some c) (Some h) r m).
  pose proof (initialised_rep m tp (Some c) (Some h) r Hn Hpos) as Hrep.
  split; [by eapply Init_store|].
  split; [by rewrite (Ready_spec _ _ _ Hn (rep_table _ _ _ _ Hrep))|].
  split; [|done].
  intros fuel key Hf.
  rewrite (Has_spec _ _ _ _ c h key fuel Hrep (conj eq_refl eq_refl)).
  - by rewrite bucket_replicate_nil.
  - rewrite bucket_replicate_nil. simpl. lia.
Qed.

Lemma Init_fresh_table_witness :
  100 ≠ NULL ∧ tables demo_mem !! 100 = Some demo_table ∧ 0 < brk demo_mem ∧
  ∃ m', HashTable_Init 100 (Some eq_cmp) (Some demo_hash) None demo_mem =
          Done 100 m' ∧
        HashTable_Has 1 100 42 m' = Done RNull m'.
Proof.
  split; [done|]. split; [reflexivity|]. split; [done|].
  destruct (Init_fresh_table demo_mem 100 demo_table eq_cmp demo_hash None)
    as (m' & Hinit & _ & Hhas & _); [done|reflexivity|done|].
  exists m'. split; [done|]. apply Hhas. lia.
Defined.

(** X2: [HashTable_Init] does not look at the strategies it stores.  Given a
    null hash strategy it still allocates the bucket array, but the table
    is then not ready: [HashTable_Destroy] returns without freeing that
    array, and [HashTable_Has] and [HashTable_At] fault. *)
Theorem Init_null_hash m tp t0 cmp r (fuel : nat) key :
  tp ≠ NULL → tables m !! tp = Some t0 →
  ∃ m', HashTable_Init tp cmp None r m = Done tp m' ∧
        arrays m' !! brk m = Some (replicate HASHSIZE NULL) ∧
        HashTable_Ready tp m' = Done 0 m' ∧
        HashTable_Destroy fuel tp m' = Done tt m' ∧
        HashTable_Has fuel tp key m' = Fault ∧
        HashTable_At fuel tp key m' = Fault.
Proof.
  intros Hn Ht.
  exists (initialised tp cmp None r m).
  assert (tables (initialised tp cmp None r m) !! tp =
          Some (mkHashTable (brk m) cmp None r)) as Ht'
    by apply lookup_insert_eq.
  split; [by eapply Init_store|].
  split; [apply lookup_insert_eq|].
  split; [by rewrite (Ready_spec _ _ _ Hn Ht')|].
  split; [by eapply Destroy_noop|].
  by eapply not_ready_faults.
Qed.

Lemma Init_null_hash_witness :
  100 ≠ NULL ∧
  tables (mkMem {[ 100 := zero_table ]} ∅ ∅ ∅ 1000 []) !! 100 = Some zero_table ∧
  ∃ m', HashTable_Init 100 (Some eq_cmp) None None
          (mkMem {[ 100 := zero_table ]} ∅ ∅ ∅ 1000 []) = Done 100 m' ∧
        arrays m' !! 1000 = Some (replicate HASHSIZE NULL) ∧
        HashTable_Destroy 3 100 m' = Done tt m'.
Proof.
  split; [done|]. split; [reflexivity|].
  destruct (Init_null_hash (mkMem {[ 100 := zero_table ]} ∅ ∅ ∅ 1000 [])
              100 zero_table (Some eq_cmp) None 3 42)
    as (m' & Hinit & Harr & _ & Hd & _); [done|reflexivity|].
  by exists m'.
Defined.

(** X3: after [HashTable_Destroy] the table must not be looked up:
    [HashTable_Has] and [HashTable_At] call through the cleared hash
    pointer and fault, for every key; so they do on any table whose hash
    field is null, the all-zero table included. *)
Theorem lookup_after_Destroy m tp t bs (fuel : nat) :
  table_rep m tp t bs → is_Some (tbl_hash t) →
  (entry_count bs < fuel)%nat →
  ∃ m', HashTable_Destroy fuel tp m = Done tt m' ∧
        (∀ (fuel' : nat) key,
           HashTable_Has fuel' tp key m' = Fault ∧
           HashTable_At fuel' tp key m' = Fault) ∧
        (∀ (fuel' : nat) key m0 t0,
           tables m0 !! tp = Some t0 → tbl_hash t0 = None →
           HashTable_Has fuel' tp key m0 = Fault ∧
           HashTable_At fuel' tp key m0 = Fault).
Proof.
  intros Hrep Hh Hf.
  exists (destroyed tp t bs m).
  split; [apply Destroy_spec; [done|done|by apply length_bucket_lt]|].
  split.
  - intros fuel' key.
    apply (not_ready_faults fuel' _ tp (set_hash None t)); [|done].
    unfold destroyed. stores. apply lookup_insert_eq.
  - intros fuel' key m0 t0. apply not_ready_faults.
Qed.

Lemma lookup_after_Destroy_witness :
  table_rep demo_mem 100 demo_table demo_bs ∧
  is_Some (tbl_hash demo_table) ∧ (entry_count demo_bs < 3)%nat ∧
  ∃ m', HashTable_Destroy 3 100 demo_mem = Done tt m' ∧
        HashTable_Has 3 100 42 m' = Fault ∧
        HashTable_At 3 100 42 m' = Fault.
Proof.
  assert (entry_count demo_bs < 3)%nat as Hf by (vm_compute; lia).
  split; [apply demo_rep|]. split; [by eexists|]. split; [done|].
  destruct (lookup_after_Destroy demo_mem 100 demo_table demo_bs 3
              demo_rep (ex_intro _ demo_hash eq_refl) Hf)
    as (m' & Hd & Hfault & _).
  exists m'. split; [done|]. apply Hfault.
Defined.

(** X4: a second [HashTable_Destroy] is harmless: after the first one
    returns, any further call returns at once with the store unchanged, so
    nothing is freed twice and [onRemove] is not called again. *)
Theorem Destroy_twice m tp t bs (fuel : nat) :
  table_rep m tp t bs → is_Some (tbl_hash t) →
  (entry_count bs < fuel)%nat →
  ∃ m', HashTable_Destroy fuel tp m = Done tt m' ∧
        ∀ fuel' : nat, HashTable_Destroy fuel' tp m' = Done tt m'.
Proof.
  intros Hrep Hh Hf.
  exists (destroyed tp t bs m).
  split; [apply Destroy_spec; [done|done|by apply length_bucket_lt]|].
  intros fuel'. apply (Destroy_noop fuel' _ tp (set_hash None t)); [|done].
  unfold destroyed. stores. apply lookup_insert_eq.
Qed.

Lemma Destroy_twice_witness :
  table_rep demo_mem 100 demo_table demo_bs ∧
  is_Some (tbl_hash demo_table) ∧ (entry_count demo_bs < 3)%nat ∧
  ∃ m', HashTable_Destroy 3 100 demo_mem = Done tt m' ∧
        HashTable_Destroy 3 100 m' = Done tt m' ∧
        removed m' = [(1002, mkHashPair 42 7); (1004, mkHashPair 143 8)].
Proof.
  assert (entry_count demo_bs < 3)%nat as Hf by (vm_compute; lia).
  split; [apply demo_rep|]. split; [by eexists|]. split; [done|].
  destruct (Destroy_twice demo_mem 100 demo_table demo_bs 3
              demo_rep (ex_intro _ demo_hash eq_refl) Hf)
    as (m' & Hd & Hagain).
  exists m'. split; [done|]. split; [apply Hagain|].
  assert (Done tt m' = HashTable_Destroy 3 100 demo_mem) as Heq by done.
  vm_compute in Heq. by injection Heq as ->.
Defined.

Lemma release_all_brk b es m : brk (release_all b es m) = brk m.
Proof.
  revert m. induction es as [|e es IH]; intros m; [done|].
  rewrite release_all_cons, IH. by destruct b.
Qed.

Lemma entry_count_replicate_nil (n : nat) : entry_count (replicate n []) = 0%nat.
Proof. unfold entry_count. by rewrite concat_replicate_nil. Qed.

(** X5: [HashTable_Init] after [HashTable_Destroy] gives an empty ready
    table again: every lookup misses, also for the keys the table held, and
    the nodes and pairs of the former entries stay freed. *)
Theorem Init_after_Destroy m tp t bs c' h' r' (fuel : nat) :
  table_rep m tp t bs → is_Some (tbl_hash t) →
  (entry_count bs < fuel)%nat →
  ∃ m1 m2,
    HashTable_Destroy fuel tp m = Done tt m1 ∧
    HashTable_Init tp (Some c') (Some h') r' m1 = Done tp m2 ∧
    table_rep m2 tp (mkHashTable (brk m) (Some c') (Some h') r')
      (replicate HASHSIZE []) ∧
    HashTable_Ready tp m2 = Done 1 m2 ∧
    (∀ key, HashTable_Has fuel tp key m2 = Done RNull m2) ∧
    (∀ e, e ∈ concat bs →
          lists m2 !! e_node e = None ∧ pairs m2 !! e_pair e = None).
Proof.
  intros Hrep Hh Hf.
  set (m1 := destroyed tp t bs m).
  assert (tables m1 !! tp = Some (set_hash None t)) as Ht1
    by (unfold m1, destroyed; stores; apply lookup_insert_eq).
  assert (brk m1 = brk m) as Hbrk
    by (unfold m1, destroyed; stores; apply release_all_brk).
  pose proof (initialised_rep m1 tp (Some c') (Some h') r'
                (rep_nonnull _ _ _ _ Hrep)) as Hrep2.
  rewrite Hbrk in Hrep2. specialize (Hrep2 (rep_brk _ _ _ _ Hrep)).
  exists m1, (initialised tp (Some c') (Some h') r' m1).
  split; [apply Destroy_spec; [done|done|by apply length_bucket_lt]|].
  split; [by eapply Init_store|]. split; [done|].
  split.
  { by rewrite (Ready_spec _ _ _ (rep_nonnull _ _ _ _ Hrep)
                  (rep_table _ _ _ _ Hrep2)). }
  split.
  - intros key.
    rewrite (Has_spec _ _ _ _ c' h' key fuel Hrep2 (conj eq_refl eq_refl)).
    + by rewrite bucket_replicate_nil.
    + rewrite bucket_replicate_nil. simpl. lia.
  - intros e He. unfold initialised, m1, destroyed. stores.
    rewrite release_all_lists, release_all_pairs.
    rewrite !decide_True; [done| |]; by apply list_elem_of_fmap_2.
Qed.

Lemma Init_after_Destroy_witness :
  table_rep demo_mem 100 demo_table demo_bs ∧
  is_Some (tbl_hash demo_table) ∧ (entry_count demo_bs < 3)%nat ∧
  ∃ m1 m2,
    HashTable_Destroy 3 100 demo_mem = Done tt m1 ∧
    HashTable_Init 100 (Some eq_cmp) (Some demo_hash) None m1 = Done 100 m2 ∧
    HashTable_Has 3 100 42 m2 = Done RNull m2.
Proof.
  assert (entry_count demo_bs < 3)%nat as Hf by (vm_compute; lia).
  split; [apply demo_rep|]. split; [by eexists|]. split; [done|].
  destruct (Init_after_Destroy demo_mem 100 demo_table demo_bs
              eq_cmp demo_hash None 3 demo_rep (ex_intro _ demo_hash eq_refl) Hf)
    as (m1 & m2 & Hd & Hi & _ & _ & Hhas & _).
  exists m1, m2. split; [done|]. split; [done|]. apply Hhas.
Defined.



(** ** [HashTable_Has] is a query *)

Lemma reading_same {A} (f : Mem → option A) m a m' :
  reading f m = Done a m' → m' = m.
Proof. unfold reading. destruct (f m); [|done]. by intros [= _ <-]. Qed.

Lemma Has_loop_pure (fuel : nat) : ∀ tp key x m y m',
  Has_loop fuel tp key x m = Done y m' → m' = m.
Proof.
  induction fuel as [|fuel IH]; intros tp key x m y m'; [done|].
  simpl Has_loop. unfold bind, load_loc, load_table, load_list, load_pair.
  destruct (reading (read_loc x) m) as [l m1| |] eqn:H1; [|done|done].
  apply reading_same in H1 as ->.
  case_decide; [by intros [= _ <-]|].
  destruct (reading (λ m0, tables m0 !! tp) m) as [tb m2| |] eqn:H2; [|done|done].
  apply reading_same in H2 as ->.
  destruct (reading (λ m0, lists m0 !! l) m) as [nd m3| |] eqn:H3; [|done|done].
  apply reading_same in H3 as ->.
  destruct (reading (λ m0, pairs m0 !! list_pair nd) m) as [pr m4| |] eqn:H4; [|done|done].
  apply reading_same in H4 as ->.
  destruct (tbl_cmp tb) as [c|]; [|done]. simpl.
  case_decide; [by intros [= _ <-]|]. apply IH.
Qed.

(** X8: [HashTable_Has] never changes anything, on any store, well formed
    or not and whether it hits or misses: when it returns, the store is the
    one it was given (no allocation, no write, no callback). *)
Theorem HashTable_Has_pure (fuel : nat) tp key m r m' :
  HashTable_Has fuel tp key m = Done r m' → m' = m.
Proof.
  unfold HashTable_Has, bind, load_loc, load_table, load_list.
  destruct (reading (λ m0, tables m0 !! tp) m) as [tb m1| |] eqn:H1; [|done|done].
  apply reading_same in H1 as ->.
  destruct (tbl_hash tb) as [h|]; [|done]. simpl.
  destruct (Has_loop fuel tp key _ m) as [y m2| |] eqn:H2; [|done|done].
  apply Has_loop_pure in H2 as ->.
  destruct (reading (read_loc y) m) as [l m3| |] eqn:H3; [|done|done].
  apply reading_same in H3 as ->.
  case_decide; [by intros [= _ <-]|].
  destruct (reading (λ m0, lists m0 !! l) m) as [nd m4| |] eqn:H4; [|done|done].
  apply reading_same in H4 as ->. by intros [= _ <-].
Qed.

Lemma HashTable_Has_pure_witness :
  HashTable_Has 3 100 143 demo_mem = Done (RElement 1004) demo_mem ∧
  demo_mem = demo_mem.
Proof.
  assert (HashTable_Has 3 100 143 demo_mem = Done (RElement 1004) demo_mem)
    as Hrun by (by vm_compute).
  split; [done|].
  apply (HashTable_Has_pure 3 100 143 demo_mem (RElement 1004) demo_mem Hrun).
Defined.

(** ** Lookup and insertion together *)

Lemma find_entry_snoc_None c key es e :
  find_entry c key es = None → ¬ eqk c key (e_key e) →
  find_entry c key (es ++ [e]) = None.
Proof.
  intros Hnone Hne. apply find_entry_None.
  intros e' [He'|He']%elem_of_app.
  - by apply (proj1 (find_entry_None c key es) Hnone).
  - by apply list_elem_of_singleton in He' as ->.
Qed.

Lemma rep_entry m tp t bs e :
  table_rep m tp t bs → e ∈ concat bs →
  pairs m !! e_pair e = Some (mkHashPair (e_key e) (e_elem e)) ∧
  e_node e < brk m ∧ e_pair e < brk m.
Proof.
  intros Hrep He.
  destruct (elem_of_concat _ _ He) as (i & es & Hi & Hes).
  pose proof (proj1 (Forall_lookup _ _) (rep_chains _ _ _ _ Hrep) i es Hi) as Hc.
  destruct (chain_elem _ _ _ Hc Hes) as (_ & _ & Hp).
  split; [done|].
  apply (proj1 (Forall_forall _ _) (rep_below _ _ _ _ Hrep) e He).
Qed.

Lemma read_entry m tp t bs e :
  table_rep m tp t bs → e ∈ concat bs →
  read_ref (RElement (e_pair e)) m = Done (e_elem e) m.
Proof.
  intros Hrep He. destruct (rep_entry _ _ _ _ _ Hrep He) as (Hp & _).
  unfold read_ref. by rewrite (bind_load_pair _ _ _ _ Hp).
Qed.

Lemma bucket_elem bs i e : e ∈ bucket bs i → e ∈ concat bs.
Proof.
  unfold bucket. destruct (bs !! i) as [es|] eqn:Hi; simpl.
  - by apply (elem_of_concat_lookup bs i).
  - by intros ?%elem_of_nil.
Qed.

(** X13: [HashTable_At] is [HashTable_Has] plus insertion on a miss.  When
    the lookup returns a reference, [HashTable_At] returns the same one and
    changes nothing; when the lookup returns null, [HashTable_At] returns
    the reference of a pair no entry had, whose element reads zero, and the
    lookup then returns that reference. *)
Theorem At_extends_Has m tp t bs c h key (fuel : nat) :
  table_rep m tp t bs → ready_with c h t →
  eqk c key key →
  (S (length (bucket bs (bucket_of h key))) < fuel)%nat →
  ∃ r, HashTable_Has fuel tp key m = Done r m ∧
       match r with
       | RElement p => (HashTable_At fuel tp key m = Done (RElement p) m)
       | RNull =>
           (∃ p m', HashTable_At fuel tp key m = Done (RElement p) m' ∧
                    (p ∉ e_pair <$> concat bs) ∧
                    HashTable_Has fuel tp key m' = Done (RElement p) m' ∧
                    read_ref (RElement p) m' = Done 0 m')
       end.
Proof.
  intros Hrep Hr Hrefl Hf.
  assert (bucket_of h key < length bs)%nat as Hlt.
  { rewrite (rep_size _ _ _ _ Hrep). apply bucket_index_lt. }
  eexists. split; [apply (Has_spec m tp t bs c h); [done|done|lia]|].
  destruct (At_spec m tp t bs c h key fuel Hrep Hr (λ _, Hrefl))
    as (m' & Hat & Hrep' & _ & _ & Hsame); [lia|].
  pose proof (find_after_At c h key m bs Hlt (λ _, Hrefl)) as Hfind'.
  unfold at_entry, at_buckets in *.
  destruct (find_entry c key (bucket bs (bucket_of h key))) as [e|] eqn:Hfind;
    simpl.
  - rewrite Hat. f_equal. by apply Hsame.
  - exists (e_pair (new_entry m key)), m'. split; [done|]. split; [|split].
    + intros (e & Heq & He)%list_elem_of_fmap.
      destruct (rep_entry _ _ _ _ _ Hrep He) as (_ & _ & Hb).
      simpl in Heq. lia.
    + rewrite (Has_spec m' tp t _ c h key fuel Hrep' Hr).
      * by rewrite Hfind'.
      * rewrite bucket_insert by done. rewrite length_app. simpl. lia.
    + apply find_entry_Some in Hfind' as [He _].
      apply (read_entry _ _ _ _ _ Hrep' (bucket_elem _ _ _ He)).
Qed.

Lemma At_extends_Has_witness :
  table_rep demo_mem 100 demo_table demo_bs ∧
  ready_with demo_cmp demo_hash demo_table ∧
  eqk demo_cmp 244 244 ∧
  (S (length (bucket demo_bs (bucket_of demo_hash 244))) < 4)%nat ∧
  HashTable_Has 4 100 244 demo_mem = Done RNull demo_mem ∧
  ∃ p m', HashTable_At 4 100 244 demo_mem = Done (RElement p) m' ∧
          HashTable_Has 4 100 244 m' = Done (RElement p) m'.
Proof.
  assert (S (length (bucket demo_bs (bucket_of demo_hash 244))) < 4)%nat as Hf
    by (vm_compute; lia).
  split; [apply demo_rep|]. split; [done|]. split; [done|]. split; [done|].
  destruct (At_extends_Has demo_mem 100 demo_table demo_bs demo_cmp demo_hash
              244 4 demo_rep (conj eq_refl eq_refl) eq_refl Hf)
    as (r & Hhas & Hcase).
  assert (HashTable_Has 4 100 244 demo_mem = Done RNull demo_mem) as Hmiss
    by (by vm_compute).
  split; [done|]. rewrite Hmiss in Hhas. injection Hhas as <-.
  destruct Hcase as (p & m' & Hat & _ & Hhas' & _).
  by exists p, m'.
Defined.

(** X9: [HashTable_At] on one key leaves the lookups of the other keys as
    they were.  A reference [HashTable_Has] returned for [key'] before the
    call is returned after it and still reads the same element; a miss
    stays a miss unless the strategy finds [key'] equal to the inserted
    key. *)
Theorem At_leaves_other_keys m tp t bs c h key key' (fuel : nat) :
  table_rep m tp t bs → ready_with c h t →
  eqk c key key →
  (S (entry_count bs) < fuel)%nat →
  ∃ r m',
    HashTable_At fuel tp key m = Done r m' ∧
    (∀ p, HashTable_Has fuel tp key' m = Done (RElement p) m →
          HashTable_Has fuel tp key' m' = Done (RElement p) m' ∧
          ∃ v, read_ref (RElement p) m = Done v m ∧
               read_ref (RElement p) m' = Done v m') ∧
    (HashTable_Has fuel tp key' m = Done RNull m → ¬ eqk c key' key →
     HashTable_Has fuel tp key' m' = Done RNull m').
Proof.
  intros Hrep Hr Hrefl Hf. unfold entry_count in Hf.
  assert (∀ k, bucket_of h k < length bs)%nat as Hlt.
  { intros k. rewrite (rep_size _ _ _ _ Hrep). apply bucket_index_lt. }
  assert (∀ k, length (bucket bs (bucket_of h k)) ≤ length (concat bs))%nat
    as Hlen.
  { intros k. apply (bucket_length_le bs (bucket_of h k)).
    by apply bucket_lookup. }
  destruct (At_spec m tp t bs c h key fuel Hrep Hr (λ _, Hrefl))
    as (m' & Hat & Hrep' & _); [specialize (Hlen key); lia|].
  pose proof (entry_count_at_buckets c h key m bs (Hlt key)) as Hec.
  unfold entry_count in Hec.
  set (bs' := at_buckets c h key m bs) in *.
  assert (length (bucket bs' (bucket_of h key')) < fuel)%nat as Hf'.
  { assert (bucket_of h key' < length bs')%nat as Hlt'.
    { rewrite (rep_size _ _ _ _ Hrep'). apply bucket_index_lt. }
    pose proof (bucket_length_le bs' _ _ (bucket_lookup bs' _ Hlt')). lia. }
  eexists _, m'. split; [done|].
  rewrite (Has_spec m tp t bs c h key' fuel Hrep Hr)
    by (specialize (Hlen key'); lia).
  rewrite (Has_spec m' tp t bs' c h key' fuel Hrep' Hr Hf').
  destruct (find_entry c key' (bucket bs (bucket_of h key'))) as [e|] eqn:Hfind;
    simpl.
  - split; [|done]. intros p [= <-].
    pose proof (find_entry_at_buckets c h key' key m bs e Hfind) as Hfind'.
    fold bs' in Hfind'. rewrite Hfind'. split; [done|].
    exists (e_elem e). split.
    + apply find_entry_Some in Hfind as [He _].
      apply (read_entry _ _ _ _ _ Hrep (bucket_elem _ _ _ He)).
    + apply find_entry_Some in Hfind' as [He _].
      apply (read_entry _ _ _ _ _ Hrep' (bucket_elem _ _ _ He)).
  - split; [done|]. intros _ Hne.
    assert (find_entry c key' (bucket bs' (bucket_of h key')) = None) as ->;
      [|done].
    unfold bs', at_buckets.
    destruct (find_entry c key (bucket bs (bucket_of h key))); [done|].
    destruct (decide (bucket_of h key = bucket_of h key')) as [Heq|Hneq].
    + rewrite Heq. rewrite bucket_insert by done.
      by apply find_entry_snoc_None.
    + unfold bucket at 1. rewrite list_lookup_insert_ne by done. apply Hfind.
Qed.

Lemma At_leaves_other_keys_witness :
  table_rep demo_mem 100 demo_table demo_bs ∧
  ready_with demo_cmp demo_hash demo_table ∧
  eqk demo_cmp 244 244 ∧ (S (entry_count demo_bs) < 4)%nat ∧
  ∃ r m',
    HashTable_At 4 100 244 demo_mem = Done r m' ∧
    HashTable_Has 4 100 143 m' = Done (RElement 1004) m' ∧
    read_ref (RElement 1004) m' = Done 8 m'.
Proof.
  assert (S (entry_count demo_bs) < 4)%nat as Hf by (vm_compute; lia).
  split; [apply demo_rep|]. split; [done|]. split; [done|]. split; [done|].
  destruct (At_leaves_other_keys demo_mem 100 demo_table demo_bs demo_cmp
              demo_hash 244 143 4 demo_rep (conj eq_refl eq_refl) eq_refl Hf)
    as (r & m' & Hat & Hkeep & _).
  assert (HashTable_Has 4 100 143 demo_mem = Done (RElement 1004) demo_mem)
    as Hhit by (by vm_compute).
  destruct (Hkeep 1004 Hhit) as (Hhas' & v & Hv & Hv').
  exists r, m'. split; [done|]. split; [done|].
  assert (read_ref (RElement 1004) demo_mem = Done 8 demo_mem) as Hv8
    by (by vm_compute).
  rewrite Hv8 in Hv. injection Hv as <-. done.
Defined.

(** X7: under the strategy contract a lookup by any key equal to a stored
    key finds that entry, in whichever way the two keys differ:
    [HashTable_Has] and [HashTable_At] both return the reference of the one
    entry whose key equals [key], and the store is unchanged. *)
Theorem lookup_by_equal_key m tp t bs c h key e (fuel : nat) :
  table_rep m tp t bs → ready_with c h t →
  consistent c → hash_respects c h →
  one_per_key c bs → buckets_ok h bs →
  e ∈ concat bs → eqk c key (e_key e) →
  (length (bucket bs (bucket_of h key)) < fuel)%nat →
  HashTable_Has fuel tp key m = Done (RElement (e_pair e)) m ∧
  HashTable_At fuel tp key m = Done (RElement (e_pair e)) m ∧
  read_ref (RElement (e_pair e)) m = Done (e_elem e) m.
Proof.
  intros Hrep Hr [Hrefl Hsym Htrans] Hhash Hone Hok He Heq Hf.
  assert (bucket_of h key < length bs)%nat as Hlt.
  { rewrite (rep_size _ _ _ _ Hrep). apply bucket_index_lt. }
  assert (find_entry c key (bucket bs (bucket_of h key)) = Some e) as Hfind.
  { destruct (find_entry c key (bucket bs (bucket_of h key))) as [e'|] eqn:Hfe.
    - apply find_entry_Some in Hfe as [He' Heq']. f_equal.
      apply Hone; [by eapply bucket_elem|done|]. eauto.
    - by destruct (proj1 (find_entry_table c h Hhash bs key Hok Hlt) Hfe e He). }
  split; [|split].
  - by rewrite (Has_spec m tp t bs c h key fuel Hrep Hr Hf), Hfind.
  - destruct (At_spec m tp t bs c h key fuel Hrep Hr (λ _, Hrefl key) Hf)
      as (m' & Hat & _ & _ & _ & Hsame).
    unfold at_entry in Hat. rewrite Hfind in Hat, Hsame.
    rewrite Hat. f_equal. by apply Hsame.
  - by apply (read_entry _ _ _ _ _ Hrep).
Qed.

(** X11: two insertions share a value slot exactly when their keys are
    equal.  Under the strategy contract, the references [HashTable_At]
    returns for [k1] and then for [k2] are the same if and only if the
    equality strategy finds [k1] and [k2] equal. *)
Theorem same_slot_iff_equal_keys m tp t bs c h k1 k2 (fuel : nat) :
  table_rep m tp t bs → ready_with c h t →
  consistent c → hash_respects c h →
  one_per_key c bs → buckets_ok h bs →
  (S (entry_count bs) < fuel)%nat →
  ∃ p1 m1 p2 m2,
    HashTable_At fuel tp k1 m = Done (RElement p1) m1 ∧
    HashTable_At fuel tp k2 m1 = Done (RElement p2) m2 ∧
    (p1 = p2 ↔ eqk c k1 k2).
Proof.
  intros Hrep Hr Hcons Hhash Hone Hok Hf.
  pose proof Hcons as [Hrefl Hsym Htrans].
  assert (∀ k, bucket_of h k < length bs)%nat as Hlt.
  { intros k. rewrite (rep_size _ _ _ _ Hrep). apply bucket_index_lt. }
  pose proof (bucket_length_le bs _ _ (bucket_lookup bs _ (Hlt k1))) as Hlen.
  unfold entry_count in Hf.
  destruct (At_spec m tp t bs c h k1 fuel Hrep Hr (λ _, Hrefl k1))
    as (m1 & Hat1 & Hrep1 & _); [lia|].
  destruct (At_keeps_invariant tp t c h Hsym Hhash m bs k1 Hrep (Hrefl k1) Hone Hok)
    as [Hone1 Hok1].
  pose proof (find_after_At c h k1 m bs (Hlt k1) (λ _, Hrefl k1)) as Hfind1.
  pose proof (entry_count_at_buckets c h k1 m bs (Hlt k1)) as Hec.
  unfold entry_count in Hec.
  set (bs1 := at_buckets c h k1 m bs) in *.
  set (e1 := at_entry c h k1 m bs) in *.
  assert (bucket_of h k2 < length bs1)%nat as Hlt2.
  { rewrite (rep_size _ _ _ _ Hrep1). apply bucket_index_lt. }
  pose proof (bucket_length_le bs1 _ _ (bucket_lookup bs1 _ Hlt2)) as Hlen2.
  destruct (At_spec m1 tp t bs1 c h k2 fuel Hrep1 Hr (λ _, Hrefl k2))
    as (m2 & Hat2 & _); [lia|].
  apply find_entry_Some in Hfind1 as [He1 Hk1].
  apply bucket_elem in He1.
  exists (e_pair e1), m1, (e_pair (at_entry c h k2 m1 bs1)), m2.
  split; [done|]. split; [done|].
  unfold at_entry.
  destruct (find_entry c k2 (bucket bs1 (bucket_of h k2))) as [e2|] eqn:Hfind2.
  - apply find_entry_Some in Hfind2 as [He2 Hk2]. apply bucket_elem in He2.
    split.
    + intros Hp.
      assert (e1 = e2) as <-
        by (by apply (NoDup_fmap_inj_on e_pair (concat bs1)
                        _ _ (rep_pairs _ _ _ _ Hrep1))).
      eauto.
    + intros Heq. f_equal. apply Hone1; [done|done|]. eauto.
  - split.
    + intros Hp. destruct (rep_entry _ _ _ _ _ Hrep1 He1) as (_ & _ & Hb).
      simpl in Hp. lia.
    + intros Heq.
      destruct (proj1 (find_entry_table c h Hhash bs1 k2 Hok1 Hlt2) Hfind2 e1 He1).
      eauto.
Qed.

Lemma rep_change_strategies m tp t t' bs :
  table_rep m tp t bs → tbl_hashListArr t' = tbl_hashListArr t →
  table_rep (upd_tables <[tp := t']> m) tp t' bs.
Proof.
  intros [Hnn Htab Harr Hsz Hch Hnd Hpd Hbel Hpos] Heq.
  split; stores; try done.
  - apply lookup_insert_eq.
  - by rewrite Heq.
  - eapply Forall_impl; [exact Hch|].
    intros es Hc. by apply chain_frame with (m := m).
Qed.

Lemma eq_demo_rep : table_rep eq_demo_mem 100 eq_demo_table demo_bs.
Proof. apply (rep_change_strategies _ _ demo_table); [apply demo_rep|done]. Qed.

Lemma demo_concat :
  concat demo_bs = [mkEntry 1001 1002 42 7; mkEntry 1003 1004 143 8].
Proof. by vm_compute. Qed.

Lemma eq_demo_one_per_key : one_per_key eq_cmp demo_bs.
Proof.
  intros e1 e2. rewrite demo_concat, !elem_of_cons, !elem_of_nil.
  rewrite eqk_eq_cmp.
  intros [->|[->|[]]] [->|[->|[]]]; simpl; done.
Qed.

Lemma demo_buckets_ok : buckets_ok demo_hash demo_bs.
Proof.
  intros i es e Hi He.
  destruct (decide (i = 42%nat)) as [->|Hne].
  - injection Hi as <-.
    apply elem_of_cons in He as [->|He]; [done|].
    by apply list_elem_of_singleton in He as ->.
  - unfold demo_bs in Hi. rewrite list_lookup_insert_ne in Hi by done.
    apply lookup_replicate in Hi as [-> _]. by apply elem_of_nil in He.
Qed.

Lemma lookup_by_equal_key_witness :
  table_rep eq_demo_mem 100 eq_demo_table demo_bs ∧
  ready_with eq_cmp demo_hash eq_demo_table ∧
  consistent eq_cmp ∧ hash_respects eq_cmp demo_hash ∧
  one_per_key eq_cmp demo_bs ∧ buckets_ok demo_hash demo_bs ∧
  mkEntry 1003 1004 143 8 ∈ concat demo_bs ∧
  eqk eq_cmp 143 (e_key (mkEntry 1003 1004 143 8)) ∧
  (length (bucket demo_bs (bucket_of demo_hash 143)) < 3)%nat ∧
  HashTable_Has 3 100 143 eq_demo_mem = Done (RElement 1004) eq_demo_mem ∧
  HashTable_At 3 100 143 eq_demo_mem = Done (RElement 1004) eq_demo_mem.
Proof.
  assert (mkEntry 1003 1004 143 8 ∈ concat demo_bs) as Hin.
  { rewrite demo_concat. right. left. }
  assert (length (bucket demo_bs (bucket_of demo_hash 143)) < 3)%nat as Hf
    by (vm_compute; lia).
  split; [apply eq_demo_rep|]. split; [done|].
  split; [apply eq_cmp_consistent|]. split; [apply eq_cmp_hash_respects|].
  split; [apply eq_demo_one_per_key|]. split; [apply demo_buckets_ok|].
  split; [done|]. split; [done|]. split; [done|].
  destruct (lookup_by_equal_key eq_demo_mem 100 eq_demo_table demo_bs eq_cmp
              demo_hash 143 (mkEntry 1003 1004 143 8) 3 eq_demo_rep
              (conj eq_refl eq_refl) eq_cmp_consistent
              (eq_cmp_hash_respects demo_hash) eq_demo_one_per_key
              demo_buckets_ok Hin eq_refl Hf) as (Hhas & Hat & _).
  done.
Defined.

Lemma same_slot_iff_equal_keys_witness :
  table_rep fresh_mem 100 fresh_table fresh_bs ∧
  ready_with eq_cmp demo_hash fresh_table ∧
  consistent eq_cmp ∧ hash_respects eq_cmp demo_hash ∧
  one_per_key eq_cmp fresh_bs ∧ buckets_ok demo_hash fresh_bs ∧
  (S (entry_count fresh_bs) < 3)%nat ∧
  ∃ p1 m1 p2 m2,
    HashTable_At 3 100 42 fresh_mem = Done (RElement p1) m1 ∧
    HashTable_At 3 100 143 m1 = Done (RElement p2) m2 ∧
    p1 ≠ p2.
Proof.
  assert (S (entry_count fresh_bs) < 3)%nat as Hf by (vm_compute; lia).
  split; [apply fresh_rep|]. split; [done|].
  split; [apply eq_cmp_consistent|]. split; [apply eq_cmp_hash_respects|].
  split; [apply fresh_one_per_key|]. split; [apply fresh_buckets_ok|].
  split; [done|].
  destruct (same_slot_iff_equal_keys fresh_mem 100 fresh_table fresh_bs eq_cmp
              demo_hash 42 143 3 fresh_rep (conj eq_refl eq_refl)
              eq_cmp_consistent (eq_cmp_hash_respects demo_hash)
              (fresh_one_per_key eq_cmp) (fresh_buckets_ok demo_hash) Hf)
    as (p1 & m1 & p2 & m2 & H1 & H2 & Hiff).
  exists p1, m1, p2, m2. split; [done|]. split; [done|].
  intros Hp. apply Hiff in Hp. by apply eqk_eq_cmp in Hp.
Defined.

(** X12: what the caller stores is what [onRemove] gets back.  After
    [HashTable_At] on [key] and a store of [v] through the returned
    reference, [HashTable_Destroy] calls [onRemove] exactly once on that
    pair, and the pair then holds the stored key (equal to [key]) and the
    element [v]. *)
Theorem Destroy_returns_written_value m tp t bs c h r key v (fuel : nat) :
  table_rep m tp t bs → ready_with c h t →
  tbl_onRemove t = Some r →
  eqk c key key →
  (S (S (entry_count bs)) < fuel)%nat →
  ∃ p m1 m2 m3 k' calls,
    HashTable_At fuel tp key m = Done (RElement p) m1 ∧
    write_ref (RElement p) v m1 = Done tt m2 ∧
    HashTable_Destroy fuel tp m2 = Done tt m3 ∧
    removed m3 = removed m ++ calls ∧
    eqk c key k' ∧
    (p, mkHashPair k' v) ∈ calls ∧
    NoDup (fst <$> calls).
Proof.
  intros Hrep Hr Hcb Hrefl Hf. unfold entry_count in Hf.
  assert (bucket_of h key < length bs)%nat as Hlt.
  { rewrite (rep_size _ _ _ _ Hrep). apply bucket_index_lt. }
  pose proof (bucket_length_le bs _ _ (bucket_lookup bs _ Hlt)) as Hlen.
  destruct (At_spec m tp t bs c h key fuel Hrep Hr (λ _, Hrefl))
    as (m1 & Hat & Hrep1 & Hlog1 & _); [lia|].
  pose proof (find_after_At c h key m bs Hlt (λ _, Hrefl)) as Hfind1.
  pose proof (entry_count_at_buckets c h key m bs Hlt) as Hec.
  unfold entry_count in Hec.
  set (bs1 := at_buckets c h key m bs) in *.
  set (e1 := at_entry c h key m bs) in *.
  apply find_entry_Some in Hfind1 as [He1 Hk1]. apply bucket_elem in He1.
  destruct (rep_write_elem m1 tp t bs1 e1 v Hrep1 He1)
    as (m2 & Hw & Hrep2 & _ & Hlog2).
  set (bs2 := write_elem (e_pair e1) v bs1) in *.
  assert (concat bs2 = set_elem (e_pair e1) v <$> concat bs1) as Hcat
    by apply concat_fmap.
  exists (e_pair e1), m1, m2, (destroyed tp t bs2 m2), (e_key e1),
    (release_call <$> concat bs2).
  split; [done|]. split; [done|]. split.
  { apply Destroy_spec; [done|by destruct Hr as [_ ->]|].
    apply length_bucket_lt. rewrite Hcat, length_fmap. lia. }
  split.
  { unfold destroyed. stores. rewrite release_all_removed.
    unfold has_callback. rewrite Hcb. congruence. }
  split; [done|]. split.
  - apply list_elem_of_fmap. exists (set_elem (e_pair e1) v e1).
    split; [|rewrite Hcat; by apply list_elem_of_fmap_2].
    unfold release_call, set_elem. by rewrite decide_True.
  - rewrite <- list_fmap_compose. apply (rep_pairs _ _ _ _ Hrep2).
Qed.

Lemma Destroy_returns_written_value_witness :
  table_rep demo_mem 100 demo_table demo_bs ∧
  ready_with demo_cmp demo_hash demo_table ∧
  tbl_onRemove demo_table = Some (λ _, 0) ∧
  eqk demo_cmp 35 35 ∧ (S (S (entry_count demo_bs)) < 5)%nat ∧
  ∃ p m1 m2 m3 k',
    HashTable_At 5 100 35 demo_mem = Done (RElement p) m1 ∧
    write_ref (RElement p) 9 m1 = Done tt m2 ∧
    HashTable_Destroy 5 100 m2 = Done tt m3 ∧
    eqk demo_cmp 35 k' ∧
    (p, mkHashPair k' 9) ∈ removed m3.
Proof.
  assert (S (S (entry_count demo_bs)) < 5)%nat as Hf by (vm_compute; lia).
  split; [apply demo_rep|]. split; [done|]. split; [done|]. split; [done|].
  split; [done|].
  destruct (Destroy_returns_written_value demo_mem 100 demo_table demo_bs
              demo_cmp demo_hash (λ _, 0) 35 9 5 demo_rep
              (conj eq_refl eq_refl) eq_refl eq_refl Hf)
    as (p & m1 & m2 & m3 & k' & calls & Hat & Hw & Hd & Hlog & Hk & Hin & _).
  exists p, m1, m2, m3, k'.
  split; [done|]. split; [done|]. split; [done|]. split; [done|].
  rewrite Hlog. apply elem_of_app. by right.
Defined.

(** ** What a sequence of calls leaves in each chain *)

Lemma distinct_subset c seen ks d : d ∈ distinct c seen ks → d ∈ ks.
Proof.
  revert seen. induction ks as [|k ks IH]; intros seen; simpl; [done|].
  case_decide.
  - intros Hd. right. by eapply IH.
  - intros [->|Hd]%elem_of_cons; [left|right; by eapply IH].
Qed.

(** Every key of the sequence is equal to one already seen or to one that
    [distinct] keeps. *)
Lemma distinct_cover c seen ks k :
  (∀ a, eqk c a a) → k ∈ ks →
  Exists (eqk c k) seen ∨ ∃ d, d ∈ distinct c seen ks ∧ eqk c k d.
Proof.
  intros Hrefl. revert seen.
  induction ks as [|k0 ks IH]; intros seen; [by intros ?%elem_of_nil|].
  simpl. intros [->|Hk]%elem_of_cons.
  - case_decide; [by left|]. right. exists k0. split; [left|done].
  - case_decide.
    + by apply IH.
    + destruct (IH (k0 :: seen) Hk) as [Hex|(d & Hd & Heq)].
      * apply Exists_cons in Hex as [Heq|Hex]; [|by left].
        right. exists k0. split; [left|done].
      * right. exists d. split; [by right|done].
Qed.

Section content.
Variables (tp : ptr) (t : HashTable) (c : Z → Z → Z) (h : Z → Z).
Hypothesis Hready : ready_with c h t.
Hypothesis Hsym : ∀ a b, eqk c a b → eqk c b a.
Hypothesis Hhash : hash_respects c h.

(** A call on a key equal to one seen leaves the buckets alone; a call on a
    new key appends its entry to the chain of its bucket. *)
Lemma at_buckets_cases m bs key seen :
  table_rep m tp t bs → buckets_ok h bs →
  (∀ k, k ∈ seen ↔ k ∈ table_keys bs) →
  at_buckets c h key m bs =
    if decide (Exists (eqk c key) seen) then bs
    else <[bucket_of h key :=
             bucket bs (bucket_of h key) ++ [new_entry m key]]> bs.
Proof.
  intros Hrep Hok Hseen.
  assert (bucket_of h key < length bs)%nat as Hlt.
  { rewrite (rep_size _ _ _ _ Hrep). apply bucket_index_lt. }
  pose proof (find_entry_table c h Hhash bs key Hok Hlt) as Hfe.
  unfold at_buckets.
  destruct (find_entry c key (bucket bs (bucket_of h key))) as [e|] eqn:Hfind;
    case_decide as Hex; try done.
  - destruct Hex. apply find_entry_Some in Hfind as [He Heq].
    apply Exists_exists. exists (e_key e). split; [|done].
    apply Hseen. unfold table_keys. apply list_elem_of_fmap_2.
    by eapply bucket_elem.
  - apply Exists_exists in Hex as (k & Hk & Heq).
    apply Hseen in Hk. unfold table_keys in Hk.
    apply list_elem_of_fmap in Hk as (e & -> & He).
    by destruct (proj1 Hfe eq_refl e He).
Qed.

Lemma At_seq_content ks : ∀ m bs seen,
  table_rep m tp t bs →
  Forall (λ k, eqk c k k) ks →
  one_per_key c bs → buckets_ok h bs →
  (∀ k, k ∈ seen ↔ k ∈ table_keys bs) →
  ∃ rs m' bs',
    (∀ fuel : nat, (entry_count bs + length ks < fuel)%nat →
                   At_seq fuel tp ks m = Done rs m') ∧
    table_rep m' tp t bs' ∧ one_per_key c bs' ∧ buckets_ok h bs' ∧
    removed m' = removed m ∧
    (entry_count bs' ≤ entry_count bs + length ks)%nat ∧
    ∀ i, e_key <$> bucket bs' i =
         (e_key <$> bucket bs i) ++
         filter (λ k, bucket_of h k = i) (distinct c seen ks).
Proof.
  induction ks as [|key ks IH]; intros m bs seen Hrep Hrefl Hone Hok Hseen.
  - exists [], m, bs.
    split; [done|]. split; [done|]. split; [done|]. split; [done|].
    split; [done|]. split; [simpl; lia|].
    intros i. simpl. by rewrite app_nil_r.
  - apply Forall_cons in Hrefl as [Hrk Hrefl].
    assert (bucket_of h key < length bs)%nat as Hlt.
    { rewrite (rep_size _ _ _ _ Hrep). apply bucket_index_lt. }
    pose proof (bucket_lookup bs _ Hlt) as Hb.
    pose proof (bucket_length_le bs _ _ Hb) as Hlen.
    destruct (At_keeps_invariant tp t c h Hsym Hhash m bs key Hrep Hrk Hone Hok)
      as [Hone1 Hok1].
    pose proof (at_buckets_cases m bs key seen Hrep Hok Hseen) as Hcases.
    pose proof (entry_count_at_buckets c h key m bs Hlt) as Hec.
    destruct (At_spec m tp t bs c h key (S (length (bucket bs (bucket_of h key))))
                Hrep Hready (λ _, Hrk)) as (m1 & Hat & Hrep1 & Hrm1 & _); [lia|].
    set (bs1 := at_buckets c h key m bs) in *.
    set (seen1 := if decide (Exists (eqk c key) seen) then seen else key :: seen).
    assert (∀ k, k ∈ seen1 ↔ k ∈ table_keys bs1) as Hseen1.
    { unfold seen1. intros k. rewrite Hcases. case_decide; [apply Hseen|].
      unfold table_keys. rewrite concat_insert_snoc by done.
      rewrite fmap_cons, !elem_of_cons. simpl.
      fold (table_keys bs). by rewrite Hseen. }
    destruct (IH m1 bs1 seen1 Hrep1 Hrefl Hone1 Hok1 Hseen1)
      as (rs & m' & bs' & Hrun & Hrep' & Hone' & Hok' & Hrm' & Hcnt' & Hkeys).
    exists (RElement (e_pair (at_entry c h key m bs)) :: rs), m', bs'.
    split; [|split; [done|split; [done|split; [done|split; [|split]]]]].
    + intros fuel Hf. simpl in Hf. simpl At_seq. unfold entry_count in *.
      rewrite (bind_Done _ _ _ _ _ (At_fuel_mono _ fuel _ _ _ _ _ Hat ltac:(lia))).
      cbv beta.
      by rewrite (bind_Done _ _ _ _ _ (Hrun fuel ltac:(lia))).
    + congruence.
    + simpl. lia.
    + intros i. rewrite Hkeys. simpl distinct. unfold seen1.
      rewrite Hcases. case_decide; [done|].
      rewrite filter_cons.
      destruct (decide (bucket_of h key = i)) as [<-|Hne].
      * rewrite bucket_insert by done.
        rewrite fmap_app, <- app_assoc. done.
      * unfold bucket at 1. by rewrite list_lookup_insert_ne.
Qed.
End content.

Lemma find_entry_is_Some c key es :
  is_Some (find_entry c key es) ↔ ∃ e, e ∈ es ∧ eqk c key (e_key e).
Proof.
  split.
  - intros [e He]. exists e. by apply find_entry_Some.
  - intros (e & He & Heq).
    destruct (find_entry c key es) as [e'|] eqn:Hfind; [by eexists|].
    by destruct (proj1 (find_entry_None c key es) Hfind e He).
Qed.

Lemma found_ref_hit o : (∃ p, found_ref o = RElement p) ↔ is_Some o.
Proof.
  destruct o as [e|]; simpl; split.
  - by eexists.
  - by exists (e_pair e).
  - by intros [p ?].
  - by intros [? ?].
Qed.

Lemma buckets_as_seq (bs : list (list entry)) :
  bucket bs <$> seq 0 (length bs) = bs.
Proof.
  apply list_eq. intros i. rewrite list_lookup_fmap.
  destruct (decide (i < length bs)%nat) as [Hlt|Hge].
  - rewrite lookup_seq_lt by done. simpl. by rewrite bucket_lookup.
  - rewrite lookup_seq_ge by lia. simpl. symmetry.
    apply lookup_ge_None. lia.
Qed.

Lemma table_keys_by_bucket (bs : list (list entry)) :
  table_keys bs = concat ((λ i, e_key <$> bucket bs i) <$> seq 0 (length bs)).
Proof.
  unfold table_keys. rewrite <- concat_fmap.
  rewrite <- (buckets_as_seq bs) at 1.
  by rewrite <- list_fmap_compose.
Qed.

Lemma empty_table_buckets (bs : list (list entry)) :
  entry_count bs = 0%nat →
  table_keys bs = [] ∧ (∀ i, bucket bs i = []) ∧
  (∀ c, one_per_key c bs) ∧ (∀ h, buckets_ok h bs).
Proof.
  unfold entry_count. intros Hnil%nil_length_inv.
  assert (∀ i es e, bs !! i = Some es → e ∈ es → False) as Hno.
  { intros i es e Hi He.
    pose proof (elem_of_concat_lookup bs i es e Hi He) as Hin.
    rewrite Hnil in Hin. by apply elem_of_nil in Hin. }
  split; [unfold table_keys; by rewrite Hnil|]. split; [|split].
  - intros i. unfold bucket. destruct (bs !! i) as [[|e es]|] eqn:Hi; try done.
    destruct (Hno i (e :: es) e Hi). left.
  - intros c e1 e2 H1. rewrite Hnil in H1. by apply elem_of_nil in H1.
  - intros h i es e Hi He. by destruct (Hno i es e Hi He).
Qed.

(** X14: what was inserted is found and nothing else.  Under the strategy
    contract, after any sequence [ks] of [HashTable_At] calls the lookup of
    a key returns a reference exactly when the key equals, by the equality
    strategy, a key the table held before or one of [ks]; otherwise it
    returns null. *)
Theorem sequence_membership m tp t bs c h ks :
  table_rep m tp t bs → ready_with c h t →
  consistent c → hash_respects c h →
  one_per_key c bs → buckets_ok h bs →
  ∃ rs m',
    ∀ fuel : nat, (entry_count bs + length ks < fuel)%nat →
      At_seq fuel tp ks m = Done rs m' ∧
      ∀ key,
        (∃ r, HashTable_Has fuel tp key m' = Done r m') ∧
        ((∃ p, HashTable_Has fuel tp key m' = Done (RElement p) m') ↔
         ((∃ e, e ∈ concat bs ∧ eqk c key (e_key e)) ∨
          (∃ k, k ∈ ks ∧ eqk c key k))).
Proof.
  intros Hrep Hr [Hrefl Hsym Htrans] Hhash Hone Hok.
  destruct (At_seq_content tp t c h Hr Hsym Hhash ks m bs (table_keys bs) Hrep)
    as (rs & m' & bs' & Hrun & Hrep' & _ & Hok' & _ & Hcnt & Hkeys); try done.
  { apply Forall_forall. by intros k _. }
  exists rs, m'. intros fuel Hf. split; [by apply Hrun|]. intros key.
  assert (bucket_of h key < length bs')%nat as Hlt'.
  { rewrite (rep_size _ _ _ _ Hrep'). apply bucket_index_lt. }
  assert (bucket_of h key < length bs)%nat as Hlt.
  { rewrite (rep_size _ _ _ _ Hrep). apply bucket_index_lt. }
  pose proof (bucket_length_le bs' _ _ (bucket_lookup bs' _ Hlt')) as Hlen.
  unfold entry_count in *.
  rewrite (Has_spec m' tp t bs' c h key fuel Hrep' Hr) by lia.
  split; [by eexists|].
  transitivity (is_Some (find_entry c key (bucket bs' (bucket_of h key)))).
  { rewrite <- found_ref_hit. split; intros [p Hp]; exists p; congruence. }
  rewrite find_entry_is_Some.
  transitivity (∃ d, d ∈ e_key <$> bucket bs' (bucket_of h key) ∧ eqk c key d).
  { split.
    - intros (e & He & Heq). exists (e_key e).
      split; [by apply list_elem_of_fmap_2|done].
    - intros (d & (e & -> & He)%list_elem_of_fmap & Heq). by exists e. }
  rewrite Hkeys. split.
  - intros (d & [Hd|Hd]%elem_of_app & Heq).
    + left. apply list_elem_of_fmap in Hd as (e & -> & He).
      exists e. split; [by eapply bucket_elem|done].
    + right. apply list_elem_of_filter in Hd as [_ Hd].
      exists d. split; [by eapply distinct_subset|done].
  - assert (∀ e, e ∈ concat bs → eqk c key (e_key e) →
              ∃ d, d ∈ (e_key <$> bucket bs (bucket_of h key)) ++
                       filter (λ k, bucket_of h k = bucket_of h key)
                         (distinct c (table_keys bs) ks) ∧ eqk c key d) as Hold.
    { intros e He Heq. exists (e_key e). split; [|done].
      apply elem_of_app. left. apply list_elem_of_fmap_2.
      destruct (elem_of_concat _ _ He) as (i & es & Hi & Hes).
      pose proof (Hok i es e Hi Hes) as Hbi.
      rewrite <- (Hhash _ _ Heq) in Hbi. subst i.
      unfold bucket. by rewrite Hi. }
    intros [(e & He & Heq)|(k & Hk & Heq)]; [by eapply Hold|].
    destruct (distinct_cover c (table_keys bs) ks k Hrefl Hk)
      as [Hex|(d & Hd & Hkd)].
    + apply Exists_exists in Hex as (d & Hd & Hkd).
      unfold table_keys in Hd. apply list_elem_of_fmap in Hd as (e & -> & He).
      apply (Hold e He). eauto.
    + exists d. split; [|eauto].
      apply elem_of_app. right. apply list_elem_of_filter. split; [|done].
      symmetry. apply Hhash. eauto.
Qed.

Lemma sequence_membership_witness :
  table_rep fresh_mem 100 fresh_table fresh_bs ∧
  ready_with eq_cmp demo_hash fresh_table ∧
  consistent eq_cmp ∧ hash_respects eq_cmp demo_hash ∧
  one_per_key eq_cmp fresh_bs ∧ buckets_ok demo_hash fresh_bs ∧
  ∃ rs m',
    At_seq 4 100 [42; 143; 42] fresh_mem = Done rs m' ∧
    (∃ p, HashTable_Has 4 100 143 m' = Done (RElement p) m') ∧
    HashTable_Has 4 100 244 m' = Done RNull m'.
Proof.
  split; [apply fresh_rep|]. split; [done|].
  split; [apply eq_cmp_consistent|]. split; [apply eq_cmp_hash_respects|].
  split; [apply fresh_one_per_key|]. split; [apply fresh_buckets_ok|].
  destruct (sequence_membership fresh_mem 100 fresh_table fresh_bs eq_cmp
              demo_hash [42; 143; 42] fresh_rep (conj eq_refl eq_refl)
              eq_cmp_consistent (eq_cmp_hash_respects demo_hash)
              (fresh_one_per_key eq_cmp) (fresh_buckets_ok demo_hash))
    as (rs & m' & Hall).
  destruct (Hall 4%nat ltac:(vm_compute; lia)) as (Hrun & Hmem).
  exists rs, m'. split; [done|]. split.
  - apply (Hmem 143). right. exists 143. split; [right; left|done].
  - destruct (Hmem 244) as ([r Hr] & Hiff). rewrite Hr.
    destruct r as [|p]; [done|]. exfalso.
    destruct (proj1 Hiff (ex_intro _ p Hr)) as [(e & He & _)|(k & Hk & Heq)].
    + unfold fresh_bs in He. rewrite concat_replicate_nil in He.
      by apply elem_of_nil in He.
    + pose proof (proj1 (eqk_eq_cmp _ _) Heq) as <-.
      rewrite !elem_of_cons, elem_of_nil in Hk.
      by destruct Hk as [?|[?|[?|[]]]].
Defined.

(** X15: chains keep first-insertion order, and [HashTable_Destroy]
    releases in bucket order.  After a sequence [ks] of [HashTable_At]
    calls on an empty table, the chain of bucket [i] holds the distinct
    keys of [ks] that select [i], in the order of their first call; the
    keys of the [onRemove] calls [HashTable_Destroy] then makes are those
    chains one after the other, bucket 0 first. *)
Theorem insertion_and_release_order m tp t bs c h ks :
  table_rep m tp t bs → ready_with c h t →
  consistent c → hash_respects c h →
  entry_count bs = 0%nat →
  ∃ rs m1 bs1 m2 calls,
    table_rep m1 tp t bs1 ∧
    (∀ i, e_key <$> bucket bs1 i =
          filter (λ k, bucket_of h k = i) (distinct c [] ks)) ∧
    removed m2 = removed m ++ calls ∧
    (is_Some (tbl_onRemove t) →
     (λ cl, pair_key cl.2) <$> calls =
       concat ((λ i : nat, filter (λ k, bucket_of h k = i) (distinct c [] ks))
                 <$> seq 0 HASHSIZE)) ∧
    (tbl_onRemove t = None → calls = []) ∧
    ∀ fuel : nat, (length ks < fuel)%nat →
      At_seq fuel tp ks m = Done rs m1 ∧
      HashTable_Destroy fuel tp m1 = Done tt m2.
Proof.
  intros Hrep Hr [Hrefl Hsym Htrans] Hhash Hzero.
  destruct (empty_table_buckets bs Hzero) as (Hkeys0 & Hb0 & Hone & Hok).
  destruct (At_seq_content tp t c h Hr Hsym Hhash ks m bs [] Hrep)
    as (rs & m1 & bs1 & Hrun & Hrep1 & _ & _ & Hlog1 & Hcnt & Hkeys); try done.
  { apply Forall_forall. by intros k _. }
  { intros k. by rewrite Hkeys0. }
  assert (∀ i, e_key <$> bucket bs1 i =
               filter (λ k, bucket_of h k = i) (distinct c [] ks)) as Hkeys1.
  { intros i. by rewrite Hkeys, Hb0. }
  exists rs, m1, bs1, (destroyed tp t bs1 m1),
    (if has_callback t then release_call <$> concat bs1 else []).
  split; [done|]. split; [done|]. split; [|split; [|split]].
  - unfold destroyed. stores. rewrite release_all_removed. by rewrite Hlog1.
  - intros [r Hcb]. unfold has_callback. rewrite Hcb.
    rewrite <- list_fmap_compose.
    change ((λ cl : ptr * HashPair, pair_key cl.2) ∘ release_call) with e_key.
    fold (table_keys bs1). rewrite table_keys_by_bucket.
    rewrite (rep_size _ _ _ _ Hrep1). f_equal.
    apply list_fmap_ext. intros _ i _. apply Hkeys1.
  - intros Hcb. unfold has_callback. by rewrite Hcb.
  - intros fuel Hf. rewrite Hzero in Hrun, Hcnt. simpl in Hrun, Hcnt.
    split; [by apply Hrun|].
    apply Destroy_spec; [done|by destruct Hr as [_ ->]|].
    apply length_bucket_lt. unfold entry_count in Hcnt. lia.
Qed.

Lemma insertion_and_release_order_witness :
  table_rep fresh_mem 100 fresh_table fresh_bs ∧
  ready_with eq_cmp demo_hash fresh_table ∧
  consistent eq_cmp ∧ hash_respects eq_cmp demo_hash ∧
  entry_count fresh_bs = 0%nat ∧
  ∃ rs m1 bs1,
    At_seq 5 100 [143; 35; 42; 143] fresh_mem = Done rs m1 ∧
    table_rep m1 100 fresh_table bs1 ∧
    e_key <$> bucket bs1 42 = [143; 42] ∧
    e_key <$> bucket bs1 35 = [35].
Proof.
  split; [apply fresh_rep|]. split; [done|].
  split; [apply eq_cmp_consistent|]. split; [apply eq_cmp_hash_respects|].
  split; [by vm_compute|].
  destruct (insertion_and_release_order fresh_mem 100 fresh_table fresh_bs
              eq_cmp demo_hash [143; 35; 42; 143] fresh_rep
              (conj eq_refl eq_refl) eq_cmp_consistent
              (eq_cmp_hash_respects demo_hash) ltac:(by vm_compute))
    as (rs & m1 & bs1 & m2 & calls & Hrep1 & Hkeys & _ & _ & _ & Hrun).
  destruct (Hrun 5%nat ltac:(vm_compute; lia)) as (Hseq & _).
  exists rs, m1, bs1. split; [done|]. split; [done|].
  rewrite !Hkeys. split; by vm_compute.
Defined.

(** ** The table frees what it allocated *)

Lemma link_frame m tp t bs i es key m' :
  table_rep m tp t bs → bs !! i = Some es →
  link_entry (last_loc (Bucket (tbl_hashListArr t) i) es) key m = Some m' →
  (∀ a, a ≠ brk m → a ∉ e_node <$> concat bs → lists m' !! a = lists m !! a) ∧
  (∀ a, a ≠ brk m + 1 → pairs m' !! a = pairs m !! a) ∧
  (∀ a, a ≠ tbl_hashListArr t → arrays m' !! a = arrays m !! a) ∧
  brk m' = brk m + 2.
Proof.
  intros Hrep Hi Hlink.
  pose proof Hrep as [Hnn Htab Harr Hsz Hch Hnd Hpd Hbel Hpos].
  assert (i < length bs)%nat as Hlt by (by eapply lookup_lt_Some).
  assert (chain m es) as Hces by (by eapply Forall_lookup_1).
  unfold link_entry in Hlink.
  destruct es as [|l es0 _] using rev_ind.
  - simpl in Hlink. rewrite Harr in Hlink.
    rewrite decide_True in Hlink by (by rewrite length_fmap).
    injection Hlink as <-. stores.
    split; [|split; [|split; [|done]]].
    + intros a Ha _. by rewrite lookup_insert_ne.
    + intros a Ha. by rewrite lookup_insert_ne.
    + intros a Ha. by rewrite lookup_insert_ne.
  - rewrite last_loc_snoc in Hlink. simpl in Hlink.
    assert (l ∈ concat bs) as Hlin.
    { eapply elem_of_concat_lookup; [done|]. apply elem_of_app. right. left. }
    destruct (proj1 (Forall_forall _ _) Hbel l Hlin) as [Hln Hlp].
    rewrite lookup_insert_ne in Hlink by lia.
    rewrite (chain_last _ _ _ Hces) in Hlink.
    injection Hlink as <-. stores.
    split; [|split; [|split; [|done]]].
    + intros a Ha Hnotin. rewrite lookup_insert_ne.
      * by rewrite lookup_insert_ne.
      * intros <-. apply Hnotin. by apply list_elem_of_fmap_2.
    + intros a Ha. by rewrite lookup_insert_ne.
    + done.
Qed.

(** The store after an inserting call is the store with the new entry
    linked in at the tail of the key's chain. *)
Lemma At_miss_store m tp t bs c h key (fuel : nat) :
  table_rep m tp t bs → ready_with c h t →
  find_entry c key (bucket bs (bucket_of h key)) = None →
  eqk c key key →
  (length (bucket bs (bucket_of h key)) < fuel)%nat →
  ∃ m', link_entry (last_loc (Bucket (tbl_hashListArr t) (bucket_of h key))
                      (bucket bs (bucket_of h key))) key m = Some m' ∧
        HashTable_At fuel tp key m = Done (RElement (brk m + 1)) m'.
Proof.
  intros Hrep [Hc Hh] Hfind Hrefl Hf. unfold HashTable_At.
  pose proof (rep_table _ _ _ _ Hrep) as Ht.
  rewrite (bind_load_table _ _ _ _ Ht). cbv beta.
  rewrite Hh, bind_call_hash. fold (bucket_of h key).
  destruct (rep_bucket m tp t bs (bucket_of h key) Hrep (bucket_index_lt _))
    as (Hb & Hch & Hx).
  destruct (At_loop_miss tp t c key Hc (bucket bs (bucket_of h key))
              (Bucket (tbl_hashListArr t) (bucket_of h key)) m fuel)
    as (m' & Hlink & Hrun & Hry & Hl); try done.
  { apply Forall_forall. intros e He.
    apply (proj1 (Forall_forall _ _) (rep_below _ _ _ _ Hrep) e).
    by eapply elem_of_concat_lookup. }
  exists m'. split; [done|].
  rewrite (bind_Done _ _ _ _ _ Hrun). cbv beta.
  rewrite (bind_load_loc _ _ _ _ Hry). cbv beta.
  by rewrite (bind_load_list _ _ _ _ Hl).
Qed.

Lemma at_buckets_incl c h key m bs e :
  (bucket_of h key < length bs)%nat →
  e ∈ concat bs → e ∈ concat (at_buckets c h key m bs).
Proof.
  intros Hlt He. unfold at_buckets.
  destruct (find_entry c key (bucket bs (bucket_of h key))); [done|].
  rewrite concat_insert_snoc by (by apply bucket_lookup). by right.
Qed.

Lemma At_keeps_owns m0 m tp t bs c h key (fuel : nat) r m' :
  table_rep m tp t bs → ready_with c h t →
  eqk c key key →
  (length (bucket bs (bucket_of h key)) < fuel)%nat →
  HashTable_At fuel tp key m = Done r m' →
  owns m0 m t bs → owns m0 m' t (at_buckets c h key m bs).
Proof.
  intros Hrep Hr Hrefl Hf Hrun (Hl & Hp & Ha & Hfree & Harr0 & Hbrk & Hbelow).
  assert (bucket_of h key < length bs)%nat as Hlt.
  { rewrite (rep_size _ _ _ _ Hrep). apply bucket_index_lt. }
  pose proof (bucket_lookup bs _ Hlt) as Hb.
  destruct (find_entry c key (bucket bs (bucket_of h key))) as [e|] eqn:Hfind.
  - destruct (At_spec m tp t bs c h key fuel Hrep Hr (λ _, Hrefl) Hf)
      as (m1 & Hat & _ & _ & _ & Hsame).
    rewrite Hrun in Hat. injection Hat as _ ->.
    rewrite Hsame by (by rewrite Hfind).
    unfold at_buckets. rewrite Hfind. done.
  - destruct (At_miss_store m tp t bs c h key fuel Hrep Hr Hfind Hrefl Hf)
      as (m1 & Hlink & Hat).
    rewrite Hrun in Hat. injection Hat as _ ->.
    destruct (link_frame _ _ _ _ _ _ _ _ Hrep Hb Hlink)
      as (Hl1 & Hp1 & Ha1 & Hbrk1).
    unfold at_buckets. rewrite Hfind.
    assert (∀ (f : entry → ptr) a,
              a ∉ f <$> concat (<[bucket_of h key :=
                   bucket bs (bucket_of h key) ++ [new_entry m key]]> bs) →
              a ≠ f (new_entry m key) ∧ a ∉ f <$> concat bs) as Hsplit.
    { intros f a. rewrite concat_insert_snoc by done.
      rewrite fmap_cons, not_elem_of_cons. done. }
    split; [|split; [|split; [|split; [|split; [|split]]]]].
    + intros a [Hne Hnotin]%Hsplit. simpl in Hne.
      rewrite Hl1 by done. by apply Hl.
    + intros a [Hne Hnotin]%Hsplit. simpl in Hne.
      rewrite Hp1 by done. by apply Hp.
    + intros a Hne. rewrite Ha1 by done. by apply Ha.
    + intros e. rewrite concat_insert_snoc by done.
      intros [->|He]%elem_of_cons; [|by apply Hfree].
      simpl. destruct (Hbelow (brk m)) as (? & _ & _); [lia|].
      destruct (Hbelow (brk m + 1)) as (_ & ? & _); [lia|]. done.
    + done.
    + lia.
    + done.
Qed.

Lemma At_seq_owns m0 tp t c h ks : ∀ m bs,
  table_rep m tp t bs → ready_with c h t →
  Forall (λ k, eqk c k k) ks →
  owns m0 m t bs →
  ∃ rs m' bs',
    (∀ fuel : nat, (entry_count bs + length ks < fuel)%nat →
                   At_seq fuel tp ks m = Done rs m') ∧
    table_rep m' tp t bs' ∧ owns m0 m' t bs' ∧
    removed m' = removed m ∧
    (entry_count bs' ≤ entry_count bs + length ks)%nat.
Proof.
  induction ks as [|k ks IH]; intros m bs Hrep Hr Hrefl Hown.
  - exists [], m, bs. split; [done|]. split; [done|]. split; [done|].
    split; [done|]. simpl. lia.
  - apply Forall_cons in Hrefl as [Hrk Hrefl].
    assert (bucket_of h k < length bs)%nat as Hlt.
    { rewrite (rep_size _ _ _ _ Hrep). apply bucket_index_lt. }
    pose proof (bucket_length_le bs _ _ (bucket_lookup bs _ Hlt)) as Hlen.
    pose proof (entry_count_at_buckets c h k m bs Hlt) as Hec.
    destruct (At_spec m tp t bs c h k (S (length (bucket bs (bucket_of h k))))
                Hrep Hr (λ _, Hrk)) as (m1 & Hat & Hrep1 & Hlog1 & _); [lia|].
    pose proof (At_keeps_owns m0 m tp t bs c h k
                  (S (length (bucket bs (bucket_of h k)))) _ m1 Hrep Hr Hrk
                  ltac:(lia) Hat Hown) as Hown1.
    destruct (IH m1 _ Hrep1 Hr Hrefl Hown1)
      as (rs & m' & bs' & Hrun & Hrep' & Hown' & Hlog' & Hcnt).
    exists (RElement (e_pair (at_entry c h k m bs)) :: rs), m', bs'.
    split; [|split; [done|split; [done|split]]].
    + intros fuel Hf. simpl in Hf. simpl At_seq. unfold entry_count in *.
      rewrite (bind_Done _ _ _ _ _ (At_fuel_mono _ fuel _ _ _ _ _ Hat ltac:(lia))).
      cbv beta.
      by rewrite (bind_Done _ _ _ _ _ (Hrun fuel ltac:(lia))).
    + congruence.
    + simpl. lia.
Qed.

(** X10: the table frees exactly what it allocated.  From a store in which
    nothing lies above the allocation mark, [HashTable_Init], any sequence
    of [HashTable_At] calls and [HashTable_Destroy] leave the nodes, the
    pairs and the arrays of the store as they were before
    [HashTable_Init]: no block of the table is left allocated, and no block
    that was not the table's is freed or written. *)
Theorem teardown_restores_heap m0 tp t0 c h r ks :
  tp ≠ NULL → tables m0 !! tp = Some t0 → 0 < brk m0 →
  heap_below m0 →
  Forall (λ k, eqk c k k) ks →
  ∃ m1 rs m2 m3,
    HashTable_Init tp (Some c) (Some h) r m0 = Done tp m1 ∧
    (∀ fuel : nat, (length ks < fuel)%nat →
       At_seq fuel tp ks m1 = Done rs m2 ∧
       HashTable_Destroy fuel tp m2 = Done tt m3) ∧
    lists m3 = lists m0 ∧ pairs m3 = pairs m0 ∧ arrays m3 = arrays m0.
Proof.
  intros Hn Ht Hpos Hbelow Hrefl.
  set (t1 := mkHashTable (brk m0) (Some c) (Some h) r).
  set (m1 := initialised tp (Some c) (Some h) r m0).
  pose proof (initialised_rep m0 tp (Some c) (Some h) r Hn Hpos) as Hrep1.
  fold t1 m1 in Hrep1.
  assert (owns m0 m1 t1 (replicate HASHSIZE [])) as Hown1.
  { unfold owns. rewrite concat_replicate_nil.
    split; [done|]. split; [done|]. split.
    { intros a Ha. unfold m1, initialised. fields.
      by rewrite lookup_insert_ne. }
    split; [by intros e ?%elem_of_nil|].
    split; [by destruct (Hbelow (brk m0)) as (_ & _ & ?); [lia|]|].
    split; [unfold m1, initialised; fields; lia|done]. }
  destruct (At_seq_owns m0 tp t1 c h ks m1 _ Hrep1 (conj eq_refl eq_refl)
              Hrefl Hown1)
    as (rs & m2 & bs2 & Hrun & Hrep2 & Hown2 & _ & Hcnt).
  rewrite entry_count_replicate_nil in Hrun, Hcnt. simpl in Hrun, Hcnt.
  exists m1, rs, m2, (destroyed tp t1 bs2 m2).
  split; [by eapply Init_store|]. split.
  { intros fuel Hf. split; [by apply Hrun|].
    apply Destroy_spec; [done|by eexists|].
    apply length_bucket_lt. unfold entry_count in Hcnt. lia. }
  destruct Hown2 as (Hl & Hp & Ha & Hfree & Harr0 & _ & _).
  unfold destroyed. stores.
  split; [|split]; apply map_eq; intros a.
  - rewrite release_all_lists. case_decide as Hin; [|by apply Hl].
    apply list_elem_of_fmap in Hin as (e & -> & He).
    symmetry. by apply Hfree.
  - rewrite release_all_pairs. case_decide as Hin; [|by apply Hp].
    apply list_elem_of_fmap in Hin as (e & -> & He).
    symmetry. by apply Hfree.
  - rewrite release_all_arrays.
    destruct (decide (a = tbl_hashListArr t1)) as [->|Hne].
    + by rewrite lookup_delete_eq.
    + rewrite lookup_delete_ne by done. by apply Ha.
Qed.

Lemma teardown_restores_heap_witness :
  100 ≠ NULL ∧
  tables (mkMem {[ 100 := zero_table ]} ∅ ∅ ∅ 1000 []) !! 100 = Some zero_table ∧
  0 < brk (mkMem {[ 100 := zero_table ]} ∅ ∅ ∅ 1000 []) ∧
  heap_below (mkMem {[ 100 := zero_table ]} ∅ ∅ ∅ 1000 []) ∧
  Forall (λ k, eqk demo_cmp k k) [42; 35; 42] ∧
  ∃ m1 rs m2 m3,
    HashTable_Init 100 (Some demo_cmp) (Some demo_hash) None
      (mkMem {[ 100 := zero_table ]} ∅ ∅ ∅ 1000 []) = Done 100 m1 ∧
    At_seq 4 100 [42; 35; 42] m1 = Done rs m2 ∧
    HashTable_Destroy 4 100 m2 = Done tt m3 ∧
    lists m3 = ∅ ∧ pairs m3 = ∅ ∧ arrays m3 = ∅.
Proof.
  assert (Forall (λ k, eqk demo_cmp k k) [42; 35; 42]) as Hks
    by (by repeat constructor).
  assert (heap_below (mkMem {[ 100 := zero_table ]} ∅ ∅ ∅ 1000 [])) as Hb
    by (by intros a _).
  split; [done|]. split; [reflexivity|]. split; [done|]. split; [done|].
  split; [done|].
  destruct (teardown_restores_heap (mkMem {[ 100 := zero_table ]} ∅ ∅ ∅ 1000 [])
              100 zero_table demo_cmp demo_hash None [42; 35; 42])
    as (m1 & rs & m2 & m3 & Hinit & Hrun & Hl & Hp & Ha);
    [done|reflexivity|done|done|done|].
  destruct (Hrun 4%nat ltac:(simpl; lia)) as (Hseq & Hd).
  by exists m1, rs, m2, m3.
Defined.

(** ** The strategies of the README's second example *)

Lemma to_int_zero z : to_int z = 0 ↔ z mod 2 ^ 32 = 0.
Proof.
  unfold to_int. change (2 ^ 32) with 4294967296. change (2 ^ 31) with 2147483648.
  pose proof (Z.mod_pos_bound z 4294967296 ltac:(lia)) as Hr.
  pose proof (Z.mod_pos_bound (z + 2147483648) 4294967296 ltac:(lia)) as Hs.
  pose proof (Z.div_mod z 4294967296 ltac:(lia)) as Hz.
  pose proof (Z.div_mod (z + 2147483648) 4294967296 ltac:(lia)) as Hz'.
  lia.
Qed.

Lemma eqk_demo_cmp a b : eqk demo_cmp a b ↔ a mod 2 ^ 32 = b mod 2 ^ 32.
Proof.
  unfold eqk, demo_cmp. rewrite to_int_zero.
  change (2 ^ 32) with 4294967296.
  pose proof (Z.mod_pos_bound a 4294967296 ltac:(lia)).
  pose proof (Z.mod_pos_bound b 4294967296 ltac:(lia)).
  pose proof (Z.mod_pos_bound (a - b) 4294967296 ltac:(lia)).
  pose proof (Z.div_mod a 4294967296 ltac:(lia)).
  pose proof (Z.div_mod b 4294967296 ltac:(lia)).
  pose proof (Z.div_mod (a - b) 4294967296 ltac:(lia)).
  lia.
Qed.

(** X16: the strategies of the README's second example, [cmp] returning
    [m1 - m2] and [hash] returning [(unsigned int)key], satisfy the
    contract the table relies on.  Two keys are equal exactly when they
    agree in their low 32 bits, that relation is an equivalence, and equal
    keys select the same bucket. *)
Theorem example2_strategies :
  (∀ a b, eqk demo_cmp a b ↔ a mod 2 ^ 32 = b mod 2 ^ 32) ∧
  consistent demo_cmp ∧
  hash_respects demo_cmp demo_hash.
Proof.
  split; [apply eqk_demo_cmp|]. split; [split|].
  - intros a. by apply eqk_demo_cmp.
  - intros a b. rewrite !eqk_demo_cmp. by intros ->.
  - intros a b d. rewrite !eqk_demo_cmp. by intros -> ->.
  - intros a b Heq%eqk_demo_cmp.
    unfold bucket_of, demo_hash, to_uint. by rewrite Heq.
Qed.

(** ** What [HashTable_At] never does *)

Lemma grows_refl m : grows m m.
Proof. unfold grows. split; [done|]. split; [done|]. split; [lia|done]. Qed.

Lemma grows_trans m1 m2 m3 : grows m1 m2 → grows m2 m3 → grows m1 m3.
Proof.
  intros (Ht & Hr & Hb & Hl & Hp & Ha) (Ht' & Hr' & Hb' & Hl' & Hp' & Ha').
  unfold grows. split; [congruence|]. split; [congruence|]. split; [lia|].
  split; [|split]; intros a H; eauto.
Qed.

Lemma link_entry_grows x key m m' : link_entry x key m = Some m' → grows m m'.
Proof.
  unfold link_entry. destruct x as [arr i|l]; simpl.
  - destruct (arrays m !! arr) as [a|] eqn:Harr; [|done].
    case_decide; [|done]. intros [= <-]. unfold grows. stores.
    split; [done|]. split; [done|]. split; [lia|].
    split; [|split]; intros b Hb.
    + destruct (decide (brk m = b)) as [->|]; [by rewrite lookup_insert_eq|].
      by rewrite lookup_insert_ne.
    + destruct (decide (brk m + 1 = b)) as [<-|]; [by rewrite lookup_insert_eq|].
      by rewrite lookup_insert_ne.
    + destruct (decide (arr = b)) as [->|]; [by rewrite lookup_insert_eq|].
      by rewrite lookup_insert_ne.
  - destruct (<[brk m:=_]> (lists m) !! l) as [nd|] eqn:Hl; [|done].
    intros [= <-]. unfold grows. stores.
    split; [done|]. split; [done|]. split; [lia|].
    split; [|split; [|done]]; intros b Hb.
    + destruct (decide (l = b)) as [->|]; [by rewrite lookup_insert_eq|].
      rewrite lookup_insert_ne by done.
      destruct (decide (brk m = b)) as [->|]; [by rewrite lookup_insert_eq|].
      by rewrite lookup_insert_ne.
    + destruct (decide (brk m + 1 = b)) as [<-|]; [by rewrite lookup_insert_eq|].
      by rewrite lookup_insert_ne.
Qed.

Lemma At_loop_grows (fuel : nat) : ∀ tp key x m y m',
  At_loop fuel tp key x m = Done y m' → grows m m'.
Proof.
  induction fuel as [|fuel IH]; intros tp key x m y m'; [done|].
  simpl At_loop. unfold bind, load_loc, load_table, load_list, load_pair.
  destruct (reading (read_loc x) m) as [l0 m0| |] eqn:H0; [|done|done].
  apply reading_same in H0 as ->.
  destruct ((if decide (l0 = NULL) then At_alloc x key else ret ()) m)
    as [[] m1| |] eqn:Halloc; [|done|done].
  assert (grows m m1) as Hg1.
  { case_decide.
    - rewrite At_alloc_spec in Halloc.
      destruct (link_entry x key m) as [m1'|] eqn:Hlink; [|done].
      injection Halloc as <-. by eapply link_entry_grows.
    - injection Halloc as <-. apply grows_refl. }
  destruct (reading (read_loc x) m1) as [l1 m2| |] eqn:H1; [|done|done].
  apply reading_same in H1 as ->.
  destruct (reading (λ m0, tables m0 !! tp) m1) as [tb m3| |] eqn:H2;
    [|done|done].
  apply reading_same in H2 as ->.
  destruct (reading (λ m0, lists m0 !! l1) m1) as [nd m4| |] eqn:H3;
    [|done|done].
  apply reading_same in H3 as ->.
  destruct (reading (λ m0, pairs m0 !! list_pair nd) m1) as [pr m5| |] eqn:H4;
    [|done|done].
  apply reading_same in H4 as ->.
  destruct (tbl_cmp tb) as [c|]; [|done]. simpl.
  destruct (decide (to_int (c key (pair_key pr)) = 0)).
  - unfold ret. by intros [= _ <-].
  - intros Hrest. eapply grows_trans; [done|]. by eapply IH.
Qed.

(** X17: on any store, well formed or not, a [HashTable_At] call that
    returns has not called [onRemove], has not written to any table struct
    (strategies and array pointer are as before) and has freed nothing:
    every node, pair and array that was allocated still is. *)
Theorem HashTable_At_only_grows (fuel : nat) tp key m r m' :
  HashTable_At fuel tp key m = Done r m' → grows m m'.
Proof.
  unfold HashTable_At, bind, load_loc, load_table, load_list.
  destruct (reading (λ m0, tables m0 !! tp) m) as [tb m1| |] eqn:H1;
    [|done|done].
  apply reading_same in H1 as ->.
  destruct (tbl_hash tb) as [h|]; [|done]. simpl.
  destruct (At_loop fuel tp key _ m) as [y m2| |] eqn:H2; [|done|done].
  apply At_loop_grows in H2.
  destruct (reading (read_loc y) m2) as [l m3| |] eqn:H3; [|done|done].
  apply reading_same in H3 as ->.
  destruct (reading (λ m0, lists m0 !! l) m2) as [nd m4| |] eqn:H4;
    [|done|done].
  apply reading_same in H4 as ->. unfold ret. by intros [= _ <-].
Qed.

Lemma HashTable_At_only_grows_witness :
  (∃ m', HashTable_At 3 100 244 demo_mem = Done (RElement 1006) m' ∧
         grows demo_mem m').
Proof.
  destruct (HashTable_At 3 100 244 demo_mem) as [r m'| |] eqn:Hrun;
    try (exfalso; vm_compute in Hrun; discriminate).
  assert (r = RElement 1006) as ->.
  { vm_compute in Hrun. by injection Hrun as <- _. }
  exists m'. split; [done|].
  by apply (HashTable_At_only_grows 3 100 244 demo_mem (RElement 1006) m').
Defined.
